(** * Py4A: API entities, static extraction, diffing and call matching

    A shallow embedding of the core of the Py4A repository
    ([py4a/api/entity.py], [py4a/api/static.py], [py4a/api/diff.py],
    [py4a/client/analyzer.py]) together with the properties of it that the
    specification states.

    Python values are modelled as follows: [str] as [string], [int] as [Z],
    lists as [list], a [dict] (insertion ordered) as an association list, a
    [set] as a list that is only ever consulted through membership or through
    an iteration whose order is left unspecified, [Optional[T]] as [option T],
    and a raised exception as the [Raise] case of [result]. *)

From Stdlib Require Import String Ascii List ZArith Lia Bool Arith.
From Stdlib Require Import Permutation DecimalString.
Import ListNotations.
Set Warnings "-register-all".
Open Scope string_scope.

(** ** Python preliminaries *)

(** The [KeyError]s of the modelled code: the four that
    [Package.__getitem__] and [Package.get] raise, where the constructor
    records which [raise] statement produced the error and carries the key
    that is formatted into its message, and the one of a failed [d[k]]. *)
Inductive key_error : Type :=
| MissingKey (key : string)
| DoesNotBelong (key : string)
| NotAnEntity (key : string)
| CyclicReference (key : string)
| CannotBeResolved (key : string).

Definition key_error_message (e : key_error) : string :=
  match e with
  | MissingKey key => key
  | DoesNotBelong key => key ++ " does not belong to this package"
  | NotAnEntity key => key ++ " does not correspond to an API entity"
  | CyclicReference key => key ++ " is a cyclic reference"
  | CannotBeResolved key => key ++ " cannot be resolved in this package"
  end.

Inductive exn : Type :=
| TypeError
| IndexError
| AttributeError
| ValueError
| KeyError (e : key_error).

Inductive result (A : Type) : Type :=
| Ok (a : A)
| Raise (e : exn).
Arguments Ok {A} a.
Arguments Raise {A} e.

Definition bind {A B : Type} (r : result A) (k : A -> result B) : result B :=
  match r with
  | Ok a => k a
  | Raise e => Raise e
  end.

Notation "x <- r ;; k" := (bind r (fun x => k))
  (at level 61, r at next level, right associativity).

(** [x in l] for a list or a set of strings. *)
Definition mem (x : string) (l : list string) : bool :=
  existsb (String.eqb x) l.

(** A [set] of strings, enumerated in insertion order. *)
Definition set_add (s : list string) (x : string) : list string :=
  if mem x s then s else (s ++ [x])%list.

(** [s - t] and [s & t] *)
Definition set_diff (s t : list string) : list string :=
  filter (fun x => negb (mem x t)) s.

Definition set_inter (s t : list string) : list string :=
  filter (fun x => mem x t) s.

(** A [dict] keyed by strings: [k in d], [d[k]] and [d[k] = v]. *)
Definition dict (V : Type) : Type := list (string * V).

Fixpoint dict_get {V : Type} (d : dict V) (k : string) : option V :=
  match d with
  | [] => None
  | (k', v) :: rest => if String.eqb k' k then Some v else dict_get rest k
  end.

Definition dict_has {V : Type} (d : dict V) (k : string) : bool :=
  match dict_get d k with Some _ => true | None => false end.

Definition dict_item {V : Type} (d : dict V) (k : string) : result V :=
  match dict_get d k with
  | Some v => Ok v
  | None => Raise (KeyError (MissingKey k))
  end.

Fixpoint dict_set {V : Type} (d : dict V) (k : string) (v : V) : dict V :=
  match d with
  | [] => [(k, v)]
  | (k', v') :: rest =>
      if String.eqb k' k then (k', v) :: rest
      else (k', v') :: dict_set rest k v
  end.

(** [c in s] and [s.split(c)[0]] for a one-character [c]. *)
Fixpoint contains_char (c : ascii) (s : string) : bool :=
  match s with
  | EmptyString => false
  | String x rest => Ascii.eqb x c || contains_char c rest
  end.

Fixpoint before_char (c : ascii) (s : string) : string :=
  match s with
  | EmptyString => EmptyString
  | String x rest =>
      if Ascii.eqb x c then EmptyString else String x (before_char c rest)
  end.

(** [s.split(c)], [sep.join(l)] is [String.concat], and [s.replace(c, k)],
    for a one-character [c]. *)
Fixpoint split_on (c : ascii) (s : string) : list string :=
  match s with
  | EmptyString => [EmptyString]
  | String x rest =>
      if Ascii.eqb x c then EmptyString :: split_on c rest
      else match split_on c rest with
           | seg :: segs => String x seg :: segs
           | [] => [String x EmptyString]
           end
  end.

Fixpoint replace_char (c : ascii) (k : string) (s : string) : string :=
  match s with
  | EmptyString => EmptyString
  | String x rest =>
      if Ascii.eqb x c then k ++ replace_char c k rest
      else String x (replace_char c k rest)
  end.

(** [l[:n]], with Python's reading of a negative bound. *)
Definition slice_to {A : Type} (l : list A) (n : Z) : list A :=
  if (0 <=? n)%Z then firstn (Z.to_nat n) l
  else firstn (Z.to_nat (Z.of_nat (length l) + n)) l.

(** The decimal text of an [int]. *)
Definition decimal (n : Z) : string := NilEmpty.string_of_int (Z.to_int n).

(** [str(n)] for an [int], also where an f-string formats one: CPython
    refuses to convert an [int] of more than 4300 decimal digits (the
    default of [sys.get_int_max_str_digits()]), that is one with
    [10 ^ 4300 <= |n|], and raises a [ValueError]. *)
Definition int_max_str_digits : Z := 4300.
Arguments int_max_str_digits : simpl never.

Definition str_int (n : Z) : result string :=
  if (Z.abs n <? 10 ^ int_max_str_digits)%Z then Ok (decimal n)
  else Raise ValueError.
Arguments str_int : simpl never.

(** [str(i)] for an index produced by [enumerate] or for a length; these
    are at most [sys.maxsize], which has 19 digits. *)
Definition str_nat (i : nat) : string := decimal (Z.of_nat i).

(** ** [py4a/api/entity.py]: the entity model *)

Module Entity.

Record Argument : Type := mkArgument {
  arg_name : string;
  arg_type : option string;
  default : option string;
  pos_only : bool;
  kw_only : bool;
  vararg : bool;
  kwarg : bool
}.

Record Function : Type := mkFunction {
  func_name : string;
  args : list Argument;
  returns : option string;
  decorators : list string;
  is_async : bool
}.

Record Variable_ : Type := mkVariable {
  var_name : string;
  var_type : option string;
  value : string
}.

Inductive Class_ : Type :=
  mkClass (name : string) (bases : list string)
          (fields static_fields : list Variable_)
          (methods : list Function) (classes : list Class_)
          (decorators : list string).

(** The entities that a package holds once its imports are resolved. *)
Inductive entity : Type :=
| EFunction (f : Function)
| EClass (c : Class_)
| EVariable (v : Variable_)
| EAlias (name full_alias : string)
| EWildcardAlias (name : string) (full_aliases : list string).

Definition class_name (c : Class_) : string :=
  match c with mkClass name _ _ _ _ _ _ => name end.

Definition entity_name (e : entity) : string :=
  match e with
  | EFunction f => func_name f
  | EClass c => class_name c
  | EVariable v => var_name v
  | EAlias name _ => name
  | EWildcardAlias name _ => name
  end.

(** [Alias(name, full_alias)] and [WildcardAlias(full_aliases)] *)
Definition Alias (name full_alias : string) : entity := EAlias name full_alias.
Definition WildcardAlias (full_aliases : list string) : entity :=
  EWildcardAlias "*" full_aliases.

(** A [Package] as a value: its name, its children and its entities.
    The [parent] reference is only read through [parent.full_name], which
    the functions that need it receive as an argument. *)
Inductive Package : Type :=
  mkPackage (name : string) (children : dict Package)
            (entities : dict entity).

Definition package_name (p : Package) : string :=
  match p with mkPackage name _ _ => name end.

Definition children (p : Package) : dict Package :=
  match p with mkPackage _ children _ => children end.

Definition entities (p : Package) : dict entity :=
  match p with mkPackage _ _ entities => entities end.

(** [Function.get_arg]: the loop returns the first argument of that name;
    falling out of the loop reaches [raise None], which Python rejects
    with [TypeError] (exceptions must derive from [BaseException]). *)
Fixpoint get_arg_from (l : list Argument) (name : string) : result Argument :=
  match l with
  | [] => Raise TypeError
  | arg :: rest =>
      if String.eqb (arg_name arg) name then Ok arg
      else get_arg_from rest name
  end.

Definition get_arg (self : Function) (name : string) : result Argument :=
  get_arg_from (args self) name.

End Entity.

(** ** [py4a/api/entity.py]: lookups in a package

    [Package.__getitem__] copies an object and assigns to attributes of the
    copy, and what it returns is a reference, so the lookups are modelled
    on a store of objects: an address is an index into the store, a
    reference is an address, and a [dict] of objects holds addresses. *)

Module Store.
Import Entity.

Definition addr : Type := nat.

Inductive obj : Type :=
| OPackage (name : string) (parent : option addr)
           (children : dict addr) (entities : dict addr)
| OAlias (name full_alias : string)
| OWildcardAlias (name : string) (full_aliases : list string)
| OFunction (f : Function)
| OClass (c : Class_)
| OVariable (v : Variable_).

Definition heap : Type := list obj.

Definition load (h : heap) (a : addr) : option obj := nth_error h a.

Definition alloc (h : heap) (o : obj) : heap * addr :=
  ((h ++ [o])%list, length h).

Fixpoint store (h : heap) (a : addr) (o : obj) : heap :=
  match h, a with
  | [], _ => []
  | _ :: rest, 0 => o :: rest
  | x :: rest, S a' => x :: store rest a' o
  end.

(** [obj.name] *)
Definition name_of (h : heap) (a : addr) : string :=
  match load h a with
  | Some (OPackage name _ _ _) => name
  | Some (OAlias name _) => name
  | Some (OWildcardAlias name _) => name
  | Some (OFunction f) => func_name f
  | Some (OClass c) => class_name c
  | Some (OVariable v) => var_name v
  | None => ""
  end.

(** [res.name = n] and [res.full_aliases = l], on a [WildcardAlias]. *)
Definition set_name (h : heap) (res : addr) (n : string) : heap :=
  match load h res with
  | Some (OWildcardAlias _ full_aliases) =>
      store h res (OWildcardAlias n full_aliases)
  | _ => h
  end.

Definition set_full_aliases (h : heap) (res : addr) (l : list string)
  : heap :=
  match load h res with
  | Some (OWildcardAlias name _) => store h res (OWildcardAlias name l)
  | _ => h
  end.

(** The wildcard branch of [__getitem__]:
    [res = deepcopy(res.entities["*"])], then the two assignments to the
    copy.  An entity under ["*"] that is no [WildcardAlias] has no
    [full_aliases], so that the second assignment fails; the copy made
    before is unreachable then and is left out of the store. *)
Definition expand_wildcard (h : heap) (star : addr) (k : string)
  : heap * result addr :=
  match load h star with
  | Some (OWildcardAlias name full_aliases) =>
      let (h1, res) := alloc h (OWildcardAlias name full_aliases) in
      let h2 := set_name h1 res (replace_char "*" k (name_of h1 res)) in
      let h3 :=
        set_full_aliases h2 res
          (map (replace_char "*" k)
               match load h2 res with
               | Some (OWildcardAlias _ l) => l
               | _ => []
               end) in
      (h3, Ok res)
  | _ => (h, Raise AttributeError)
  end.

(** The loop of [__getitem__] over [keys[1:]], from [res] on; the index
    [i] is the last one exactly when no key remains. *)
Fixpoint walk_keys (h : heap) (key : string) (res : addr)
         (keys : list string) : heap * result addr :=
  match keys with
  | [] => (h, Ok res)
  | k :: rest =>
      match load h res with
      | Some (OPackage _ _ children entities) =>
          match dict_get children k with
          | Some child => walk_keys h key child rest
          | None =>
              match dict_get entities k with
              | Some e => walk_keys h key e rest
              | None =>
                  match dict_get entities "*", rest with
                  | Some star, [] => expand_wildcard h star k
                  | _, _ => (h, Raise (KeyError (NotAnEntity key)))
                  end
              end
          end
      | _ => (h, Raise (KeyError (NotAnEntity key)))
      end
  end.

(** [Package.__getitem__]; the method exists on a [Package] only. *)
Definition __getitem__ (h : heap) (self : addr) (key : string)
  : heap * result addr :=
  match load h self with
  | Some (OPackage name _ _ _) =>
      let keys := split_on "." key in
      if negb (String.eqb (hd "" keys) name)
      then (h, Raise (KeyError (DoesNotBelong key)))
      else walk_keys h key self (tl keys)
  | _ => (h, Raise AttributeError)
  end.

(** [[res.full_alias]] or [res.full_aliases], when [res] is an [Alias]
    or a [WildcardAlias]. *)
Definition aliases_of (o : option obj) : option (list string) :=
  match o with
  | Some (OAlias _ full_alias) => Some [full_alias]
  | Some (OWildcardAlias _ full_aliases) => Some full_aliases
  | _ => None
  end.

(** The outcome of a call that may not return: [None] stands for a
    computation that needs more steps than it was given. *)
Definition outcome : Type := heap * option (result addr).

(** The loop of [Package.get] over [aliases]; [get] is the method itself,
    for the recursive calls. *)
Fixpoint try_aliases
         (get : heap -> addr -> string -> list string -> outcome)
         (self : addr) (key : string) (top_levels : dict addr)
         (prev_aliases : list string)
         (h : heap) (aliases : list string) : outcome :=
  match aliases with
  | [] => (h, Some (Raise (KeyError (CannotBeResolved key))))
  | alias :: rest =>
      if mem alias prev_aliases
      then (h, Some (Raise (KeyError (CyclicReference key))))
      else
        let top_level := hd "" (split_on "." alias) in
        let package :=
          if String.eqb top_level (name_of h self) then Some self
          else dict_get top_levels top_level in
        match package with
        | Some p =>
            match get h p alias (prev_aliases ++ [alias])%list with
            | (h', Some (Raise (KeyError _))) =>
                try_aliases get self key top_levels prev_aliases h' rest
            | returned_or_raised => returned_or_raised
            end
        | None =>
            try_aliases get self key top_levels prev_aliases h rest
        end
  end.

(** [Package.get], with a bound on the depth of the recursion. *)
Fixpoint get (depth : nat) (h : heap) (self : addr) (key : string)
         (top_levels : dict addr) (prev_aliases : list string) : outcome :=
  match depth with
  | 0 => (h, None)
  | S depth =>
      match __getitem__ h self key with
      | (h1, Raise e) => (h1, Some (Raise e))
      | (h1, Ok res) =>
          match aliases_of (load h1 res) with
          | Some aliases =>
              try_aliases
                (fun h p alias prev => get depth h p alias top_levels prev)
                self key top_levels prev_aliases h1 aliases
          | None => (h1, Some (Ok res))
          end
      end
  end.

(** A cyclic pair of aliases: package [P] with [A -> P.B], [B -> P.A]. *)
Definition cyclic_pair : heap :=
  [OPackage "P" None [] [("A", 1); ("B", 2)];
   OAlias "A" "P.B";
   OAlias "B" "P.A"].

(** Package [P] with the entities [{"*": WildcardAlias(["Q.*"])}] and
    package [Q] with a function [foo]. *)
Definition wildcard_P_Q : heap :=
  [OPackage "P" None [] [("*", 1)];
   OWildcardAlias "*" ["Q.*"];
   OPackage "Q" None [] [("foo", 3)];
   OFunction (mkFunction "foo" [] None [] false)].

(** Package [P] with a wildcard target that does not end in [.*]. *)
Definition wildcard_growing : heap :=
  [OPackage "P" None [] [("*", 1)];
   OWildcardAlias "*" ["P.x*"]].

(** [h'] is [h] followed by fresh [WildcardAlias] objects. *)
Definition is_wildcard (o : obj) : Prop :=
  match o with
  | OWildcardAlias _ _ => True
  | _ => False
  end.

Definition extends (h h' : heap) : Prop :=
  exists fresh, h' = (h ++ fresh)%list /\ Forall is_wildcard fresh.

(** Every address held by a package of the store is an address of the
    store. *)
Definition closed_obj (n : nat) (o : obj) : bool :=
  match o with
  | OPackage _ parent children entities =>
      match parent with Some p => p <? n | None => true end
      && forallb (fun kv => snd kv <? n) children
      && forallb (fun kv => snd kv <? n) entities
  | _ => true
  end%nat.

Definition closed (h : heap) : bool := forallb (closed_obj (length h)) h.

(** [s.split(".")[-1]] *)
Definition last_segment (s : string) : string :=
  last (split_on "." s) "".

(** The targets of the stored [WildcardAlias] objects. *)
Definition wildcards_of (o : obj) : list string :=
  match o with
  | OWildcardAlias _ full_aliases => full_aliases
  | _ => []
  end.

Definition wildcard_targets (h : heap) : list string :=
  flat_map wildcards_of h.

(** Every wildcard target has the form that [_resolve_import_from] gives
    it, [MODULE.*]: its last segment is [*]. *)
Definition wf_wildcards (h : heap) : bool :=
  forallb (fun w => String.eqb (last_segment w) "*") (wildcard_targets h).

(** The targets of the stored aliases of both kinds. *)
Definition stored_aliases (h : heap) : list string :=
  flat_map (fun o => match aliases_of (Some o) with
                     | Some l => l
                     | None => []
                     end) h.

(** The names that a wildcard can be asked for in a resolution that
    starts at [key], and the targets such a resolution can meet. *)
Definition asked_names (h : heap) (key : string) : list string :=
  last_segment key :: map last_segment (stored_aliases h).

Definition reachable_aliases (h : heap) (key : string) : list string :=
  (stored_aliases h
     ++ flat_map (fun k => map (replace_char "*" k) (wildcard_targets h))
                 (asked_names h key))%list.

(** How many of [universe] are not in [prev_aliases] yet. *)
Definition remaining (universe prev_aliases : list string) : nat :=
  length (filter (fun u => negb (mem u prev_aliases)) universe).

End Store.

(** ** The syntax trees of Python's [ast] module

    Only the node classes that the extractor distinguishes are kept apart:
    [OtherExpr] is any other expression and [Other] any other node below
    which statements can occur ([If], [For], [While], [With], [Try] and its
    handlers, ...), with its child nodes in field order.  Expressions hold
    no statements, so a traversal that looks for statements skips them. *)

Module Ast.

Inductive expr : Type :=
| Name (id : string)
| Tuple (elts : list expr)
| List_ (elts : list expr)
| Attribute (value : expr) (attr : string)
| OtherExpr (text : string).

Record arg : Type := mkArg {
  arg_id : string;
  annotation : option expr
}.

Record arguments : Type := mkArguments {
  posonlyargs : list arg;
  args : list arg;
  vararg : option arg;
  kwonlyargs : list arg;
  kw_defaults : list (option expr);
  kwarg : option arg;
  defaults : list expr
}.

Record alias : Type := mkAlias {
  name : string;
  asname : option string
}.

Inductive stmt : Type :=
| FunctionDef (name : string) (args : arguments) (body : list stmt)
              (decorator_list : list expr) (returns : option expr)
| AsyncFunctionDef (name : string) (args : arguments) (body : list stmt)
                   (decorator_list : list expr) (returns : option expr)
| ClassDef (name : string) (bases : list expr) (body : list stmt)
           (decorator_list : list expr)
| Assign (targets : list expr) (value : expr)
| AnnAssign (target : expr) (annotation : expr) (value : option expr)
| Import_ (names : list alias)
| ImportFrom (module : option string) (names : list alias) (level : Z)
| Other (children : list stmt).

(** [ast.iter_child_nodes], restricted to the nodes kept in [stmt]. *)
Definition child_nodes (node : stmt) : list stmt :=
  match node with
  | FunctionDef _ _ body _ _ => body
  | AsyncFunctionDef _ _ body _ _ => body
  | ClassDef _ _ body _ => body
  | Other children => children
  | _ => []
  end.

Fixpoint height (node : stmt) : nat :=
  let fix heights (l : list stmt) : nat :=
    match l with
    | [] => 0
    | n :: rest => Nat.max (height n) (heights rest)
    end in
  match node with
  | FunctionDef _ _ body _ _ => S (heights body)
  | AsyncFunctionDef _ _ body _ _ => S (heights body)
  | ClassDef _ _ body _ => S (heights body)
  | Other children => S (heights children)
  | _ => 1
  end.

(** [ast.walk]: breadth first, so level by level; a tree has no more
    levels than its height. *)
Fixpoint walk_levels (levels : nat) (level : list stmt) : list stmt :=
  match levels with
  | 0 => []
  | S n => (level ++ walk_levels n (flat_map child_nodes level))%list
  end.

Definition walk (node : stmt) : list stmt :=
  walk_levels (height node) [node].

End Ast.

(** ** [py4a/api/static.py]: the static extractor *)

Module Static.
Import Entity Ast.

Section Extractor.

(** [ast.unparse], of Python's standard library. *)
Variable unparse : expr -> string.

Definition arg_type (a : arg) : option string :=
  option_map unparse (annotation a).

(** The loop of [_convert_arguments] over
    [posonlyargs + args], from index [i] on. *)
Fixpoint convert_positional (arguments : Ast.arguments)
         (default_starts : Z) (i : nat) (l : list arg)
  : result (list Argument) :=
  match l with
  | [] => Ok []
  | a :: rest =>
      d <- (if (Z.of_nat i >=? default_starts)%Z
            then match nth_error (defaults arguments)
                                 (Z.to_nat (Z.of_nat i - default_starts))
                 with
                 | Some d => Ok (Some (unparse d))
                 | None => Raise IndexError
                 end
            else Ok None) ;;
      rest' <- convert_positional arguments default_starts (S i) rest ;;
      Ok (mkArgument (arg_id a) (arg_type a) d
                     (i <? length (posonlyargs arguments))%nat
                     false false false :: rest')
  end.

(** The loop over [kwonlyargs]. *)
Fixpoint convert_kwonly (arguments : Ast.arguments) (i : nat)
         (l : list arg) : result (list Argument) :=
  match l with
  | [] => Ok []
  | a :: rest =>
      match nth_error (kw_defaults arguments) i with
      | None => Raise IndexError
      | Some d =>
          rest' <- convert_kwonly arguments (S i) rest ;;
          Ok (mkArgument (arg_id a) (arg_type a) (option_map unparse d)
                         false true false false :: rest')
      end
  end.

Definition variadic (a : option arg) (is_vararg : bool)
  : list Argument :=
  match a with
  | Some a => [mkArgument (arg_id a) (arg_type a) None false false
                          is_vararg (negb is_vararg)]
  | None => []
  end.

Definition _convert_arguments (arguments : Ast.arguments)
  : result (list Argument) :=
  let default_starts :=
    (Z.of_nat (length (posonlyargs arguments))
     + Z.of_nat (length (Ast.args arguments))
     - Z.of_nat (length (defaults arguments)))%Z in
  pos <- convert_positional arguments default_starts 0
           (posonlyargs arguments ++ Ast.args arguments)%list ;;
  kwo <- convert_kwonly arguments 0 (kwonlyargs arguments) ;;
  Ok (pos ++ variadic (Ast.vararg arguments) true
          ++ kwo ++ variadic (Ast.kwarg arguments) false)%list.

(** On a node of another class the attribute access [func.name] fails. *)
Definition _convert_function (func : stmt) : result Function :=
  match func with
  | FunctionDef name args _ decorator_list returns =>
      a <- _convert_arguments args ;;
      Ok (mkFunction name a (option_map unparse returns)
                     (map unparse decorator_list) false)
  | AsyncFunctionDef name args _ decorator_list returns =>
      a <- _convert_arguments args ;;
      Ok (mkFunction name a (option_map unparse returns)
                     (map unparse decorator_list) true)
  | _ => Raise AttributeError
  end.

(** The value recorded for element [i] of a tuple target. *)
Definition element_value (value : expr) (i : nat) : result string :=
  match value with
  | Tuple elts | List_ elts =>
      match nth_error elts i with
      | Some e => Ok (unparse e)
      | None => Raise IndexError
      end
  | _ => Ok (unparse value ++ "[" ++ str_nat i ++ "]")
  end.

(** The loop of [_convert_variables] over [enumerate(target.elts)]. *)
Fixpoint convert_elts (value : expr) (i : nat) (elts : list expr)
  : result (list Variable_) :=
  match elts with
  | [] => Ok []
  | Name id :: rest =>
      v <- element_value value i ;;
      vars <- convert_elts value (S i) rest ;;
      Ok (mkVariable id None v :: vars)
  | _ :: rest => convert_elts value (S i) rest
  end.

(** The loop of [_convert_variables] over [targets]. *)
Fixpoint convert_targets (t : option string) (value : expr)
         (targets : list expr) : result (list Variable_) :=
  match targets with
  | [] => Ok []
  | target :: rest =>
      vars <- match target with
              | Name id => Ok [mkVariable id t (unparse value)]
              | Tuple elts => convert_elts value 0 elts
              | _ => Ok []
              end ;;
      vars' <- convert_targets t value rest ;;
      Ok (vars ++ vars')%list
  end.

Definition _convert_variables (assign : stmt) : result (list Variable_) :=
  match assign with
  | Assign targets value => convert_targets None value targets
  | AnnAssign target annotation (Some value) =>
      convert_targets (Some (unparse annotation)) value [target]
  | AnnAssign _ _ None => Ok []
  | _ => Raise AttributeError
  end.

Definition is_field (target : expr) : option string :=
  match target with
  | Attribute (Name id) attr =>
      if String.eqb id "self" then Some attr else None
  | _ => None
  end.

Fixpoint convert_field_elts (value : expr) (i : nat) (elts : list expr)
  : result (list Variable_) :=
  match elts with
  | [] => Ok []
  | elt :: rest =>
      match is_field elt with
      | Some attr =>
          v <- element_value value i ;;
          vars <- convert_field_elts value (S i) rest ;;
          Ok (mkVariable attr None v :: vars)
      | None => convert_field_elts value (S i) rest
      end
  end.

Fixpoint convert_field_targets (t : option string) (value : expr)
         (targets : list expr) : result (list Variable_) :=
  match targets with
  | [] => Ok []
  | target :: rest =>
      vars <- match is_field target, target with
              | Some attr, _ => Ok [mkVariable attr t (unparse value)]
              | None, Tuple elts => convert_field_elts value 0 elts
              | None, _ => Ok []
              end ;;
      vars' <- convert_field_targets t value rest ;;
      Ok (vars ++ vars')%list
  end.

Definition _convert_class_fields (assign : stmt)
  : result (list Variable_) :=
  match assign with
  | Assign targets value => convert_field_targets None value targets
  | AnnAssign target annotation (Some value) =>
      convert_field_targets (Some (unparse annotation)) value [target]
  | AnnAssign _ _ None => Ok []
  | _ => Raise AttributeError
  end.

(** The fields found by walking the constructor [node]. *)
Fixpoint walk_fields (nodes : list stmt) : result (list Variable_) :=
  match nodes with
  | [] => Ok []
  | node2 :: rest =>
      vars <- match node2 with
              | Assign _ _ | AnnAssign _ _ _ => _convert_class_fields node2
              | _ => Ok []
              end ;;
      vars' <- walk_fields rest ;;
      Ok (vars ++ vars')%list
  end.

(** The four lists that the loop of [_convert_class] extends. *)
Record members : Type := mkMembers {
  m_methods : list Function;
  m_fields : list Variable_;
  m_static_fields : list Variable_;
  m_classes : list Class_
}.

Fixpoint _convert_class (cls : stmt) : result Class_ :=
  match cls with
  | ClassDef name bases body decorator_list =>
      let fix loop (body : list stmt) (m : members) : result members :=
        match body with
        | [] => Ok m
        | node :: rest =>
            m1 <- match node with
                  | FunctionDef fname _ _ _ _ =>
                      f <- _convert_function node ;;
                      fs <- (if String.eqb fname "__init__"
                             then walk_fields (walk node) else Ok []) ;;
                      Ok (mkMembers (m_methods m ++ [f])
                                    (m_fields m ++ fs)
                                    (m_static_fields m) (m_classes m))%list
                  | Assign _ _ | AnnAssign _ _ _ =>
                      vs <- _convert_variables node ;;
                      Ok (mkMembers (m_methods m) (m_fields m)
                                    (m_static_fields m ++ vs)
                                    (m_classes m))%list
                  | ClassDef _ _ _ _ =>
                      c <- _convert_class node ;;
                      Ok (mkMembers (m_methods m) (m_fields m)
                                    (m_static_fields m)
                                    (m_classes m ++ [c]))%list
                  | _ => Ok m
                  end ;;
            loop rest m1
        end in
      m <- loop body (mkMembers [] [] [] []) ;;
      Ok (mkClass name (map unparse bases) (m_fields m)
                  (m_static_fields m) (m_methods m) (m_classes m)
                  (map unparse decorator_list))
  | _ => Raise AttributeError
  end.

(** [_SourceVisitor.visit]: [ast.NodeVisitor] calls [visit_<class>] when
    the visitor defines it and [generic_visit], which visits the child
    nodes in turn, when it does not.  The visitor defines
    [visit_FunctionDef], [visit_ClassDef], [visit_Assign] and
    [visit_AnnAssign], none of which descends further. *)
Fixpoint visit (node : stmt) (api_entities : list entity)
  : result (list entity) :=
  let generic_visit :=
    fix generic_visit (children : list stmt) (api_entities : list entity)
      : result (list entity) :=
      match children with
      | [] => Ok api_entities
      | child :: rest =>
          api_entities' <- visit child api_entities ;;
          generic_visit rest api_entities'
      end in
  match node with
  | FunctionDef _ _ _ _ _ =>
      f <- _convert_function node ;;
      Ok (api_entities ++ [EFunction f])%list
  | ClassDef _ _ _ _ =>
      c <- _convert_class node ;;
      Ok (api_entities ++ [EClass c])%list
  | Assign _ _ | AnnAssign _ _ _ =>
      vs <- _convert_variables node ;;
      Ok (api_entities ++ map EVariable vs)%list
  | AsyncFunctionDef _ _ body _ _ => generic_visit body api_entities
  | Import_ _ | ImportFrom _ _ _ => Ok api_entities
  | Other children => generic_visit children api_entities
  end.

(** [get_api_entities(tree)], for the [Module] node with body [body]. *)
Definition get_api_entities (body : list stmt) : result (list entity) :=
  visit (Other body) [].

End Extractor.

(** What [_get_apis_from_source] leaves in [package.entities]: the
    extracted entities and the [ast.Import] and [ast.ImportFrom] nodes of
    the unit. *)
Inductive raw : Type :=
| Extracted (e : entity)
| RawImport (names : list alias)
| RawImportFrom (module : option string) (names : list alias) (level : Z).

(** A package as [_get_apis] builds it, before its imports are resolved. *)
Inductive RawPackage : Type :=
  mkRawPackage (name : string) (children : dict RawPackage)
               (entities : list raw).

Definition raw_name (p : RawPackage) : string :=
  match p with mkRawPackage name _ _ => name end.

Definition raw_children (p : RawPackage) : dict RawPackage :=
  match p with mkRawPackage _ children _ => children end.

Definition raw_entities (p : RawPackage) : list raw :=
  match p with mkRawPackage _ _ entities => entities end.

(** [Package.full_name], from the full name of the parent. *)
Definition full_name (parent : option string) (name : string) : string :=
  match parent with
  | Some p => p ++ "." ++ name
  | None => name
  end.

(** [name.asname if name.asname else name.name] *)
Definition bound_name (n : alias) : string :=
  match asname n with
  | Some a => if String.eqb a "" then Ast.name n else a
  | None => Ast.name n
  end.

(** The two lists that the loop of [_resolve_import_from] over
    [package.entities] extends. *)
Record resolving : Type := mkResolving {
  new_entities : list entity;
  wildcard_aliases : list string
}.

Definition import_names (names : list alias) (st : resolving) : resolving :=
  mkResolving
    (new_entities st
       ++ map (fun n => Alias (bound_name n) (Ast.name n)) names)%list
    (wildcard_aliases st).

(** [full_module_name] of an [ast.ImportFrom]; [parent] is
    [package.parent.full_name], absent when [package.parent] is [None]. *)
Definition full_module_name (parent : option string)
           (module : option string) (level : Z) : result (option string) :=
  if (level =? 0)%Z then Ok module
  else
    match parent with
    | None => Raise AttributeError
    | Some parent_full_name =>
        if (level =? 1)%Z
        then Ok (Some (parent_full_name
                         ++ match module with
                            | Some m => "." ++ m
                            | None => ""
                            end))
        else Ok (Some (String.concat "."
                         (slice_to (split_on "." parent_full_name)
                                   (- level + 1)
                            ++ match module with
                               | Some m => [m]
                               | None => []
                               end)%list))
    end.

Fixpoint import_from_names (module : option string) (names : list alias)
         (st : resolving) : result resolving :=
  match names with
  | [] => Ok st
  | n :: rest =>
      match module with
      | None => Raise TypeError
      | Some m =>
          let full_alias := m ++ "." ++ Ast.name n in
          if String.eqb (Ast.name n) "*"
          then import_from_names module rest
                 (mkResolving (new_entities st)
                              (wildcard_aliases st ++ [full_alias])%list)
          else import_from_names module rest
                 (mkResolving
                    (new_entities st ++ [Alias (bound_name n) full_alias])%list
                    (wildcard_aliases st))
      end
  end.

Fixpoint resolve_entities (parent : option string) (l : list raw)
         (st : resolving) : result resolving :=
  match l with
  | [] => Ok st
  | Extracted _ :: rest => resolve_entities parent rest st
  | RawImport names :: rest =>
      resolve_entities parent rest (import_names names st)
  | RawImportFrom module names level :: rest =>
      m <- full_module_name parent module level ;;
      st' <- import_from_names m names st ;;
      resolve_entities parent rest st'
  end.

Definition extracted (l : list raw) : list entity :=
  flat_map (fun e => match e with Extracted e => [e] | _ => [] end) l.

(** The loop that fills the new [package.entities]: an entity is kept
    only if its name is not taken yet. *)
Fixpoint by_name (l : list entity) (d : dict entity) : dict entity :=
  match l with
  | [] => d
  | e :: rest =>
      by_name rest (if dict_has d (entity_name e) then d
                    else dict_set d (entity_name e) e)
  end.

(** [_resolve_import_from(package)]; [parent] is the full name of
    [package.parent].  The package is changed in place: the result is the
    package as the call leaves it.  [deepcopy] yields an equal value. *)
Fixpoint _resolve_import_from (parent : option string)
         (package : RawPackage) : result Package :=
  match package with
  | mkRawPackage name children entities =>
      let fix subpackages (l : dict RawPackage) : result (dict Package) :=
        match l with
        | [] => Ok []
        | (k, subpackage) :: rest =>
            sub <- _resolve_import_from (Some (full_name parent name))
                     subpackage ;;
            rest' <- subpackages rest ;;
            Ok ((k, sub) :: rest')
        end in
      children' <- subpackages children ;;
      st <- resolve_entities parent entities
              (mkResolving (extracted entities) []) ;;
      let new_entities :=
        match wildcard_aliases st with
        | [] => new_entities st
        | _ => (new_entities st ++ [WildcardAlias (wildcard_aliases st)])%list
        end in
      match dict_get children' "__init__" with
      | Some init => Ok (mkPackage name children' (Entity.entities init))
      | None => Ok (mkPackage name children' (by_name new_entities []))
      end
  end.

(** The entities that the extractor left in the units of a package, its
    subpackages included. *)
Fixpoint all_extracted (p : RawPackage) : list entity :=
  match p with
  | mkRawPackage _ children entities =>
      (extracted entities
         ++ flat_map (fun kv : string * RawPackage =>
                        let (_, child) := kv in all_extracted child)
                     children)%list
  end.

(** The loop of [_resolve_import_from] over [package.children]. *)
Definition resolve_children (parent : option string)
  : dict RawPackage -> result (dict Package) :=
  fix subpackages (l : dict RawPackage) : result (dict Package) :=
    match l with
    | [] => Ok []
    | (k, subpackage) :: rest =>
        sub <- _resolve_import_from parent subpackage ;;
        rest' <- subpackages rest ;;
        Ok ((k, sub) :: rest')
    end.

(** The package directory [simple/] with the units [simple/__init__.py],
    which holds [from .lib import func] and [VERSION = '1'], and
    [simple/lib.py], which holds [def func(): pass]. *)
Definition simple_lib : RawPackage :=
  mkRawPackage "lib" []
    [Extracted (EFunction (mkFunction "func" [] None [] false))].

Definition simple_init : RawPackage :=
  mkRawPackage "__init__" []
    [Extracted (EVariable (mkVariable "VERSION" None "'1'"));
     RawImportFrom (Some "lib") [mkAlias "func" None] 1].

Definition simple : RawPackage :=
  mkRawPackage "simple" [("__init__", simple_init); ("lib", simple_lib)] [].

(** The same directory with [from .lib import *] in [__init__.py]. *)
Definition simple_star : RawPackage :=
  mkRawPackage "simple"
    [("__init__",
      mkRawPackage "__init__" []
        [RawImportFrom (Some "lib") [mkAlias "*" None] 1]);
     ("lib", simple_lib)] [].

(** A plain rendering of expressions, which stands for [ast.unparse]
    where an example needs the text of an expression. *)
Fixpoint unparse_text (e : expr) : string :=
  match e with
  | Name id => id
  | Tuple elts => "(" ++ String.concat ", " (map unparse_text elts) ++ ")"
  | List_ elts => "[" ++ String.concat ", " (map unparse_text elts) ++ "]"
  | Attribute value attr => unparse_text value ++ "." ++ attr
  | OtherExpr text => text
  end.

Definition no_arguments : arguments := mkArguments [] [] None [] [] None [].

(** [async def f(): await other_func()] and [def f(): pass] *)
Definition async_def_f : stmt :=
  AsyncFunctionDef "f" no_arguments [Other []] [] None.

Definition def_f : stmt := FunctionDef "f" no_arguments [Other []] [] None.

(** [[a, b] = 1, 2] and [a, b = 1, 2] *)
Definition assign_list_target : stmt :=
  Assign [List_ [Name "a"; Name "b"]] (Tuple [OtherExpr "1"; OtherExpr "2"]).

Definition assign_tuple_target : stmt :=
  Assign [Tuple [Name "a"; Name "b"]] (Tuple [OtherExpr "1"; OtherExpr "2"]).

(** Whether the right-hand side is a tuple or list literal. *)
Definition literal_elts (value : expr) : option (list expr) :=
  match value with
  | Tuple elts | List_ elts => Some elts
  | _ => None
  end.

Definition has_async (e : entity) : bool :=
  match e with
  | EFunction f => is_async f
  | _ => false
  end.

End Static.

(** ** [py4a/client/analyzer.py]: call shapes and the signature matcher *)

Module Analyzer.
Import Entity.

Record Call : Type := mkCall {
  name : string;
  args : Z;
  kwargs : list string;
  starargs : bool;
  additional_kwargs : bool
}.

(** The locals that the first loop of [Call.match] fills. *)
Record candidates : Type := mkCandidates {
  cand_posargs : list string;
  posonly_args : list string;
  cand_kwargs : list string;
  allow_additional_kwargs : bool;
  allow_additional_posargs : bool
}.

Definition no_candidates : candidates := mkCandidates [] [] [] false false.

Definition scan_arg (c : candidates) (arg : Argument) : candidates :=
  mkCandidates
    (if negb (kwarg arg) && negb (vararg arg) && negb (kw_only arg)
     then (cand_posargs c ++ [arg_name arg])%list else cand_posargs c)
    (if pos_only arg then (posonly_args c ++ [arg_name arg])%list
     else posonly_args c)
    (if negb (kwarg arg) && negb (vararg arg) && negb (pos_only arg)
     then (cand_kwargs c ++ [arg_name arg])%list else cand_kwargs c)
    (if kwarg arg then true else allow_additional_kwargs c)
    (if vararg arg then true else allow_additional_posargs c).

Definition scan_args (l : list Argument) : candidates :=
  fold_left scan_arg l no_candidates.

(** The loop over [self.kwargs]: [inl msg] is an early [return False, msg],
    [inr matched] the set [matched_args] once the loop is over. *)
Fixpoint bind_keywords (kws posonly cand : list string) (allow : bool)
         (matched : list string) : string + list string :=
  match kws with
  | [] => inr matched
  | kw :: rest =>
      if mem kw posonly then inl (kw ++ " is position-only argument")
      else if negb (mem kw cand) && negb allow
      then inl (kw ++ " is not allowed as keyword argument")
      else bind_keywords rest posonly cand allow (kw :: matched)
  end.

(** The last loop, over the parameters that must have been filled. *)
Fixpoint check_required (self : Call) (fname : string) (l : list Argument)
         (matched : list string) : bool * string :=
  match l with
  | [] => (true, "")
  | arg :: rest =>
      if kwarg arg || vararg arg then check_required self fname rest matched
      else if (match default arg with None => true | Some _ => false end)
              && negb (mem (arg_name arg) matched)
      then
        let msg := fname ++ "() missing one required argument " ++ arg_name arg in
        if negb (additional_kwargs self) && negb (starargs self)
        then (false, msg)
        else if kw_only arg && negb (additional_kwargs self)
        then (false, msg)
        else if pos_only arg && negb (starargs self)
        then (false, msg)
        else check_required self fname rest matched
      else check_required self fname rest matched
  end.

(** [Call.match].  The only step that can raise is the formatting of
    [num_args] into the first message. *)
Definition match_ (self : Call) (func : Function) (class_func : bool)
  : result (bool * string) :=
  let num_args := if negb class_func then args self else (args self + 1)%Z in
  let c := scan_args (Entity.args func) in
  if (num_args >? Z.of_nat (length (cand_posargs c)))%Z
     && negb (allow_additional_posargs c)
  then
    given <- str_int num_args ;;
    Ok (false,
        func_name func ++ "() takes up to "
          ++ str_nat (length (cand_posargs c))
          ++ " positional arguments but " ++ given ++ " are given")
  else
    let matched_args := slice_to (cand_posargs c) num_args in
    let cand := filter (fun k => negb (mem k matched_args)) (cand_kwargs c) in
    match bind_keywords (kwargs self) (posonly_args c) cand
                        (allow_additional_kwargs c) matched_args with
    | inl msg => Ok (false, msg)
    | inr matched_args =>
        Ok (check_required self (func_name func) (Entity.args func)
                           matched_args)
    end.

(** The first component of what [Call.match] returns. *)
Definition matched (r : result (bool * string)) : result bool :=
  p <- r ;; Ok (fst p).

(** [num_args], and the test under which the first message is built. *)
Definition num_args (self : Call) (class_func : bool) : Z :=
  if negb class_func then args self else (args self + 1)%Z.

Definition too_many (self : Call) (func : Function) (class_func : bool)
  : bool :=
  (num_args self class_func
     >? Z.of_nat (length (cand_posargs (scan_args (Entity.args func)))))%Z
  && negb (allow_additional_posargs (scan_args (Entity.args func))).

(** A count of positional arguments beyond what [str] converts. *)
Definition huge : Z := (10 ^ 5000)%Z.
Arguments huge : simpl never.

(** The signatures and call shapes of the specification's examples. *)
Definition plain (n : string) (d : option string) : Argument :=
  mkArgument n None d false false false false.

Definition f_a_b_c1 : Function :=
  mkFunction "f" [plain "a" None; plain "b" None; plain "c" (Some "1")]
             None [] false.

Definition f_nullary : Function := mkFunction "f" [] None [] false.

(** [f(*, *, a=*)] and [f(**)] *)
Definition call_two_pos_kw_a : Call := mkCall "f" 2 ["a"] false false.
Definition call_kw_spread : Call := mkCall "f" 0 [] false true.

(** [self.kwargs] is a set: the same call with its keyword arguments
    enumerated as [kws]. *)
Definition with_kwargs (c : Call) (kws : list string) : Call :=
  mkCall (name c) (args c) kws (starargs c) (additional_kwargs c).

(** The four reasons for a mismatch, as [Call.match] words them. *)
Definition too_many_positional (func : Function) (num_args : Z) : string :=
  func_name func ++ "() takes up to "
    ++ str_nat (length (cand_posargs (scan_args (Entity.args func))))
    ++ " positional arguments but " ++ decimal num_args ++ " are given".

Definition is_mismatch_message (self : Call) (func : Function)
           (class_func : bool) (msg : string) : Prop :=
  msg = too_many_positional func
          (if negb class_func then args self else (args self + 1)%Z)
  \/ (exists kw, In kw (kwargs self)
                 /\ msg = kw ++ " is position-only argument")
  \/ (exists kw, In kw (kwargs self)
                 /\ msg = kw ++ " is not allowed as keyword argument")
  \/ (exists arg, In arg (Entity.args func)
                  /\ msg = func_name func
                             ++ "() missing one required argument "
                             ++ arg_name arg).

(** The test that makes the keyword loop return early at [kw]. *)
Definition kw_rejected (posonly cand : list string) (allow : bool)
           (kw : string) : bool :=
  mem kw posonly || (negb (mem kw cand) && negb allow).

End Analyzer.

(** ** [py4a/api/diff.py]: the diff engine *)

Module Diff.
Import Entity.

Inductive DiffType : Type :=
| ClsAdd | ClsRem | FuncAdd | FuncRem
| ReqParamAdd | ReqParamRem | OptParamAdd | OptParamRem
| ParamReorder | ParamDefValAdd | ParamDefValRem | ParamDefValChg
| VarAdd | VarRem.

Record Diff : Type := mkDiff {
  diff_type : DiffType;
  api_name : string;
  param : option string;
  old_value : option string;
  new_value : option string;
  clients_total : Z;
  clients_used : Z;
  clients_impacted : Z
}.

(** [Diff(diff_type, api_name, param, old_value, new_value)] with the
    remaining keyword parameters at their defaults. *)
Definition new_Diff (t : DiffType) (api : string) (p : option string)
           (old_v new_v : option string) : Diff :=
  mkDiff t api p old_v new_v 0 0 0.

(** [Diff.__str__]; an f-string renders an absent value as [None]. *)
Definition show (o : option string) : string :=
  match o with Some v => v | None => "None" end.

Definition Diff_str (d : Diff) : string :=
  let api := "`" ++ api_name d ++ "`: " in
  let p := "`" ++ show (param d) ++ "`" in
  match diff_type d with
  | ClsAdd => api ++ "class added"
  | ClsRem => api ++ "class removed"
  | FuncAdd => api ++ "function added"
  | FuncRem => api ++ "function removed"
  | ReqParamAdd => api ++ "required parameter " ++ p ++ " added"
  | ReqParamRem => api ++ "required parameter " ++ p ++ " removed"
  | ParamReorder => api ++ "parameter " ++ p ++ " reordered"
  | OptParamAdd => api ++ "optional parameter " ++ p ++ " added"
  | OptParamRem => api ++ "optional parameter " ++ p ++ " removed"
  | ParamDefValAdd =>
      api ++ "default value `" ++ show (new_value d) ++ "` added to " ++ p
  | ParamDefValRem =>
      api ++ "default value `" ++ show (old_value d)
          ++ "` removed from " ++ p
  | ParamDefValChg =>
      api ++ "default value changed from `" ++ show (old_value d)
          ++ "` to `" ++ show (new_value d) ++ "` in " ++ p
  | VarAdd => api ++ "variable added"
  | VarRem => api ++ "variable removed"
  end.

Definition same_default_value (v1 v2 : string) : bool :=
  if String.prefix "<" v1 && String.prefix "<" v2 then true
  else if contains_char "(" v1 && contains_char "(" v2
          && String.eqb (before_char "(" v1) (before_char "(" v2)
  then true
  else if String.eqb v1 v2 then true
  else false.

(** The four tables that the first loop of [diff_function] fills for one
    of the two functions. *)
Record tables : Type := mkTables {
  p_all : list string;
  opt : list string;
  p2def : dict string;
  p2pos : dict nat
}.

Definition index_param (t : tables) (pos : nat) (param : Argument)
  : tables :=
  mkTables
    (set_add (p_all t) (arg_name param))
    (match default param with
     | Some _ => set_add (opt t) (arg_name param)
     | None => opt t
     end)
    (match default param with
     | Some d => dict_set (p2def t) (arg_name param) d
     | None => p2def t
     end)
    (dict_set (p2pos t) (arg_name param) pos).

Fixpoint index_params (t : tables) (pos : nat) (l : list Argument)
  : tables :=
  match l with
  | [] => t
  | param :: rest => index_params (index_param t pos param) (S pos) rest
  end.

Definition index_function (api : Function) : tables :=
  index_params (mkTables [] [] [] []) 0 (args api).

Definition added_params (o n : tables) (full_name : string) : list Diff :=
  map (fun p =>
         if mem p (opt n)
         then new_Diff OptParamAdd full_name (Some p) None None
         else new_Diff ReqParamAdd full_name (Some p) None None)
      (set_diff (p_all n) (p_all o)).

Definition removed_params (o n : tables) (full_name : string) : list Diff :=
  map (fun p =>
         if mem p (opt o)
         then new_Diff OptParamRem full_name (Some p) None None
         else new_Diff ReqParamRem full_name (Some p) None None)
      (set_diff (p_all o) (p_all n)).

(** The body of the loop over [p_all["old"] & p_all["new"]]. *)
Definition common_param (o n : tables) (full_name p : string)
  : result (list Diff) :=
  d1 <- (if mem p (opt o) && negb (mem p (opt n))
         then v <- dict_item (p2def o) p ;;
              Ok [new_Diff ParamDefValAdd full_name (Some p) (Some v) None]
         else Ok []) ;;
  d2 <- (if negb (mem p (opt o)) && mem p (opt n)
         then v <- dict_item (p2def n) p ;;
              Ok [new_Diff ParamDefValRem full_name (Some p) None (Some v)]
         else Ok []) ;;
  d3 <- (if mem p (opt o) && mem p (opt n)
         then v1 <- dict_item (p2def o) p ;;
              v2 <- dict_item (p2def n) p ;;
              if negb (same_default_value v1 v2)
              then Ok [new_Diff ParamDefValChg full_name (Some p)
                                (Some v1) (Some v2)]
              else Ok []
         else Ok []) ;;
  d4 <- (i <- dict_item (p2pos o) p ;;
         j <- dict_item (p2pos n) p ;;
         if negb (Nat.eqb i j)
         then Ok [new_Diff ParamReorder full_name (Some p) None None]
         else Ok []) ;;
  Ok (d1 ++ d2 ++ d3 ++ d4)%list.

Fixpoint common_params (o n : tables) (full_name : string)
         (ps : list string) : result (list Diff) :=
  match ps with
  | [] => Ok []
  | p :: rest =>
      ds <- common_param o n full_name p ;;
      ds' <- common_params o n full_name rest ;;
      Ok (ds ++ ds')%list
  end.

Definition diff_function (old new : Function) (full_name : string)
  : result (list Diff) :=
  let o := index_function old in
  let n := index_function new in
  ds <- common_params o n full_name (set_inter (p_all o) (p_all n)) ;;
  Ok (added_params o n full_name ++ removed_params o n full_name ++ ds)%list.

(** [def f(a, b=1)] and [def f(a, b)] *)
Definition f_a_b1 : Function :=
  mkFunction "f"
    [mkArgument "a" None None false false false false;
     mkArgument "b" None (Some "1") false false false false]
    None [] false.

Definition f_a_b : Function :=
  mkFunction "f"
    [mkArgument "a" None None false false false false;
     mkArgument "b" None None false false false false]
    None [] false.

End Diff.

(** ** [py4a/api/diff.py]: classes, entities and the breaking kinds *)

Module DiffEntities.
Import Entity Diff.

(** [Diff.is_breaking] *)
Definition is_breaking (d : Diff) : bool :=
  match diff_type d with
  | ClsRem | FuncRem | VarRem
  | ReqParamAdd | ReqParamRem | OptParamAdd | OptParamRem
  | ParamReorder | ParamDefValAdd | ParamDefValRem | ParamDefValChg => true
  | ClsAdd | FuncAdd | VarAdd => false
  end.

Definition class_bases (c : Class_) : list string :=
  match c with mkClass _ bases _ _ _ _ _ => bases end.

Definition class_fields (c : Class_) : list Variable_ :=
  match c with mkClass _ _ fields _ _ _ _ => fields end.

Definition class_static_fields (c : Class_) : list Variable_ :=
  match c with mkClass _ _ _ static_fields _ _ _ => static_fields end.

Definition class_methods (c : Class_) : list Function :=
  match c with mkClass _ _ _ _ methods _ _ => methods end.

Definition class_classes (c : Class_) : list Class_ :=
  match c with mkClass _ _ _ _ _ classes _ => classes end.

Definition class_decorators (c : Class_) : list string :=
  match c with mkClass _ _ _ _ _ _ decorators => decorators end.

(** [{x.name: x for x in l}], continued from [d]. *)
Fixpoint by_key {V : Type} (name : V -> string) (l : list V) (d : dict V)
  : dict V :=
  match l with
  | [] => d
  | x :: rest => by_key name rest (dict_set d (name x) x)
  end.

Definition keys {V : Type} (d : dict V) : list string := map fst d.

(** The loop of [diff_class] over the methods of both classes. *)
Fixpoint diff_methods (old new : dict Function) (full_name : string)
         (names : list string) : result (list Diff) :=
  match names with
  | [] => Ok []
  | f_name :: rest =>
      old_func <- dict_item old f_name ;;
      new_func <- dict_item new f_name ;;
      ds <- diff_function old_func new_func (full_name ++ "." ++ f_name) ;;
      ds' <- diff_methods old new full_name rest ;;
      Ok (ds ++ ds')%list
  end.

Definition diff_class (old new : Class_) (full_name : string)
  : result (list Diff) :=
  let vars_old :=
    by_key var_name (class_fields old ++ class_static_fields old)%list [] in
  let vars_new :=
    by_key var_name (class_fields new ++ class_static_fields new)%list [] in
  let funcs_old := by_key func_name (class_methods old) [] in
  let funcs_new := by_key func_name (class_methods new) [] in
  ds <- diff_methods funcs_old funcs_new full_name
          (set_inter (keys funcs_new) (keys funcs_old)) ;;
  Ok (map (fun v_name =>
             new_Diff VarRem (full_name ++ "." ++ v_name) None None None)
          (set_diff (keys vars_old) (keys vars_new))
      ++ map (fun v_name =>
                new_Diff VarAdd (full_name ++ "." ++ v_name) None None None)
             (set_diff (keys vars_new) (keys vars_old))
      ++ map (fun f_name =>
                new_Diff FuncRem (full_name ++ "." ++ f_name) None None None)
             (set_diff (keys funcs_old) (keys funcs_new))
      ++ map (fun f_name =>
                new_Diff FuncAdd (full_name ++ "." ++ f_name) None None None)
             (set_diff (keys funcs_new) (keys funcs_old))
      ++ ds)%list.

(** The classes of the values that [diff_entity] can be given. *)
Inductive kind : Type :=
| NoneType | KFunction | KClass | KVariable | KAlias | KWildcardAlias
| KPackage.

Definition kind_eqb (a b : kind) : bool :=
  match a, b with
  | NoneType, NoneType | KFunction, KFunction | KClass, KClass
  | KVariable, KVariable | KAlias, KAlias
  | KWildcardAlias, KWildcardAlias | KPackage, KPackage => true
  | _, _ => false
  end.

(** An [Entity] is one of the entities of a package or a [Package]. *)
Definition type_of (e : option (entity + Package)) : kind :=
  match e with
  | None => NoneType
  | Some (inl (EFunction _)) => KFunction
  | Some (inl (EClass _)) => KClass
  | Some (inl (EVariable _)) => KVariable
  | Some (inl (EAlias _ _)) => KAlias
  | Some (inl (EWildcardAlias _ _)) => KWildcardAlias
  | Some (inr _) => KPackage
  end.

(** What [diff_entity] raises: the [ValueError] of its own, which names
    the two classes, or what [diff_function] raised. *)
Inductive raised : Type :=
| ValueError (old new : kind)
| Propagated (e : exn).

Definition is_alias (e : option (entity + Package)) : bool :=
  match type_of e with
  | KAlias | KWildcardAlias => true
  | _ => false
  end.

Definition lift (r : result (list Diff)) : list Diff + raised :=
  match r with
  | Ok ds => inl ds
  | Raise e => inr (Propagated e)
  end.

Definition diff_entity (old new : option (entity + Package))
           (full_name : string) : list Diff + raised :=
  if is_alias old || is_alias new then inl []
  else
    match old, new with
    | None, _ =>
        match type_of new with
        | KClass => inl [new_Diff ClsAdd full_name None None None]
        | KFunction => inl [new_Diff FuncAdd full_name None None None]
        | KVariable => inl [new_Diff VarAdd full_name None None None]
        | k => inr (ValueError NoneType k)
        end
    | Some _, None =>
        match type_of old with
        | KClass => inl [new_Diff ClsRem full_name None None None]
        | KFunction => inl [new_Diff FuncRem full_name None None None]
        | KVariable => inl [new_Diff VarRem full_name None None None]
        | k => inr (ValueError k NoneType)
        end
    | Some o, Some n =>
        if negb (kind_eqb (type_of old) (type_of new))
        then inr (ValueError (type_of old) (type_of new))
        else
          match o, n with
          | inl (EFunction f), inl (EFunction g) =>
              lift (diff_function f g full_name)
          | inl (EClass c), inl (EClass d) => lift (diff_class c d full_name)
          | _, _ => inl []
          end
    end.

End DiffEntities.

(** ** [py4a/api/static.py]: what the argument conversion yields *)

Module StaticShapes.
Import Entity Ast Static.

(** The positional parameters of a signature, in declared order. *)
Definition positional (a : arguments) : list arg :=
  (posonlyargs a ++ Ast.args a)%list.

(** How many of the four flags of an [Argument] are set. *)
Definition flags_set (a : Argument) : nat :=
  Nat.b2n (pos_only a) + Nat.b2n (kw_only a)
  + Nat.b2n (Entity.vararg a) + Nat.b2n (Entity.kwarg a).

(** The entry that [_convert_arguments] makes for the positional
    parameter at index [k], for the function [unparse]. *)
Definition positional_entry (unparse : expr -> string) (a : arguments)
           (k : nat) (x : arg) : Argument :=
  mkArgument (arg_id x) (arg_type unparse x)
    (if k + length (defaults a) <? length (positional a) then None
     else option_map unparse
            (nth_error (defaults a)
                       (k + length (defaults a) - length (positional a))))%nat
    (k <? length (posonlyargs a))%nat false false false.

(** The loop of [_convert_class] over the class body. *)
Definition class_members (unparse : expr -> string)
  : list stmt -> members -> result members :=
  fix loop (body : list stmt) (m : members) : result members :=
    match body with
    | [] => Ok m
    | node :: rest =>
        m1 <- match node with
              | FunctionDef fname _ _ _ _ =>
                  f <- _convert_function unparse node ;;
                  fs <- (if String.eqb fname "__init__"
                         then walk_fields unparse (walk node) else Ok []) ;;
                  Ok (mkMembers (m_methods m ++ [f])
                                (m_fields m ++ fs)
                                (m_static_fields m) (m_classes m))%list
              | Assign _ _ | AnnAssign _ _ _ =>
                  vs <- _convert_variables unparse node ;;
                  Ok (mkMembers (m_methods m) (m_fields m)
                                (m_static_fields m ++ vs)
                                (m_classes m))%list
              | ClassDef _ _ _ _ =>
                  c <- _convert_class unparse node ;;
                  Ok (mkMembers (m_methods m) (m_fields m)
                                (m_static_fields m)
                                (m_classes m ++ [c]))%list
              | _ => Ok m
              end ;;
        loop rest m1
    end.

(** Whether the class body defines [__init__] with a plain [def]. *)
Definition defines_init (body : list stmt) : bool :=
  existsb (fun node => match node with
                       | FunctionDef fname _ _ _ _ => String.eqb fname "__init__"
                       | _ => false
                       end) body.

(** The names of the plain [def]s of a class body, in order. *)
Definition def_names (body : list stmt) : list string :=
  flat_map (fun node => match node with
                        | FunctionDef fname _ _ _ _ => [fname]
                        | _ => []
                        end) body.

End StaticShapes.

(** ** [py4a/api/entity.py]: membership and full names *)

Module StoreNames.
Import Entity Store.

(** [Package.__contains__]: only a [KeyError] of the lookup means "no". *)
Definition __contains__ (h : heap) (self : addr) (key : string)
  : heap * result bool :=
  match __getitem__ h self key with
  | (h', Ok _) => (h', Ok true)
  | (h', Raise (KeyError _)) => (h', Ok false)
  | (h', Raise e) => (h', Raise e)
  end.

(** The loop of [Package.full_name], which follows [parent] until it is
    [None]; [None] as a result stands for a loop that needs more than
    [steps] iterations. *)
Fixpoint full_name_loop (steps : nat) (h : heap) (full_name : string)
         (curr : option addr) : option (result string) :=
  match curr with
  | None => Some (Ok full_name)
  | Some c =>
      match steps with
      | 0 => None
      | S steps =>
          match load h c with
          | Some (OPackage name parent _ _) =>
              full_name_loop steps h (name ++ "." ++ full_name) parent
          | _ => Some (Raise AttributeError)
          end
      end
  end.

Definition full_name (steps : nat) (h : heap) (self : addr)
  : option (result string) :=
  match load h self with
  | Some (OPackage name parent _ _) => full_name_loop steps h name parent
  | _ => Some (Raise AttributeError)
  end.

(** [names] are the names of the ancestors of the package at [a], from
    the root to the package itself. *)
Inductive ancestry (h : heap) : addr -> list string -> Prop :=
| ancestry_root a name children entities :
    load h a = Some (OPackage name None children entities) ->
    ancestry h a [name]
| ancestry_child a name parent children entities names :
    load h a = Some (OPackage name (Some parent) children entities) ->
    ancestry h parent names ->
    ancestry h a (names ++ [name])%list.

(** Package [a] with the child [b], which has the child [c]. *)
Definition nested_a_b_c : heap :=
  [OPackage "a" None [("b", 1)] [];
   OPackage "b" (Some 0) [("c", 2)] [];
   OPackage "c" (Some 1) [] []].

End StoreNames.

(** ** [py4a/api/entity.py]: signatures and the members of a class *)

Module Signatures.
Import Entity DiffEntities.

(** [Variable.signature]; the type of a variable that was extracted
    without annotation is [None], which differs from [""] and which an
    f-string prints as [None]. *)
Definition Variable_signature (v : Variable_) : string :=
  match var_type v with
  | Some "" => var_name v ++ " = " ++ value v
  | Some t => var_name v ++ " : " ++ t ++ " = " ++ value v
  | None => var_name v ++ " : None = " ++ value v
  end.

(** The text [base] that [Function.signature] builds for one argument. *)
Definition render_argument (arg : Argument) : string :=
  let base :=
    arg_name arg ++ match arg_type arg with
                    | Some t => ": " ++ t
                    | None => ""
                    end in
  let base := if vararg arg then "*" ++ base else base in
  let base := if kwarg arg then "**" ++ base else base in
  match default arg with
  | Some d => base ++ " = " ++ d
  | None => base
  end.

(** The loop of [Function.signature] over the arguments; [prev] tells
    whether there is a previous argument and it is positional-only. *)
Fixpoint signature_items (prev : bool) (l : list Argument) : list string :=
  match l with
  | [] => []
  | arg :: rest =>
      ((if prev && negb (pos_only arg) then ["/"] else [])
         ++ render_argument arg :: signature_items (pos_only arg) rest)%list
  end.

(** The loop over [reversed(self.decorators)]. *)
Fixpoint decorate (reversed_decorators : list string) (s : string) : string :=
  match reversed_decorators with
  | [] => s
  | decorator :: rest => decorate rest ("@" ++ decorator ++ " " ++ s)
  end.

Definition Function_signature (f : Function) : string :=
  let s := "def " ++ func_name f ++ "("
             ++ String.concat ", " (signature_items false (args f)) ++ ")" in
  let s := decorate (rev (decorators f)) s in
  let s := if is_async f then "async " ++ s else s in
  match returns f with
  | Some r => s ++ " -> " ++ r
  | None => s
  end.

(** [s.split(c, 1)[1]] for a one-character [c] that occurs in [s]. *)
Fixpoint after_char (c : ascii) (s : string) : string :=
  match s with
  | EmptyString => EmptyString
  | String x rest => if Ascii.eqb x c then rest else after_char c rest
  end.

(** [Class.get_method], [get_field], [get_static_field] and
    [constructor]: the first member of that name. *)
Definition get_method (c : Class_) (name : string) : option Function :=
  find (fun m => String.eqb (func_name m) name) (class_methods c).

Definition get_field (c : Class_) (name : string) : option Variable_ :=
  find (fun m => String.eqb (var_name m) name) (class_fields c).

Definition get_static_field (c : Class_) (name : string)
  : option Variable_ :=
  find (fun m => String.eqb (var_name m) name) (class_static_fields c).

Definition constructor (c : Class_) : option Function :=
  get_method c "__init__".

(** The members that [Class.get_entity] searches for a name without dot:
    [self.methods + self.fields + self.static_fields]. *)
Definition direct_members (c : Class_) : list (Function + Variable_) :=
  (map inl (class_methods c)
     ++ map inr (class_fields c ++ class_static_fields c))%list.

Definition member_name (m : Function + Variable_) : string :=
  match m with
  | inl f => func_name f
  | inr v => var_name v
  end.

Fixpoint get_entity (c : Class_) (name : string)
  : option (Function + Variable_) :=
  match c with
  | mkClass _ _ fields static_fields methods classes _ =>
      if negb (contains_char "." name)
      then find (fun m => String.eqb (member_name m) name)
                (map inl methods ++ map inr (fields ++ static_fields))%list
      else
        let prefix := before_char "." name in
        let suffix := after_char "." name in
        (fix first_class (l : list Class_) : option (Function + Variable_) :=
           match l with
           | [] => None
           | m :: rest =>
               if String.eqb (class_name m) prefix then get_entity m suffix
               else first_class rest
           end) classes
  end.

Fixpoint get_names (c : Class_) : list string :=
  match c with
  | mkClass _ _ fields static_fields methods classes _ =>
      (map func_name methods ++ map var_name fields
         ++ map var_name static_fields
         ++ (fix nested (l : list Class_) : list string :=
               match l with
               | [] => []
               | c :: rest =>
                   class_name c
                     :: map (fun n => (class_name c ++ n)%string) (get_names c)
                     ++ nested rest
               end) classes)%list
  end.

End Signatures.

(** ** [py4a/client/analyzer.py]: the text of a call and its parsing *)

Module CallText.
Import Entity Analyzer.

(** [sorted(l)] for a collection of strings: Python orders strings code
    point by code point, which on their bytes is [String.leb]. *)
Fixpoint insert_sorted (x : string) (l : list string) : list string :=
  match l with
  | [] => [x]
  | y :: rest =>
      if String.leb x y then x :: y :: rest else y :: insert_sorted x rest
  end.

Fixpoint sorted (l : list string) : list string :=
  match l with
  | [] => []
  | x :: rest => insert_sorted x (sorted rest)
  end.

(** The list [items] of [Call.__str__]. *)
Definition str_items (c : Call) : list string :=
  (repeat "*" (Z.to_nat (args c))
     ++ (if starargs c then ["..."] else [])
     ++ map (fun k => (k ++ "=*")%string) (sorted (kwargs c))
     ++ (if additional_kwargs c then ["**"] else []))%list.

(** [Call.__str__] *)
Definition Call_str (c : Call) : string :=
  name c ++ "(" ++ String.concat "," (str_items c) ++ ")".

(** [sub in s], [s.endswith(c)] and [s[:-1]]. *)
Fixpoint contains_sub (sub s : string) : bool :=
  String.prefix sub s
  || match s with
     | EmptyString => false
     | String _ rest => contains_sub sub rest
     end.

Fixpoint ends_with_char (c : ascii) (s : string) : bool :=
  match s with
  | EmptyString => false
  | String x EmptyString => Ascii.eqb x c
  | String _ rest => ends_with_char c rest
  end.

Fixpoint drop_last (s : string) : string :=
  match s with
  | EmptyString => EmptyString
  | String _ EmptyString => EmptyString
  | String x rest => String x (drop_last rest)
  end.

(** The locals of the loop of [_from_str] over the argument texts. *)
Record parsed : Type := mkParsed {
  p_args : Z;
  p_kwargs : list string;
  p_additional_kwargs : bool;
  p_starargs : bool
}.

Definition parse_arg (st : parsed) (argstr : string) : parsed :=
  if String.eqb argstr "" then st
  else if contains_char "=" argstr
  then mkParsed (p_args st) (set_add (p_kwargs st) (before_char "=" argstr))
                (p_additional_kwargs st) (p_starargs st)
  else if contains_sub "**" argstr
  then mkParsed (p_args st) (p_kwargs st) true (p_starargs st)
  else if contains_sub "^^^" argstr
  then mkParsed (p_args st) (p_kwargs st) (p_additional_kwargs st) true
  else mkParsed (p_args st + 1) (p_kwargs st) (p_additional_kwargs st)
                (p_starargs st).

(** One item of the chain: a name, or a call when the text ends in [)];
    [item.split("(")[1]] fails when the text holds no [(]. *)
Definition parse_item (item : string) : result (string + Call) :=
  if ends_with_char ")" item
  then
    match split_on "(" item with
    | name :: second :: _ =>
        let st := fold_left parse_arg (split_on "," (drop_last second))
                            (mkParsed 0 [] false false) in
        Ok (inr (mkCall name (p_args st) (p_kwargs st) (p_starargs st)
                        (p_additional_kwargs st)))
    | _ => Raise IndexError
    end
  else Ok (inl item).

Fixpoint parse_items (items : list string) : result (list (string + Call)) :=
  match items with
  | [] => Ok []
  | item :: rest =>
      x <- parse_item item ;;
      xs <- parse_items rest ;;
      Ok (x :: xs)
  end.

(** The chain that [AccessChain._from_str] builds. *)
Definition _from_str (chain_str : string) : result (list (string + Call)) :=
  parse_items (split_on "." chain_str).

(** A name that [Call.__str__] writes and [_from_str] reads back: it
    holds none of the characters that the text of a chain gives a
    meaning to. *)
Definition plain_name (s : string) : bool :=
  negb (contains_char "." s) && negb (contains_char "(" s)
  && negb (contains_char "," s) && negb (contains_char "=" s).

End CallText.

(** * The text that the client's source visitor gives to a call

    [src/py4a/client/analyzer.py], [_SourceVisitor._parse],
    [_parse_attribute] and [_parse_call].  The nodes are the expressions
    the visitor tells apart; every other expression is kept as a node of
    its own and goes through [ast.unparse]. *)

Module ClientVisitor.

Inductive node : Type :=
| Name (id : string)
| Attribute (value : node) (attr : string)
| CallNode (func : node) (args : list node)
           (keywords : list (option string * node))
| Starred (value : node)
| OtherNode (text : string).

Definition is_starred (n : node) : bool :=
  match n with Starred _ => true | _ => false end.

(** [[k.arg for k in node.keywords if k.arg is not None]] *)
Fixpoint keyword_args (keywords : list (option string * node)) : list string :=
  match keywords with
  | [] => []
  | (Some a, _) :: rest => a :: keyword_args rest
  | (None, _) :: rest => keyword_args rest
  end.

Definition spreads (k : option string * node) : bool :=
  match fst k with None => true | Some _ => false end.

(** The list [items] of [_parse_call]. *)
Definition call_items (args : list node)
  (keywords : list (option string * node)) : list string :=
  (repeat "*" (length (filter (fun n => negb (is_starred n)) args))
     ++ (if existsb is_starred args then ["^^^"] else [])
     ++ map (fun a => (a ++ "=*")%string) (keyword_args keywords)
     ++ (if existsb spreads keywords then ["**"] else []))%list.

Section Parse.
Variable unparse : node -> string.

(** [_parse], with the bodies of [_parse_attribute] and [_parse_call]
    in place of the calls. *)
Fixpoint _parse (n : node) : string :=
  match n with
  | Attribute value attr => _parse value ++ "." ++ attr
  | CallNode func args keywords =>
      _parse func ++ "(" ++ String.concat "," (call_items args keywords) ++ ")"
  | Name id => id
  | _ => unparse n
  end.

Definition _parse_attribute (value : node) (attr : string) : string :=
  _parse value ++ "." ++ attr.

Definition _parse_call (func : node) (args : list node)
  (keywords : list (option string * node)) : string :=
  _parse func ++ "(" ++ String.concat "," (call_items args keywords) ++ ")".

End Parse.

(** [ast.unparse] on these nodes, for the examples. *)
Fixpoint unparse_text (n : node) : string :=
  match n with
  | Name id => id
  | Attribute value attr => unparse_text value ++ "." ++ attr
  | CallNode func args keywords =>
      unparse_text func ++ "("
        ++ String.concat ", "
             (map unparse_text args
                ++ map (fun k : option string * node =>
                          match k with
                          | (Some a, v) => (a ++ "=" ++ unparse_text v)%string
                          | (None, v) => ("**" ++ unparse_text v)%string
                          end) keywords)%list
        ++ ")"
  | Starred value => "*" ++ unparse_text value
  | OtherNode text => text
  end.

(** A segment of a dotted name. *)
Definition segment (s : string) : bool :=
  negb (contains_char "." s) && negb (contains_char "(" s)
  && negb (contains_char ")" s).

End ClientVisitor.

(** * Matching an access chain against the packages

    [src/py4a/client/analyzer.py], [AccessChain.match] and [MatchResult].
    The packages are the objects of a store, as for the lookups, and
    [apis] maps the top level names to their addresses. *)

Module ChainMatch.
Import Entity Store Analyzer.

Inductive MatchStatus : Type := MATCH | MISMATCH | MISSING.

(** [matched_api] is an entity of the store, or a method, which its
    class holds by value. *)
Record MatchResult : Type := mkMatchResult {
  status : MatchStatus;
  message : string;
  matched_name : string;
  matched_api : option (addr + Function)
}.

Definition item : Type := (string + Call)%type.

(** The outcome of a call that may not return, as for [Package.get]. *)
Definition outcome_of (A : Type) : Type := (heap * option (result A))%type.

(** [item if isinstance(item, str) else item.name] and [str(item)] *)
Definition item_name (i : item) : string :=
  match i with inl s => s | inr c => name c end.

Definition item_str (i : item) : string :=
  match i with inl s => s | inr c => CallText.Call_str c end.

(** [any("staticmethod" in d for d in method.decorators)] *)
Definition static_method (method : Function) : bool :=
  existsb (CallText.contains_sub "staticmethod") (decorators method).

(** The end of the branch for a class: the method that the next item of
    the chain calls, when there is one; [break] is the result that the
    statement after the loop returns.  An exception of [Call.match] is
    not caught. *)
Definition match_method (chain key : string) (c : Class_)
  (rest : list item) (break : MatchResult) : result MatchResult :=
  match rest with
  | inr next :: _ =>
      match Signatures.get_method c (name next) with
      | Some method =>
          r <- match_ next method (negb (static_method method)) ;;
          let (ok, msg) := r in
          if ok
          then Ok (mkMatchResult MATCH "" (key ++ "." ++ name next)
                                 (Some (inr method)))
          else Ok (mkMatchResult MISMATCH
                     ((chain ++ "." ++ CallText.Call_str next)
                        ++ " does not match class method "
                        ++ Signatures.Function_signature method ++ ": " ++ msg)
                     "" None)
      | None => Ok break
      end
  | _ => Ok break
  end.

(** The branch [isinstance(item, Call)] of the loop. *)
Definition match_call (h : heap) (call : Call) (chain key : string)
  (curr_entity : addr) (rest : list item) : result MatchResult :=
  let break := mkMatchResult MATCH "" key (Some (inl curr_entity)) in
  match load h curr_entity with
  | Some (OFunction f) =>
      r <- match_ call f false ;;
      let (ok, msg) := r in
      if ok then Ok break
      else Ok (mkMatchResult MISMATCH
                 (chain ++ " does not match function "
                    ++ Signatures.Function_signature f ++ ": " ++ msg)
                 "" None)
  | Some (OClass c) =>
      match Signatures.constructor c with
      | Some ctor =>
          r <- match_ call ctor true ;;
          let (ok, msg) := r in
          if ok then match_method chain key c rest break
          else Ok (mkMatchResult MISMATCH
                     (chain ++ " does not match class constructor "
                        ++ Signatures.Function_signature ctor ++ ": " ++ msg)
                     "" None)
      | None => match_method chain key c rest break
      end
  | Some (OPackage _ _ _ _) =>
      Ok (mkMatchResult MISMATCH (key ++ " is a module but it is invoked")
                        "" None)
  | _ => Ok break
  end.

(** What the loop does with the entity that the key resolved to. *)
Definition step
  (loop : heap -> addr -> outcome_of MatchResult)
  (h : heap) (it : item) (chain key : string) (curr_entity : addr)
  (rest : list item) : outcome_of MatchResult :=
  match it with
  | inr call => (h, Some (match_call h call chain key curr_entity rest))
  | inl _ =>
      match load h curr_entity with
      | Some (OPackage _ _ _ _) => loop h curr_entity
      | _ => (h, Some (Ok (mkMatchResult MATCH "" key (Some (inl curr_entity)))))
      end
  end.

(** The two lookups of the loop: [get], and [__getitem__] when [get]
    raised a KeyError; [Ok None] when [__getitem__] raised one too. *)
Definition resolve (depth : nat) (h : heap) (top : addr) (key : string)
  : outcome_of (option addr) :=
  match get depth h top key [] [] with
  | (h1, None) => (h1, None)
  | (h1, Some (Ok e)) => (h1, Some (Ok (Some e)))
  | (h1, Some (Raise (KeyError _))) =>
      match __getitem__ h1 top key with
      | (h2, Ok e) => (h2, Some (Ok (Some e)))
      | (h2, Raise (KeyError _)) => (h2, Some (Ok None))
      | (h2, Raise e) => (h2, Some (Raise e))
      end
  | (h1, Some (Raise e)) => (h1, Some (Raise e))
  end.

(** The loop over [enumerate(self.chain)] and the statement after it;
    [top] is [apis[self.top_level]] and [depth] bounds the recursion of
    [Package.get]. *)
Fixpoint loop (depth : nat) (top : addr) (h : heap)
  (curr_keys curr_chain : list string) (curr_entity : addr)
  (items : list item) : outcome_of MatchResult :=
  match items with
  | [] =>
      (h, Some (Ok (mkMatchResult MATCH "" (String.concat "." curr_keys)
                                  (Some (inl curr_entity)))))
  | it :: rest =>
      let curr_keys := (curr_keys ++ [item_name it])%list in
      let curr_chain := (curr_chain ++ [item_str it])%list in
      let key := String.concat "." curr_keys in
      let chain := String.concat "." curr_chain in
      match resolve depth h top key with
      | (h1, None) => (h1, None)
      | (h1, Some (Raise e)) => (h1, Some (Raise e))
      | (h1, Some (Ok None)) =>
          (h1, Some (Ok (mkMatchResult MISSING (key ++ " does not exist")
                                       "" None)))
      | (h1, Some (Ok (Some e))) =>
          step (fun h e => loop depth top h curr_keys curr_chain e rest)
               h1 it chain key e rest
      end
  end.

(** [AccessChain.match].  [self.top_level] is [self.chain[0]]; a [Call]
    there is looked up in [apis] by its text, which is what its
    [__hash__] and [__eq__] go by. *)
Definition AccessChain_match (depth : nat) (h : heap) (apis : dict addr)
  (chain : list item) : outcome_of MatchResult :=
  match chain with
  | [] => (h, Some (Raise IndexError))
  | top_level :: _ =>
      match dict_get apis (item_str top_level) with
      | None =>
          (h, Some (Ok (mkMatchResult MISSING
                          (item_str top_level ++ " does not exist") "" None)))
      | Some top => loop depth top h [] [] top chain
      end
  end.

Definition is_name (i : item) : bool :=
  match i with inl _ => true | inr _ => false end.

Definition is_package (o : option obj) : bool :=
  match o with Some (OPackage _ _ _ _) => true | _ => false end.

(** The two shapes of a result: a match names an entity and carries no
    message, and any other result carries a message only. *)
Definition result_shape (r : MatchResult) : Prop :=
  (status r = MATCH /\ message r = "" /\ matched_api r <> None)
  \/ (status r <> MATCH /\ message r <> "" /\ matched_name r = ""
      /\ matched_api r = None).

(** A package [pkg] with the function [f(a, b, c=1)], the class [A] with
    a constructor and a static method, and an alias to another
    distribution. *)
Definition pkg_store : heap :=
  [OPackage "pkg" None [] [("f", 1); ("A", 2); ("np", 3)];
   OFunction f_a_b_c1;
   OClass (mkClass "A" [] [] []
             [mkFunction "__init__" [plain "self" None; plain "x" None]
                         None [] false;
              mkFunction "make" [plain "n" None] None ["staticmethod"] false]
             [] []);
   OAlias "np" "numpy"].

End ChainMatch.

(** * The names in a package

    [src/py4a/api/entity.py], [Package.keys] and [Package.modules], on a
    package as a value: [full] is [self.full_name], and the full name of
    a child is that of its parent, a dot and the name of the child. *)

Module PackageKeys.
Import Entity.

Fixpoint keys (leaf_only : bool) (full : string) (p : Package)
  : list string :=
  match p with
  | mkPackage _ children entities =>
      ((if leaf_only then [] else [full])
         ++ map (fun kv : string * entity => (full ++ "." ++ fst kv)%string)
                entities
         ++ flat_map
              (fun kv : string * Package =>
                 let (_, child) := kv in
                 keys leaf_only (full ++ "." ++ package_name child) child)
              children)%list
  end.

Fixpoint modules (full : string) (p : Package) : list string :=
  match p with
  | mkPackage _ children _ =>
      (full
         :: flat_map
              (fun kv : string * Package =>
                 let (_, child) := kv in
                 modules (full ++ "." ++ package_name child) child)
              children)%list
  end.

(** A package [a] with a function and the module [a.b], which holds a
    variable. *)
Definition a_with_b : Package :=
  mkPackage "a"
    [("b", mkPackage "b" [] [("x", EVariable (mkVariable "x" None "1"))])]
    [("f", EFunction (mkFunction "f" [] None [] false))].

End PackageKeys.

(** * Properties *)

Section EntityFacts.
Import Entity.
Local Open Scope list_scope.

Lemma get_arg_from_absent (l : list Argument) (s : string) :
  (forall a, In a l -> arg_name a <> s) ->
  get_arg_from l s = Raise TypeError.
Proof.
  induction l as [|a l IH]; intros H; simpl.
  - reflexivity.
  - destruct (String.eqb_spec (arg_name a) s) as [E|_].
    + exfalso. apply (H a); [now left | exact E].
    + apply IH. intros b Hb. apply H. now right.
Qed.

Lemma get_arg_from_present (l : list Argument) (s : string) :
  (exists a, In a l /\ arg_name a = s) ->
  exists pre a post,
    l = pre ++ a :: post /\ arg_name a = s
    /\ (forall b, In b pre -> arg_name b <> s)
    /\ get_arg_from l s = Ok a.
Proof.
  induction l as [|a l IH]; intros [x [Hin Hx]].
  - destruct Hin.
  - simpl. destruct (String.eqb_spec (arg_name a) s) as [E|N].
    + exists [], a, l. repeat split; auto.
    + destruct Hin as [->|Hin]; [contradiction|].
      destruct IH as (pre & b & post & -> & Hb & Hpre & Hget).
      { exists x. auto. }
      exists (a :: pre), b, post. repeat split; auto.
      intros c [<-|Hc]; auto.
Qed.

(** C10. [Function.get_arg] never returns [None]: if no argument of [f]
    is called [s], the call raises [TypeError] (from [raise None]); if
    some argument is called [s], it returns the first such argument. *)
Theorem get_arg_first_or_TypeError (f : Function) (s : string) :
  ((forall a, In a (args f) -> arg_name a <> s) ->
   get_arg f s = Raise TypeError)
  /\ ((exists a, In a (args f) /\ arg_name a = s) ->
      exists pre a post,
        args f = pre ++ a :: post /\ arg_name a = s
        /\ (forall b, In b pre -> arg_name b <> s)
        /\ get_arg f s = Ok a).
Proof.
  split.
  - apply get_arg_from_absent.
  - apply get_arg_from_present.
Qed.

Lemma get_arg_first_or_TypeError_witness :
  get_arg Diff.f_a_b1 "c" = Raise TypeError
  /\ exists pre a post,
      args Diff.f_a_b1 = pre ++ a :: post /\ arg_name a = "b"%string
      /\ (forall b, In b pre -> arg_name b <> "b"%string)
      /\ get_arg Diff.f_a_b1 "b" = Ok a.
Proof.
  split.
  - destruct (get_arg_first_or_TypeError Diff.f_a_b1 "c") as [H _].
    apply H. simpl. intros a [<-|[<-|[]]]; discriminate.
  - destruct (get_arg_first_or_TypeError Diff.f_a_b1 "b") as [_ H].
    apply H. eexists. split; [right; left; reflexivity|reflexivity].
Defined.

End EntityFacts.

Section AnalyzerFacts.
Import Entity Analyzer.
Local Open Scope list_scope.

Lemma mem_In (x : string) (l : list string) : mem x l = true <-> In x l.
Proof.
  unfold mem. rewrite existsb_exists. split.
  - intros [y [Hy E]]. apply String.eqb_eq in E. now subst.
  - intros H. exists x. split; [exact H | apply String.eqb_refl].
Qed.

Lemma mem_ext (l1 l2 : list string) :
  (forall x, In x l1 <-> In x l2) -> forall x, mem x l1 = mem x l2.
Proof.
  intros H x. apply eq_true_iff_eq. rewrite !mem_In. apply H.
Qed.

(** C4. The call shape [f(*, *, a=*)] against [def f(a, b, c=1)]: the two
    positional arguments fill [a] and [b], the function takes no [**]
    parameter, and the matcher answers Mismatch because keyword [a] is not
    left among the keyword-fillable parameters. *)
Theorem match_two_pos_kw_a_mismatch :
  let c := scan_args (Entity.args f_a_b_c1) in
  slice_to (cand_posargs c) 2 = ["a"; "b"]
  /\ allow_additional_kwargs c = false
  /\ match_ call_two_pos_kw_a f_a_b_c1 false
     = Ok (false, "a is not allowed as keyword argument"%string).
Proof. repeat split. Qed.

Lemma check_required_kw_spread (n fn : string) (l : list Argument) :
  (forall a, In a l -> pos_only a = false \/ default a <> None) ->
  check_required (mkCall n 0 [] false true) fn l [] = (true, ""%string).
Proof.
  induction l as [|a l IH]; intros H; simpl; [reflexivity|].
  rewrite IH by (intros b Hb; apply H; now right).
  destruct (kwarg a || vararg a); [reflexivity|].
  destruct (H a (or_introl eq_refl)) as [P|D].
  - rewrite P. rewrite !andb_false_r. simpl.
    now destruct (default a).
  - destruct (default a); [reflexivity|contradiction].
Qed.

(** A call that passes only a keyword spread is excused every required
    parameter that a keyword can fill, that is every one that is not
    positional-only. *)
Lemma match_kw_spread_general (n : string) (func : Function) :
  (forall a, In a (Entity.args func) ->
             pos_only a = false \/ default a <> None) ->
  match_ (mkCall n 0 [] false true) func false = Ok (true, ""%string).
Proof.
  intros H. unfold match_. cbn [negb Analyzer.args kwargs].
  assert (E : (0 >? Z.of_nat (length (cand_posargs
                                        (scan_args (Entity.args func)))))%Z
              = false)
    by (rewrite Z.gtb_ltb; apply Z.ltb_ge; lia).
  rewrite E. cbn [andb bind_keywords slice_to Z.leb Z.compare Z.to_nat firstn].
  f_equal. now apply check_required_kw_spread.
Qed.

(** C5. The call shape [f(**)] matches [def f(a, b, c=1)], whose required
    parameters [a] and [b] the keyword spread may fill, and it matches
    [def f()]. *)
Theorem match_kw_spread_matches :
  match_ call_kw_spread f_a_b_c1 false = Ok (true, ""%string)
  /\ match_ call_kw_spread f_nullary false = Ok (true, ""%string).
Proof. split; reflexivity. Qed.

Lemma check_required_shape self fn l m :
  check_required self fn l m = (true, ""%string)
  \/ exists arg, In arg l
       /\ check_required self fn l m
          = (false, (fn ++ "() missing one required argument "
                        ++ arg_name arg)%string).
Proof.
  induction l as [|arg l IH]; simpl; [now left|].
  assert (K : check_required self fn l m = (true, ""%string)
              \/ exists a, (arg = a \/ In a l)
                   /\ check_required self fn l m
                      = (false, (fn ++ "() missing one required argument "
                                    ++ arg_name a)%string)).
  { destruct IH as [IH|(a & Ha & IH)]; [now left|right; eauto]. }
  destruct (kwarg arg || vararg arg); [exact K|].
  destruct (_ && negb (mem (arg_name arg) m)); [|exact K].
  destruct (negb (additional_kwargs self) && negb (starargs self));
    [right; eauto|].
  destruct (kw_only arg && negb (additional_kwargs self)); [right; eauto|].
  destruct (pos_only arg && negb (starargs self)); [right; eauto|exact K].
Qed.

Lemma check_required_ext self fn l m1 m2 :
  (forall x, mem x m1 = mem x m2) ->
  check_required self fn l m1 = check_required self fn l m2.
Proof.
  intros H. induction l as [|arg l IH]; simpl; [reflexivity|].
  rewrite IH, (H (arg_name arg)). reflexivity.
Qed.

Lemma check_required_with_kwargs self kws fn l m :
  check_required (with_kwargs self kws) fn l m = check_required self fn l m.
Proof. induction l as [|arg l IH]; simpl; [reflexivity|now rewrite IH]. Qed.

Lemma bind_keywords_spec kws po cand allow m :
  if existsb (kw_rejected po cand allow) kws
  then exists kw, In kw kws
       /\ (bind_keywords kws po cand allow m
             = inl (kw ++ " is position-only argument")%string
           \/ bind_keywords kws po cand allow m
             = inl (kw ++ " is not allowed as keyword argument")%string)
  else bind_keywords kws po cand allow m = inr (rev kws ++ m).
Proof.
  revert m. induction kws as [|kw kws IH]; intros m; simpl; [reflexivity|].
  unfold kw_rejected at 1.
  destruct (mem kw po); simpl; [exists kw; auto|].
  destruct (negb (mem kw cand) && negb allow); simpl; [exists kw; auto|].
  specialize (IH (kw :: m)).
  destruct (existsb (kw_rejected po cand allow) kws).
  - destruct IH as (k & Hk & IH). exists k. auto.
  - rewrite IH, <- app_assoc. reflexivity.
Qed.

Lemma existsb_Permutation {A} (f : A -> bool) (l l' : list A) :
  Permutation l l' -> existsb f l = existsb f l'.
Proof.
  induction 1; simpl; try congruence.
  destruct (f x), (f y); reflexivity.
Qed.

Lemma match_too_many self func class_func :
  too_many self func class_func = true ->
  match_ self func class_func
  = (given <- str_int (num_args self class_func) ;;
     Ok (false,
         (func_name func ++ "() takes up to "
            ++ str_nat (length (cand_posargs (scan_args (Entity.args func))))
            ++ " positional arguments but " ++ given ++ " are given")%string)).
Proof.
  unfold too_many, num_args, match_. intros T. rewrite T. reflexivity.
Qed.

Lemma str_int_cases n :
  ((Z.abs n < 10 ^ int_max_str_digits)%Z /\ str_int n = Ok (decimal n))
  \/ ((10 ^ int_max_str_digits <= Z.abs n)%Z /\ str_int n = Raise ValueError).
Proof.
  unfold str_int.
  destruct (Z.ltb_spec (Z.abs n) (10 ^ int_max_str_digits)); auto.
Qed.

(** The three outcomes of [Call.match]: Match, Mismatch with one of the
    four messages, and the [ValueError] of a count that cannot be
    formatted into the first message. *)
Lemma match_shape self func class_func :
  match_ self func class_func = Ok (true, ""%string)
  \/ (exists msg, match_ self func class_func = Ok (false, msg)
                  /\ is_mismatch_message self func class_func msg)
  \/ (match_ self func class_func = Raise ValueError
      /\ too_many self func class_func = true
      /\ (10 ^ int_max_str_digits <= Z.abs (num_args self class_func))%Z).
Proof.
  destruct (too_many self func class_func) eqn:T.
  { rewrite (match_too_many _ _ _ T).
    destruct (str_int_cases (num_args self class_func)) as [[L E]|[L E]];
      rewrite E; cbn [bind].
    - right; left. eexists. split; [reflexivity|]. left. reflexivity.
    - right; right. auto. }
  unfold too_many, num_args in T. unfold match_, is_mismatch_message.
  rewrite T.
  match goal with |- context [bind_keywords ?k ?p ?cd ?a ?m] =>
    pose proof (bind_keywords_spec k p cd a m) as B end.
  destruct (existsb _ (kwargs self)).
  - destruct B as (kw & Hkw & [B|B]); rewrite B; right; left; eexists;
      (split; [reflexivity|]); [right; left|right; right; left]; eauto.
  - rewrite B.
    match goal with |- context [check_required ?s ?f ?l ?m] =>
      destruct (check_required_shape s f l m) as [E|(a & Ha & E)] end;
      rewrite E; [now left|].
    right; left. eexists. split; [reflexivity|]. right; right; right. eauto.
Qed.

Lemma match_Permutation self func class_func kws :
  Permutation (kwargs self) kws ->
  matched (match_ (with_kwargs self kws) func class_func)
  = matched (match_ self func class_func).
Proof.
  intros P. unfold match_. simpl.
  set (n := if negb class_func then args self else (args self + 1)%Z).
  set (c := scan_args (Entity.args func)).
  destruct (_ && negb (allow_additional_posargs c)); [reflexivity|].
  set (m := slice_to (cand_posargs c) n).
  set (cd := filter _ (cand_kwargs c)).
  pose proof (bind_keywords_spec (kwargs self) (posonly_args c) cd
                (allow_additional_kwargs c) m) as B1.
  pose proof (bind_keywords_spec kws (posonly_args c) cd
                (allow_additional_kwargs c) m) as B2.
  rewrite <- (existsb_Permutation _ _ _ P) in B2.
  destruct (existsb _ (kwargs self)).
  - destruct B1 as (k1 & _ & [B1|B1]), B2 as (k2 & _ & [B2|B2]);
      rewrite B1, B2; reflexivity.
  - rewrite B1, B2, check_required_with_kwargs.
    unfold matched. cbn [bind]. do 2 f_equal.
    apply check_required_ext, mem_ext. intros x.
    rewrite !in_app_iff, <- !in_rev.
    split; (intros [H|H]; [left|now right]).
    + eapply Permutation_in; [symmetry; exact P|exact H].
    + eapply Permutation_in; [exact P|exact H].
Qed.

(** A keyword argument that names a parameter already filled by a
    positional argument is a mismatch, unless the function takes [**]. *)
Lemma match_keyword_already_filled self func class_func kw :
  let c := scan_args (Entity.args func) in
  In kw (kwargs self) ->
  In kw (slice_to (cand_posargs c) (num_args self class_func)) ->
  allow_additional_kwargs c = false ->
  too_many self func class_func = false ->
  matched (match_ self func class_func) = Ok false.
Proof.
  intros c Hkw Hfilled Hallow T. unfold too_many in T. unfold match_.
  fold (num_args self class_func). fold c. fold c in T. rewrite T.
  match goal with |- context [bind_keywords ?k ?p ?cd ?a ?m] =>
    pose proof (bind_keywords_spec k p cd a m) as B;
    assert (R : existsb (kw_rejected p cd a) k = true) end.
  { apply existsb_exists. exists kw. split; [exact Hkw|].
    unfold kw_rejected. rewrite Hallow.
    replace (mem kw (filter _ (cand_kwargs c))) with false;
      [apply orb_true_r|].
    symmetry. apply not_true_is_false. intros M.
    apply mem_In, filter_In in M as [_ M].
    apply mem_In in Hfilled. now rewrite Hfilled in M. }
  rewrite R in B. destruct B as (k & _ & [B|B]); now rewrite B.
Qed.

(** C8. The signature matcher is total on every call shape whose count
    of positional arguments (one more for a bound method) can be written
    out, that is one below [10 ^ 4300]: the call shape, the signature and
    the bound-method flag yield one outcome, either Match with the empty
    message or Mismatch with one of the matcher's four messages.  The
    matcher has one exceptional path: it raises a [ValueError], and
    nothing else, exactly where the message about too many positional
    arguments would have to format a count of [10 ^ 4300] or more.
    Whether a call matches, mismatches or raises does not depend on the
    order in which the set of keyword arguments is iterated. *)
Theorem match_total (self : Call) (func : Function) (class_func : bool) :
  ((Z.abs (num_args self class_func) < 10 ^ int_max_str_digits)%Z ->
   exists ok msg,
     match_ self func class_func = Ok (ok, msg)
     /\ (if ok then msg = ""%string
         else is_mismatch_message self func class_func msg))
  /\ (forall e,
        match_ self func class_func = Raise e ->
        e = ValueError
        /\ too_many self func class_func = true
        /\ (10 ^ int_max_str_digits <= Z.abs (num_args self class_func))%Z)
  /\ (too_many self func class_func = true ->
      (10 ^ int_max_str_digits <= Z.abs (num_args self class_func))%Z ->
      match_ self func class_func = Raise ValueError)
  /\ (forall kws, Permutation (kwargs self) kws ->
        matched (match_ (with_kwargs self kws) func class_func)
        = matched (match_ self func class_func)).
Proof.
  split; [|split; [|split]].
  - intros L.
    destruct (match_shape self func class_func)
      as [E|[(msg & E & M)|(E & _ & G)]].
    + exists true, ""%string. auto.
    + exists false, msg. auto.
    + lia.
  - intros e R.
    destruct (match_shape self func class_func)
      as [E|[(msg & E & M)|(E & T & G)]]; try congruence.
    repeat split; [congruence|exact T|exact G].
  - intros T G. rewrite (match_too_many _ _ _ T).
    destruct (str_int_cases (num_args self class_func)) as [[L E]|[L E]];
      [lia|now rewrite E].
  - apply match_Permutation.
Qed.

Lemma huge_positive : (0 <= huge)%Z /\ (huge >? 0)%Z = true.
Proof.
  assert (H : (0 < huge)%Z) by (unfold huge; apply Z.pow_pos_nonneg; lia).
  split; [lia|]. rewrite Z.gtb_ltb. now apply Z.ltb_lt.
Qed.

Lemma huge_beyond_limit : (10 ^ int_max_str_digits <= Z.abs huge)%Z.
Proof.
  rewrite Z.abs_eq by apply huge_positive.
  unfold huge, int_max_str_digits. apply Z.pow_le_mono_r; lia.
Qed.

(** C8, the exceptional path.  The call shape with [10 ^ 5000]
    positional arguments against [def f()] reaches the message about too
    many positional arguments, and formatting the count into it raises a
    [ValueError]: the matcher returns no outcome. *)
Theorem match_raises_on_huge_count :
  match_ (mkCall "f" huge [] false false) f_nullary false = Raise ValueError.
Proof.
  assert (T : too_many (mkCall "f" huge [] false false) f_nullary false
              = true).
  { unfold too_many, num_args.
    change ((huge >? 0)%Z && true = true).
    destruct huge_positive as [_ H]. now rewrite H. }
  rewrite (match_too_many _ _ _ T).
  destruct (str_int_cases
              (num_args (mkCall "f" huge [] false false) false))
    as [[L E]|[L E]]; [|now rewrite E].
  pose proof huge_beyond_limit as G.
  change (num_args (mkCall "f" huge [] false false) false) with huge in L.
  lia.
Qed.

Lemma match_total_witness :
  (exists ok msg,
      match_ call_two_pos_kw_a f_a_b_c1 true = Ok (ok, msg)
      /\ (if ok then msg = ""%string
          else is_mismatch_message call_two_pos_kw_a f_a_b_c1 true msg))
  /\ matched (match_ (with_kwargs (mkCall "f" 1 ["b"; "c"] false false)
                                  ["c"; "b"]) f_a_b_c1 false)
     = matched (match_ (mkCall "f" 1 ["b"; "c"] false false) f_a_b_c1 false).
Proof.
  split.
  - destruct (match_total call_two_pos_kw_a f_a_b_c1 true) as [H _].
    apply H. apply Z.ltb_lt. reflexivity.
  - destruct (match_total (mkCall "f" 1 ["b"; "c"] false false) f_a_b_c1 false)
      as (_ & _ & _ & H).
    apply H. simpl. apply perm_swap.
Defined.

End AnalyzerFacts.

Section DiffFacts.
Import Entity Diff.
Local Open Scope list_scope.

Lemma dict_get_set_same {V} (d : dict V) k v :
  dict_get (dict_set d k v) k = Some v.
Proof.
  induction d as [|[k' v'] d IH]; simpl.
  - now rewrite String.eqb_refl.
  - destruct (String.eqb k' k) eqn:E; simpl; rewrite E; auto.
Qed.

Lemma dict_get_set_other {V} (d : dict V) k k' v :
  k <> k' -> dict_get (dict_set d k v) k' = dict_get d k'.
Proof.
  intros N. apply String.eqb_neq in N.
  induction d as [|[k0 v0] d IH]; simpl.
  - now rewrite N.
  - destruct (String.eqb k0 k) eqn:E; simpl.
    + apply String.eqb_eq in E. subst. now rewrite N.
    + now rewrite IH.
Qed.

Lemma mem_set_add s x p : mem p (set_add s x) = mem p s || String.eqb p x.
Proof.
  unfold set_add. destruct (mem x s) eqn:M.
  - destruct (String.eqb_spec p x) as [->|_];
      [now rewrite M|now rewrite orb_false_r].
  - unfold mem. rewrite existsb_app. simpl. now rewrite orb_false_r.
Qed.

(** Every name of [opt] has its default in [p2def] and every name of
    [p_all] its position in [p2pos], so that no lookup of
    [diff_function] fails. *)
Local Abbreviation tables_ok t :=
  ((forall p, mem p (opt t) = true -> exists v, dict_get (p2def t) p = Some v)
   /\ (forall p, mem p (p_all t) = true ->
                 exists i, dict_get (p2pos t) p = Some i)).

Lemma index_param_ok t pos param :
  tables_ok t -> tables_ok (index_param t pos param).
Proof.
  intros [D P]. unfold index_param. split; simpl; intros p.
  - destruct (default param) as [d|]; [|apply D].
    rewrite mem_set_add.
    destruct (String.eqb_spec p (arg_name param)) as [E|N]; intros H.
    + rewrite E, dict_get_set_same. eauto.
    + rewrite dict_get_set_other by congruence.
      apply D. now rewrite orb_false_r in H.
  - rewrite mem_set_add.
    destruct (String.eqb_spec p (arg_name param)) as [E|N]; intros H.
    + rewrite E, dict_get_set_same. eauto.
    + rewrite dict_get_set_other by congruence.
      apply P. now rewrite orb_false_r in H.
Qed.

Lemma index_function_ok api : tables_ok (index_function api).
Proof.
  unfold index_function.
  assert (G : forall l t pos, tables_ok t -> tables_ok (index_params t pos l)).
  { induction l as [|a l IH]; intros t pos H; simpl; [exact H|].
    apply IH, index_param_ok, H. }
  apply G. split; intros p H; discriminate.
Qed.

Lemma common_param_ok o n full_name p :
  tables_ok o -> tables_ok n ->
  mem p (p_all o) = true -> mem p (p_all n) = true ->
  exists ds,
    common_param o n full_name p = Ok ds
    /\ (mem p (opt o) = true -> mem p (opt n) = false ->
        exists v,
          dict_get (p2def o) p = Some v
          /\ In (new_Diff ParamDefValAdd full_name (Some p) (Some v) None) ds
          /\ forall d, In d ds -> diff_type d <> ParamDefValRem).
Proof.
  intros [Do Po] [Dn Pn] Ao An.
  destruct (Po p Ao) as [i Hi], (Pn p An) as [j Hj].
  unfold common_param, dict_item. rewrite Hi, Hj.
  destruct (mem p (opt o)) eqn:Oo; destruct (mem p (opt n)) eqn:On; simpl.
  - destruct (Do p Oo) as [v1 H1], (Dn p On) as [v2 H2]. rewrite H1, H2.
    simpl. destruct (negb (same_default_value v1 v2));
      destruct (negb (Nat.eqb i j)); simpl;
      (eexists; split; [reflexivity|discriminate]).
  - destruct (Do p Oo) as [v1 H1]. rewrite H1. simpl.
    destruct (negb (Nat.eqb i j)); simpl;
      (eexists; split; [reflexivity|]; intros _ _; exists v1;
       split; [reflexivity|]; split; [now left|];
       intros d H; simpl in H;
       repeat (destruct H as [<-|H]; [discriminate|]); destruct H).
  - destruct (Dn p On) as [v2 H2]. rewrite H2. simpl.
    destruct (negb (Nat.eqb i j)); simpl;
      (eexists; split; [reflexivity|discriminate]).
  - destruct (negb (Nat.eqb i j)); simpl;
      (eexists; split; [reflexivity|discriminate]).
Qed.

Lemma common_params_ok o n full_name ps :
  tables_ok o -> tables_ok n ->
  (forall p, In p ps -> mem p (p_all o) = true /\ mem p (p_all n) = true) ->
  exists ds,
    common_params o n full_name ps = Ok ds
    /\ forall p, In p ps -> mem p (opt o) = true -> mem p (opt n) = false ->
       exists v,
         dict_get (p2def o) p = Some v
         /\ In (new_Diff ParamDefValAdd full_name (Some p) (Some v) None) ds.
Proof.
  intros Ho Hn. induction ps as [|q ps IH]; intros B; simpl.
  - eexists. split; [reflexivity|]. intros p [].
  - destruct (B q (or_introl eq_refl)) as [Bo Bn].
    destruct (common_param_ok o n full_name q Ho Hn Bo Bn) as (d1 & E1 & F1).
    destruct IH as (d2 & E2 & F2); [intros p Hp; apply B; now right|].
    rewrite E1, E2. simpl. eexists. split; [reflexivity|].
    intros p [<-|Hp] Oo On.
    + destruct (F1 Oo On) as (v & Hv & I & _). exists v.
      split; [exact Hv|]. apply in_app_iff. now left.
    + destruct (F2 p Hp Oo On) as (v & Hv & I). exists v.
      split; [exact Hv|]. apply in_app_iff. now right.
Qed.

(** [diff_function] always returns, and a parameter of both functions that
    has a default in the old one and none in the new one is reported as
    [ParamDefValAdd], with the old default as [old_value]. *)
Lemma diff_function_dropped_default old new full_name :
  exists ds,
    diff_function old new full_name = Ok ds
    /\ forall p,
        mem p (p_all (index_function old)) = true ->
        mem p (p_all (index_function new)) = true ->
        mem p (opt (index_function old)) = true ->
        mem p (opt (index_function new)) = false ->
        exists v,
          dict_get (p2def (index_function old)) p = Some v
          /\ In (new_Diff ParamDefValAdd full_name (Some p) (Some v) None) ds.
Proof.
  unfold diff_function.
  destruct (common_params_ok (index_function old) (index_function new)
              full_name
              (set_inter (p_all (index_function old))
                         (p_all (index_function new)))
              (index_function_ok old) (index_function_ok new))
    as (ds & E & F).
  { intros p Hp. unfold set_inter in Hp. apply filter_In in Hp as [I M].
    split; [now apply mem_In|exact M]. }
  rewrite E. simpl. eexists. split; [reflexivity|].
  intros p Ao An Oo On.
  destruct (F p) as (v & Hv & I); auto.
  { unfold set_inter. apply filter_In. split; [now apply mem_In|exact An]. }
  exists v. split; [exact Hv|].
  apply in_app_iff. right. apply in_app_iff. now right.
Qed.

(** C1 (the code departs from the claim). Diffing old [def f(a, b=1)]
    against new [def f(a, b)] yields exactly one diff for [b], but
    [diff_function] labels it [ParamDefValAdd], "Parameter Default Value
    Addition", with the lost default in [old_value]: no [ParamDefValRem]
    diff is produced, and [Diff.__str__], which reads [new_value] for an
    addition, prints the added default as [None].  In the other direction
    the new default of [b] is reported as [ParamDefValRem]. *)
Theorem diff_function_default_removed_labelled_added :
  diff_function f_a_b1 f_a_b "f"
  = Ok [new_Diff ParamDefValAdd "f" (Some "b"%string) (Some "1"%string) None]
  /\ Diff_str (new_Diff ParamDefValAdd "f" (Some "b"%string)
                        (Some "1"%string) None)
     = "`f`: default value `None` added to `b`"%string
  /\ diff_function f_a_b f_a_b1 "f"
     = Ok [new_Diff ParamDefValRem "f" (Some "b"%string) None
                    (Some "1"%string)].
Proof. repeat split. Qed.

End DiffFacts.

Section StaticFacts.
Import Entity Ast Static.
Local Open Scope list_scope.

Variable unparse : expr -> string.

(** Induction on syntax trees, with the hypothesis available for every
    child node. *)
Lemma stmt_nested_ind (P : stmt -> Prop) :
  (forall node, Forall P (child_nodes node) -> P node) ->
  forall node, P node.
Proof.
  intros H.
  fix IH 1. intros node. apply H.
  destruct node; simpl; try constructor;
    match goal with
    | |- Forall P ?l =>
        induction l as [|n l IHl]; constructor; [apply IH | exact IHl]
    end.
Qed.

Lemma generic_visit_no_async (children : list stmt) :
  Forall (fun node => forall acc es,
              visit unparse node acc = Ok es ->
              forallb (fun e => negb (has_async e)) acc = true ->
              forallb (fun e => negb (has_async e)) es = true) children ->
  forall acc es,
    (fix generic_visit (children : list stmt) (api_entities : list entity)
       : result (list entity) :=
       match children with
       | [] => Ok api_entities
       | child :: rest =>
           api_entities' <- visit unparse child api_entities ;;
           generic_visit rest api_entities'
       end) children acc = Ok es ->
    forallb (fun e => negb (has_async e)) acc = true ->
    forallb (fun e => negb (has_async e)) es = true.
Proof.
  induction 1 as [|node rest Hn _ IH]; intros acc es E Hacc.
  - now inversion E; subst.
  - destruct (visit unparse node acc) as [acc'|] eqn:V; simpl in E;
      [|discriminate].
    eapply IH; [exact E|]. eapply Hn; eauto.
Qed.

(** No entity that the visitor emits is an asynchronous function. *)
Lemma visit_no_async (node : stmt) (acc es : list entity) :
  visit unparse node acc = Ok es ->
  forallb (fun e => negb (has_async e)) acc = true ->
  forallb (fun e => negb (has_async e)) es = true.
Proof.
  revert acc es. induction node as [node IH] using stmt_nested_ind.
  intros acc es E Hacc.
  destruct node as [fname fargs body dl ret | fname fargs body dl ret
                   | cname bases body dl | targets value
                   | target ann value | names | module names level
                   | children]; simpl in IH; cbn [visit] in E.
  - destruct (_convert_function unparse _) as [f|] eqn:F; simpl in E;
      [|discriminate].
    inversion E; subst. rewrite forallb_app, Hacc. simpl.
    simpl in F. destruct (_convert_arguments unparse fargs); simpl in F;
      [|discriminate].
    now inversion F; subst.
  - eapply generic_visit_no_async; eauto.
  - destruct (_convert_class unparse _) as [c|]; simpl in E;
      [|discriminate].
    inversion E; subst. rewrite forallb_app, Hacc. reflexivity.
  - destruct (_convert_variables unparse _) as [vs|]; simpl in E;
      [|discriminate].
    inversion E; subst. rewrite forallb_app, Hacc. simpl.
    clear. induction vs; simpl; auto.
  - destruct (_convert_variables unparse _) as [vs|]; simpl in E;
      [|discriminate].
    inversion E; subst. rewrite forallb_app, Hacc. simpl.
    clear. induction vs; simpl; auto.
  - now inversion E; subst.
  - now inversion E; subst.
  - eapply generic_visit_no_async; eauto.
Qed.

Lemma get_api_entities_no_async (body : list stmt) (es : list entity)
      (f : Function) :
  get_api_entities unparse body = Ok es ->
  In (EFunction f) es -> is_async f = false.
Proof.
  intros E Hin. apply visit_no_async in E; [|reflexivity].
  rewrite forallb_forall in E. specialize (E _ Hin). simpl in E.
  now destruct (is_async f).
Qed.

(** C6 (the code departs from the claim). [_convert_function] does set
    the async flag on an asynchronous definition, but the visitor has no
    [visit_AsyncFunctionDef]: for the unit [async def f(): await
    other_func()] the extractor emits no entity at all, where the
    synchronous [def f()] yields its [Function]. *)
Theorem get_api_entities_skips_async_def :
  get_api_entities unparse [async_def_f] = Ok []
  /\ _convert_function unparse async_def_f
     = Ok (mkFunction "f" [] None [] true)
  /\ get_api_entities unparse [def_f]
     = Ok [EFunction (mkFunction "f" [] None [] false)].
Proof. repeat split. Qed.

Lemma skipn_nth_error {A} (l : list A) (i : nat) (e : A) :
  nth_error l i = Some e -> skipn i l = e :: skipn (S i) l.
Proof.
  revert i. induction l as [|x l IH]; intros [|i] H; simpl in *;
    try discriminate.
  - now inversion H.
  - now apply IH.
Qed.

Lemma element_value_literal value elts i e :
  literal_elts value = Some elts -> nth_error elts i = Some e ->
  element_value unparse value i = Ok (unparse e).
Proof.
  intros L N. destruct value; simpl in L; try discriminate;
    inversion L; subst; simpl; now rewrite N.
Qed.

Lemma element_value_indexed value i :
  literal_elts value = None ->
  element_value unparse value i
  = Ok (unparse value ++ "[" ++ str_nat i ++ "]")%string.
Proof. intros L. destruct value; simpl in L; try discriminate; reflexivity. Qed.

Lemma convert_elts_literal value elts ids :
  literal_elts value = Some elts ->
  forall i, i + length ids <= length elts ->
  convert_elts unparse value i (map Name ids)
  = Ok (map (fun p => mkVariable (fst p) None (unparse (snd p)))
            (combine ids (skipn i elts))).
Proof.
  intros L. induction ids as [|id ids IH]; intros i H; simpl in *.
  - reflexivity.
  - destruct (nth_error elts i) as [e|] eqn:N.
    + rewrite (element_value_literal _ _ _ _ L N). simpl.
      rewrite IH by lia. simpl.
      rewrite (skipn_nth_error _ _ _ N). reflexivity.
    + apply nth_error_None in N. lia.
Qed.

Lemma convert_elts_indexed value ids :
  literal_elts value = None ->
  forall i,
  convert_elts unparse value i (map Name ids)
  = Ok (map (fun p => mkVariable (snd p) None
                        (unparse value ++ "[" ++ str_nat (fst p) ++ "]")%string)
            (combine (seq i (length ids)) ids)).
Proof.
  intros L. induction ids as [|id ids IH]; intros i; simpl.
  - reflexivity.
  - rewrite (element_value_indexed _ _ L). simpl. rewrite IH. reflexivity.
Qed.

(** C7 (as the code has it). An assignment whose target is a tuple of
    names [ids] yields one [Variable] per name: with a tuple or list
    literal of at least as many elements on the right, the value of each
    is the text of the element at its position; with any other
    right-hand side, the value of the name at position [i] is the text of
    the right-hand side followed by [[i]].  A list target yields no
    [Variable]. *)
Theorem convert_variables_tuple_of_names (ids : list string) (value : expr) :
  (forall elts,
      literal_elts value = Some elts -> length ids <= length elts ->
      _convert_variables unparse (Assign [Tuple (map Name ids)] value)
      = Ok (map (fun p => mkVariable (fst p) None (unparse (snd p)))
                (combine ids elts)))
  /\ (literal_elts value = None ->
      _convert_variables unparse (Assign [Tuple (map Name ids)] value)
      = Ok (map (fun p => mkVariable (snd p) None
                            (unparse value ++ "[" ++ str_nat (fst p) ++ "]")%string)
                (combine (seq 0 (length ids)) ids)))
  /\ _convert_variables unparse (Assign [List_ (map Name ids)] value)
     = Ok [].
Proof.
  split; [|split].
  - intros elts L H. simpl.
    rewrite (convert_elts_literal _ _ _ L 0) by lia. simpl.
    now rewrite app_nil_r.
  - intros L. simpl. rewrite (convert_elts_indexed _ _ L). simpl.
    now rewrite app_nil_r.
  - reflexivity.
Qed.

End StaticFacts.

(** A tuple target against a list literal and against a name:
    [a, b = [1, 2, 3]] and [a, b = c]. *)
Lemma convert_variables_tuple_of_names_witness :
  Static._convert_variables Static.unparse_text
    (Ast.Assign [Ast.Tuple [Ast.Name "a"; Ast.Name "b"]]
                (Ast.List_ [Ast.OtherExpr "1"; Ast.OtherExpr "2";
                            Ast.OtherExpr "3"]))
  = Ok [Entity.mkVariable "a" None "1"; Entity.mkVariable "b" None "2"]
  /\ Static._convert_variables Static.unparse_text
       (Ast.Assign [Ast.Tuple [Ast.Name "a"; Ast.Name "b"]] (Ast.Name "c"))
     = Ok [Entity.mkVariable "a" None "c[0]";
           Entity.mkVariable "b" None "c[1]"].
Proof.
  split.
  - destruct (convert_variables_tuple_of_names Static.unparse_text ["a"; "b"]
                (Ast.List_ [Ast.OtherExpr "1"; Ast.OtherExpr "2";
                            Ast.OtherExpr "3"])) as [H _].
    apply (H _ eq_refl). simpl. lia.
  - destruct (convert_variables_tuple_of_names Static.unparse_text ["a"; "b"]
                (Ast.Name "c")) as [_ [H _]].
    apply (H eq_refl).
Defined.

(** The list target of [[a, b] = 1, 2] yields no [Variable], where the
    specification promises one per element. *)
Lemma convert_variables_list_target_ignored :
  Static._convert_variables Static.unparse_text Static.assign_list_target
  = Ok []
  /\ Static._convert_variables Static.unparse_text Static.assign_tuple_target
     = Ok [Entity.mkVariable "a" None "1"; Entity.mkVariable "b" None "2"].
Proof. split; reflexivity. Qed.

Section ResolveFacts.
Import Entity Ast Static.
Local Open Scope list_scope.

Lemma resolve_import_from_unfold parent name children entities :
  _resolve_import_from parent (mkRawPackage name children entities)
  = (children' <- resolve_children (Some (full_name parent name)) children ;;
     st <- resolve_entities parent entities
             (mkResolving (extracted entities) []) ;;
     match dict_get children' "__init__" with
     | Some init => Ok (mkPackage name children' (Entity.entities init))
     | None =>
         Ok (mkPackage name children'
               (by_name
                  match wildcard_aliases st with
                  | [] => new_entities st
                  | _ => new_entities st
                           ++ [WildcardAlias (wildcard_aliases st)]
                  end []))
     end).
Proof. reflexivity. Qed.

Lemma resolve_children_keys parent l l' :
  resolve_children parent l = Ok l' -> map fst l' = map fst l.
Proof.
  revert l'. induction l as [|[k sub] l IH]; intros l' E; simpl in E.
  - now inversion E.
  - destruct (_resolve_import_from parent sub) as [sub'|]; simpl in E;
      [|discriminate].
    destruct (resolve_children parent l) as [rest'|]; simpl in E;
      [|discriminate].
    inversion E; subst. simpl. f_equal. now apply IH.
Qed.

Lemma resolve_children_get parent l l' k sub :
  resolve_children parent l = Ok l' ->
  dict_get l k = Some sub ->
  exists sub', _resolve_import_from parent sub = Ok sub'
               /\ dict_get l' k = Some sub'.
Proof.
  revert l'. induction l as [|[k0 sub0] l IH]; intros l' E G; simpl in E, G.
  - discriminate.
  - destruct (_resolve_import_from parent sub0) as [sub0'|] eqn:R;
      simpl in E; [|discriminate].
    destruct (resolve_children parent l) as [rest'|]; simpl in E;
      [|discriminate].
    inversion E; subst. simpl.
    destruct (String.eqb k0 k).
    + inversion G; subst. eauto.
    + now apply IH.
Qed.

(** C2 (as the code has it). When the children of a package contain the
    [__init__] child, alias resolution leaves the package with exactly
    the resolved entities of that child, and the child stays in the
    children map, whose keys the resolution does not change. *)
Theorem resolve_import_from_init (parent : option string)
        (package init : RawPackage) (package' : Package) :
  _resolve_import_from parent package = Ok package' ->
  dict_get (raw_children package) "__init__" = Some init ->
  exists init',
    _resolve_import_from (Some (full_name parent (raw_name package))) init
    = Ok init'
    /\ entities package' = entities init'
    /\ dict_get (children package') "__init__" = Some init'
    /\ map fst (children package') = map fst (raw_children package).
Proof.
  destruct package as [name chs ents]. rewrite resolve_import_from_unfold.
  simpl. intros E G.
  destruct (resolve_children _ chs) as [chs'|] eqn:C; simpl in E;
    [|discriminate].
  destruct (resolve_entities parent ents _) as [st|]; simpl in E;
    [|discriminate].
  destruct (resolve_children_get _ _ _ _ _ C G) as (init' & R & G').
  rewrite G' in E. inversion E; subst. simpl.
  exists init'. repeat split; auto.
  now apply resolve_children_keys in C.
Qed.

Lemma resolve_import_from_init_witness :
  exists package' init',
    _resolve_import_from None simple = Ok package'
    /\ _resolve_import_from (Some "simple"%string) simple_init = Ok init'
    /\ entities package' = entities init'
    /\ dict_get (children package') "__init__" = Some init'
    /\ map fst (children package') = ["__init__"%string; "lib"%string].
Proof.
  destruct (_resolve_import_from None simple) as [package'|] eqn:E;
    [|discriminate].
  destruct (resolve_import_from_init None simple simple_init package' E
              eq_refl) as (init' & H).
  exists package', init'. split; [reflexivity|exact H].
Defined.

(** After resolution the [__init__] child of [simple] is still one of
    its children, where the specification has it removed. *)
Lemma resolve_import_from_keeps_init :
  exists package',
    _resolve_import_from None simple = Ok package'
    /\ dict_has (children package') "__init__" = true
    /\ map fst (entities package') = ["VERSION"%string; "func"%string].
Proof. eexists. repeat split. Qed.

End ResolveFacts.

(** ** Splitting and replacing *)

Section StringFacts.
Local Open Scope list_scope.

Lemma append_empty_r (s : string) : (s ++ "")%string = s.
Proof. induction s as [|x s IH]; simpl; [reflexivity|now rewrite IH]. Qed.

Lemma split_on_nonempty c s : split_on c s <> [].
Proof.
  destruct s as [|x s]; simpl; [discriminate|].
  destruct (Ascii.eqb x c); [discriminate|].
  destruct (split_on c s); discriminate.
Qed.

Lemma split_on_no_sep c s :
  Forall (fun seg => contains_char c seg = false) (split_on c s).
Proof.
  induction s as [|x s IH]; simpl.
  - repeat constructor.
  - destruct (Ascii.eqb x c) eqn:E.
    + constructor; [reflexivity|exact IH].
    + destruct (split_on c s) as [|seg segs].
      * repeat constructor. simpl. now rewrite E.
      * inversion IH; subst. constructor; [|assumption].
        simpl. now rewrite E.
Qed.

Lemma last_In {A} (l : list A) (d : A) : l <> [] -> In (last l d) l.
Proof.
  induction l as [|x l IH]; intros N; [contradiction|].
  destruct l as [|y l]; [now left|].
  right. apply IH. discriminate.
Qed.

Lemma last_cons {A} (x : A) (l : list A) (d : A) :
  l <> [] -> last (x :: l) d = last l d.
Proof. destruct l; [contradiction|reflexivity]. Qed.

Lemma last_map_nonempty {A B} (f : A -> B) (l : list A) (d : A) (d' : B) :
  l <> [] -> last (map f l) d' = f (last l d).
Proof.
  induction l as [|x l IH]; intros N; [contradiction|].
  destruct l as [|y l]; [reflexivity|].
  change (last (map f (y :: l)) d' = f (last (y :: l) d)).
  apply IH. discriminate.
Qed.

Lemma last_segment_no_dot s :
  contains_char "." (Store.last_segment s) = false.
Proof.
  unfold Store.last_segment.
  pose proof (split_on_no_sep "." s) as F. rewrite Forall_forall in F.
  apply F, last_In, split_on_nonempty.
Qed.

(** A text without separator in front of [s] lengthens the first segment
    of [s]. *)
Lemma split_on_app_no_sep c k s :
  contains_char c k = false ->
  split_on c (k ++ s)
  = match split_on c s with
    | seg :: segs => (k ++ seg)%string :: segs
    | [] => [k]
    end.
Proof.
  induction k as [|x k IH]; simpl; intros H.
  - now destruct (split_on c s) eqn:E; [apply split_on_nonempty in E|].
  - apply orb_false_iff in H as [Hx Hk]. rewrite Hx, (IH Hk).
    destruct (split_on c s) as [|seg segs] eqn:E;
      [now apply split_on_nonempty in E|reflexivity].
Qed.

(** Replacing [*] by a name without dots works segment by segment. *)
Lemma split_on_replace k w :
  contains_char "." k = false ->
  split_on "." (replace_char "*" k w)
  = map (replace_char "*" k) (split_on "." w).
Proof.
  intros Hk. induction w as [|x w IH]; simpl; [reflexivity|].
  destruct (Ascii.eqb_spec x "*") as [->|Nstar]; simpl.
  - rewrite (split_on_app_no_sep _ _ _ Hk), IH.
    destruct (split_on "." w) as [|seg segs] eqn:E;
      [now apply split_on_nonempty in E|].
    simpl. reflexivity.
  - destruct (Ascii.eqb x ".") eqn:D; simpl.
    + now rewrite IH.
    + rewrite IH.
      destruct (split_on "." w) as [|seg segs] eqn:E;
        [now apply split_on_nonempty in E|].
      simpl. apply Ascii.eqb_neq in Nstar. now rewrite Nstar.
Qed.

(** A wildcard target whose last segment is [*], asked for a name [k],
    yields a target whose last segment is [k]. *)
Lemma last_segment_replace k w :
  contains_char "." k = false ->
  Store.last_segment w = "*"%string ->
  Store.last_segment (replace_char "*" k w) = k.
Proof.
  intros Hk Hw. unfold Store.last_segment in *.
  rewrite (split_on_replace _ _ Hk).
  rewrite (last_map_nonempty _ _ ""%string) by apply split_on_nonempty.
  rewrite Hw. simpl. apply append_empty_r.
Qed.

End StringFacts.

Section StoreFacts.
Import Entity Store.
Local Open Scope list_scope.

Lemma extends_refl h : extends h h.
Proof. exists []. now rewrite app_nil_r. Qed.

Lemma extends_trans h1 h2 h3 :
  extends h1 h2 -> extends h2 h3 -> extends h1 h3.
Proof.
  intros (f1 & -> & F1) (f2 & -> & F2). exists (f1 ++ f2).
  split; [now rewrite app_assoc | now apply Forall_app].
Qed.

Lemma extends_load h h' a o :
  extends h h' -> load h a = Some o -> load h' a = Some o.
Proof.
  intros (fresh & -> & _) L. unfold load in *.
  rewrite nth_error_app1; [exact L|].
  apply nth_error_Some. congruence.
Qed.

Lemma load_fresh h o : load (h ++ [o]) (length h) = Some o.
Proof.
  unfold load. rewrite nth_error_app2 by lia.
  now rewrite Nat.sub_diag.
Qed.

Lemma store_fresh h o o' : store (h ++ [o]) (length h) o' = h ++ [o'].
Proof. induction h as [|x h IH]; simpl; [reflexivity|now rewrite IH]. Qed.

(** The wildcard branch allocates one object and writes to that object
    only. *)
Lemma expand_wildcard_spec h star k :
  expand_wildcard h star k = (h, Raise AttributeError)
  \/ exists name full_aliases,
      load h star = Some (OWildcardAlias name full_aliases)
      /\ expand_wildcard h star k
         = (h ++ [OWildcardAlias (replace_char "*" k name)
                                 (map (replace_char "*" k) full_aliases)],
            Ok (length h)).
Proof.
  unfold expand_wildcard.
  destruct (load h star) as [[| |name fas| | |]|] eqn:L; auto.
  right. exists name, fas. split; [reflexivity|].
  unfold alloc, set_name, name_of. rewrite load_fresh, store_fresh.
  unfold set_full_aliases. rewrite load_fresh, store_fresh. reflexivity.
Qed.

Lemma expand_wildcard_extends h star k :
  extends h (fst (expand_wildcard h star k)).
Proof.
  destruct (expand_wildcard_spec h star k) as [E|(n & l & _ & E)];
    rewrite E; simpl.
  - apply extends_refl.
  - eexists. split; [reflexivity|]. repeat constructor.
Qed.

Lemma walk_keys_extends h key res keys :
  extends h (fst (walk_keys h key res keys)).
Proof.
  revert res. induction keys as [|k rest IH]; intros res; simpl.
  - apply extends_refl.
  - destruct (load h res) as [[n p ch en| | | | |]|];
      try apply extends_refl.
    destruct (dict_get ch k); [apply IH|].
    destruct (dict_get en k); [apply IH|].
    destruct (dict_get en "*"); [|apply extends_refl].
    destruct rest; [apply expand_wildcard_extends|apply extends_refl].
Qed.

Lemma getitem_extends h self key : extends h (fst (__getitem__ h self key)).
Proof.
  unfold __getitem__.
  destruct (load h self) as [[n p ch en| | | | |]|];
    try apply extends_refl.
  destruct (negb _); [apply extends_refl|apply walk_keys_extends].
Qed.

Lemma try_aliases_extends
      (rec : heap -> addr -> string -> list string -> outcome)
      self key top_levels prev :
  (forall h p alias prev', extends h (fst (rec h p alias prev'))) ->
  forall aliases h,
    extends h (fst (try_aliases rec self key top_levels prev h aliases)).
Proof.
  intros R. induction aliases as [|alias rest IH]; intros h; simpl.
  - apply extends_refl.
  - destruct (mem alias prev); [apply extends_refl|].
    match goal with |- context [match ?t with Some _ => _ | None => _ end] =>
      destruct t as [p|] end; [|apply IH].
    specialize (R h p alias (prev ++ [alias])).
    destruct (rec h p alias (prev ++ [alias])) as [h' [[r|[| | | |e]]|]];
      simpl in *; auto.
    eapply extends_trans; [exact R|apply IH].
Qed.

Lemma get_extends depth :
  forall h self key top_levels prev,
    extends h (fst (get depth h self key top_levels prev)).
Proof.
  induction depth as [|depth IH]; intros h self key top_levels prev; simpl.
  - apply extends_refl.
  - pose proof (getitem_extends h self key) as G.
    destruct (__getitem__ h self key) as [h1 [res|e]]; simpl in *; auto.
    destruct (aliases_of (load h1 res)); simpl; auto.
    eapply extends_trans; [exact G|].
    apply try_aliases_extends. intros. apply IH.
Qed.

(** C9. A lookup leaves every stored object as it was, whether it
    succeeds, fails or is cut short: [__getitem__] and [get] only add
    fresh [WildcardAlias] objects behind the objects of the store.  When
    [P] holds only a [WildcardAlias] with the target [Q.*], looking up
    [P.foo] returns a fresh object, which is not the stored one and which
    carries the name [foo] and the target [Q.foo], and the stored
    [WildcardAlias] keeps its name and its target. *)
Theorem lookup_preserves_store (depth : nat) (h : heap) (self : addr)
        (key : string) (top_levels : dict addr) (prev : list string) :
  (forall a o,
      load h a = Some o ->
      load (fst (__getitem__ h self key)) a = Some o
      /\ load (fst (get depth h self key top_levels prev)) a = Some o)
  /\ (forall parent star,
        load h self = Some (OPackage "P" parent [] [("*"%string, star)]) ->
        load h star = Some (OWildcardAlias "*" ["Q.*"%string]) ->
        exists h' res,
          __getitem__ h self "P.foo" = (h', Ok res)
          /\ res <> star
          /\ load h res = None
          /\ load h' res = Some (OWildcardAlias "foo" ["Q.foo"%string])
          /\ load h' star = Some (OWildcardAlias "*" ["Q.*"%string])).
Proof.
  split.
  - intros a o L. split.
    + eapply extends_load; [apply getitem_extends|exact L].
    + eapply extends_load; [apply get_extends|exact L].
  - intros parent star LP LS.
    exists (h ++ [OWildcardAlias "foo" ["Q.foo"%string]]), (length h).
    assert (star < length h) by (apply nth_error_Some; unfold load in LS; congruence).
    repeat split.
    + unfold __getitem__. rewrite LP. simpl. rewrite LP. simpl.
      destruct (expand_wildcard_spec h star "foo") as [E|(n & l & L & E)].
      * unfold expand_wildcard, alloc in E. rewrite LS in E.
        discriminate E.
      * rewrite LS in L. inversion L; subst. exact E.
    + lia.
    + apply nth_error_None. lia.
    + apply load_fresh.
    + eapply extends_load; [|exact LS]. eexists. split; [reflexivity|].
      repeat constructor.
Qed.

Lemma lookup_preserves_store_witness :
  (load (fst (__getitem__ wildcard_P_Q 0 "P.foo")) 1
   = Some (OWildcardAlias "*" ["Q.*"%string])
   /\ load (fst (get 3 wildcard_P_Q 0 "P.foo" [("Q"%string, 2)] [])) 1
      = Some (OWildcardAlias "*" ["Q.*"%string]))
  /\ exists h' res,
      __getitem__ wildcard_P_Q 0 "P.foo" = (h', Ok res)
      /\ res <> 1
      /\ load wildcard_P_Q res = None
      /\ load h' res = Some (OWildcardAlias "foo" ["Q.foo"%string])
      /\ load h' 1 = Some (OWildcardAlias "*" ["Q.*"%string]).
Proof.
  destruct (lookup_preserves_store 3 wildcard_P_Q 0 "P.foo"
              [("Q"%string, 2)] []) as [F W].
  split.
  - apply F. reflexivity.
  - apply (W None 1); reflexivity.
Defined.

End StoreFacts.

(** ** Termination of [Package.get] *)

Section Termination.
Import Entity Store.
Local Open Scope list_scope.

(** The store in which the resolution starts and the key it starts at. *)
Variable h0 : heap.
Variable key0 : string.
Variable top_levels : dict addr.
Hypothesis h0_closed : closed h0 = true.
Hypothesis h0_wildcards : wf_wildcards h0 = true.

Local Abbreviation universe := (reachable_aliases h0 key0).
Local Abbreviation names := (asked_names h0 key0).

Lemma names_no_dot k : In k names -> contains_char "." k = false.
Proof.
  unfold names, asked_names. intros [<-|H].
  - apply last_segment_no_dot.
  - apply in_map_iff in H as (a & <- & _). apply last_segment_no_dot.
Qed.

(** The last segment of a reachable alias is a name that was asked. *)
Lemma universe_closed alias :
  In alias universe -> In (last_segment alias) names.
Proof.
  unfold universe, reachable_aliases. rewrite in_app_iff.
  intros [H|H].
  - right. now apply in_map.
  - apply in_flat_map in H as (k & Hk & H).
    apply in_map_iff in H as (w & <- & Hw).
    rewrite last_segment_replace; [exact Hk|now apply names_no_dot|].
    pose proof h0_wildcards as W. unfold wf_wildcards in W.
    rewrite forallb_forall in W.
    now apply String.eqb_eq, W.
Qed.

Lemma extends_load_old h a :
  extends h0 h -> a < length h0 -> load h a = load h0 a.
Proof.
  intros (fresh & -> & _) L. unfold load. now rewrite nth_error_app1.
Qed.

Lemma extends_package_old h a n p ch en :
  extends h0 h -> load h a = Some (OPackage n p ch en) -> a < length h0.
Proof.
  intros (fresh & -> & F) L. unfold load in L.
  destruct (Nat.lt_ge_cases a (length h0)) as [|G]; [assumption|].
  rewrite nth_error_app2 in L by exact G.
  apply nth_error_In in L. rewrite Forall_forall in F.
  now apply F in L.
Qed.

Lemma closed_children a n p ch en k c :
  load h0 a = Some (OPackage n p ch en) ->
  dict_get ch k = Some c \/ dict_get en k = Some c -> c < length h0.
Proof.
  intros L G. pose proof h0_closed as Cl. unfold closed in Cl.
  rewrite forallb_forall in Cl.
  apply nth_error_In in L. apply Cl in L. simpl in L.
  apply andb_true_iff in L as [L Len]. apply andb_true_iff in L as [_ Lch].
  assert (D : forall d : dict addr,
             forallb (fun kv => (snd kv <? length h0)%nat) d = true ->
             dict_get d k = Some c -> c < length h0).
  { clear. induction d as [|[k' v] d IH]; simpl; [discriminate|].
    intros H G. apply andb_true_iff in H as [Hv Hd].
    destruct (String.eqb k' k).
    - inversion G; subst. now apply Nat.ltb_lt.
    - now apply IH. }
  destruct G; eauto.
Qed.

(** What [__getitem__] returns is a stored object or the fresh copy of a
    stored [WildcardAlias], asked for the last key. *)
Lemma walk_keys_result h key keys :
  extends h0 h ->
  forall res h' res',
    res < length h0 ->
    walk_keys h key res keys = (h', Ok res') ->
    (h' = h /\ res' < length h0)
    \/ (keys <> []
        /\ exists name full_aliases,
            In (OWildcardAlias name full_aliases) h0
            /\ load h' res'
               = Some (OWildcardAlias
                         (replace_char "*" (last keys ""%string) name)
                         (map (replace_char "*" (last keys ""%string))
                              full_aliases))).
Proof.
  intros X. induction keys as [|k rest IH]; intros res h' res' R W;
    simpl in W.
  - inversion W; subst. now left.
  - rewrite (extends_load_old _ _ X R) in W.
    destruct (load h0 res) as [[n p ch en| | | | |]|] eqn:L;
      try discriminate.
    assert (Step : forall c, c < length h0 ->
              walk_keys h key c rest = (h', Ok res') ->
              (h' = h /\ res' < length h0)
              \/ (k :: rest <> []
                  /\ exists name full_aliases,
                      In (OWildcardAlias name full_aliases) h0
                      /\ load h' res'
                         = Some (OWildcardAlias
                                   (replace_char "*"
                                      (last (k :: rest) ""%string) name)
                                   (map (replace_char "*"
                                           (last (k :: rest) ""%string))
                                        full_aliases)))).
    { intros c Hc Wc.
      destruct (IH _ _ _ Hc Wc) as [?|(N & name & fas & I & E)];
        [now left|].
      right. split; [discriminate|]. exists name, fas.
      rewrite (last_cons _ _ _ N). auto. }
    destruct (dict_get ch k) as [c|] eqn:C.
    { apply (Step c); [|exact W]. eapply closed_children; eauto. }
    destruct (dict_get en k) as [e|] eqn:E.
    { apply (Step e); [|exact W]. eapply closed_children; eauto. }
    destruct (dict_get en "*") as [star|] eqn:S; [|discriminate].
    destruct rest; [|discriminate].
    assert (star < length h0) by (eapply closed_children; eauto).
    destruct (expand_wildcard_spec h star k) as [Z|(name & fas & LS & Z)];
      rewrite Z in W; [discriminate|].
    inversion W; subst. right. split; [discriminate|].
    exists name, fas. split; [|apply load_fresh].
    rewrite (extends_load_old _ _ X) in LS by assumption.
    now apply nth_error_In in LS.
Qed.

Lemma stored_aliases_In o l :
  In o h0 -> aliases_of (Some o) = Some l -> incl l (stored_aliases h0).
Proof.
  intros I A x Hx. unfold stored_aliases. apply in_flat_map.
  exists o. split; [exact I|]. now rewrite A.
Qed.

Lemma getitem_aliases h self key h' res aliases :
  extends h0 h ->
  __getitem__ h self key = (h', Ok res) ->
  aliases_of (load h' res) = Some aliases ->
  incl aliases
       (stored_aliases h0
          ++ map (replace_char "*" (last_segment key))
                 (wildcard_targets h0)).
Proof.
  intros X G A. unfold __getitem__ in G.
  destruct (load h self) as [[n p ch en| | | | |]|] eqn:L;
    try discriminate.
  pose proof (extends_package_old _ _ _ _ _ _ X L) as Hself.
  destruct (negb _); [discriminate|].
  destruct (walk_keys_result _ _ _ X _ _ _ Hself G)
    as [[-> R]|(N & name & fas & I & E)].
  - rewrite (extends_load_old _ _ X R) in A.
    destruct (load h0 res) as [o|] eqn:Lo; [|discriminate].
    apply incl_appl. eapply stored_aliases_In; [|exact A].
    now apply nth_error_In in Lo.
  - rewrite E in A. simpl in A. inversion A; subst.
    apply incl_appr.
    assert (K : last (tl (split_on "." key)) ""%string = last_segment key).
    { unfold last_segment.
      destruct (split_on "." key) as [|x l]; [reflexivity|].
      simpl tl in *. symmetry. now apply last_cons. }
    rewrite K. intros x Hx. apply in_map_iff in Hx as (w & <- & Hw).
    apply in_map. unfold wildcard_targets. apply in_flat_map.
    exists (OWildcardAlias name fas). auto.
Qed.

Lemma getitem_aliases_universe h self key h' res aliases :
  extends h0 h ->
  In (last_segment key) names ->
  __getitem__ h self key = (h', Ok res) ->
  aliases_of (load h' res) = Some aliases ->
  incl aliases universe.
Proof.
  intros X K G A x Hx.
  apply (getitem_aliases _ _ _ _ _ _ X G A) in Hx.
  unfold universe, reachable_aliases.
  apply in_app_iff in Hx as [Hx|Hx]; apply in_app_iff; [now left|right].
  apply in_flat_map. exists (last_segment key). auto.
Qed.

Lemma mem_app_single x y l : mem x (l ++ [y]) = mem x l || String.eqb x y.
Proof.
  unfold mem. rewrite existsb_app. simpl. now rewrite orb_false_r.
Qed.

(** Following an alias that was not followed before leaves fewer aliases
    to follow. *)
Lemma remaining_decreases u prev alias :
  In alias u -> mem alias prev = false ->
  remaining u (prev ++ [alias]) < remaining u prev.
Proof.
  unfold remaining. intros I M.
  induction u as [|x u IH]; [destruct I|]. simpl.
  rewrite mem_app_single.
  assert (Le : length (filter (fun v => negb (mem v (prev ++ [alias]))) u)
               <= length (filter (fun v => negb (mem v prev)) u)).
  { clear. induction u as [|y u IH]; simpl; [lia|].
    rewrite mem_app_single.
    destruct (mem y prev); simpl; [exact IH|].
    destruct (String.eqb y alias); simpl; lia. }
  destruct I as [->|I].
  - rewrite M, String.eqb_refl. simpl. lia.
  - specialize (IH I).
    destruct (mem x prev); simpl; [exact IH|].
    destruct (String.eqb x alias); simpl; lia.
Qed.

(** The loop over the aliases, given that every recursive call on an
    alias not followed before settles within [m] levels. *)
Lemma try_aliases_settles m self key prev :
  (forall h p alias,
      extends h0 h -> In alias universe -> mem alias prev = false ->
      exists h' r,
        extends h0 h'
        /\ forall depth, m <= depth ->
             get depth h p alias top_levels (prev ++ [alias])
             = (h', Some r)) ->
  forall aliases, incl aliases universe ->
  forall h, extends h0 h ->
  exists h' r,
    extends h0 h'
    /\ forall depth, m <= depth ->
         try_aliases
           (fun h p alias prev => get depth h p alias top_levels prev)
           self key top_levels prev h aliases
         = (h', Some r).
Proof.
  intros Rec. induction aliases as [|alias rest IH]; intros Incl h X.
  - exists h. eexists. split; [exact X|]. intros depth _. reflexivity.
  - assert (Irest : incl rest universe)
      by (intros x Hx; apply Incl; now right).
    simpl. destruct (mem alias prev) eqn:M.
    { exists h. eexists. split; [exact X|]. intros depth _. reflexivity. }
    match goal with |- context [match ?t with Some _ => _ | None => _ end] =>
      destruct t as [p|] end; [|now apply IH].
    destruct (Rec h p alias X (Incl _ (or_introl eq_refl)) M)
      as (h1 & r1 & X1 & G1).
    destruct r1 as [res|e].
    + exists h1, (Ok res). split; [exact X1|].
      intros depth D. now rewrite (G1 depth D).
    + destruct e as [| | | |e].
      1-4: (eexists h1, _; split; [exact X1|];
            intros depth D; now rewrite (G1 depth D)).
      destruct (IH Irest h1 X1) as (h2 & r2 & X2 & G2).
      exists h2, r2. split; [exact X2|].
      intros depth D. rewrite (G1 depth D). now apply G2.
Qed.

(** A resolution with [m] aliases left to follow settles within [m + 1]
    levels of recursion. *)
Lemma get_settles m :
  forall h self key prev,
    extends h0 h -> In (last_segment key) names ->
    remaining universe prev = m ->
    exists h' r,
      extends h0 h'
      /\ forall depth, m < depth ->
           get depth h self key top_levels prev = (h', Some r).
Proof.
  induction m as [m IH] using lt_wf_ind.
  intros h self key prev X K M.
  destruct (__getitem__ h self key) as [h1 [res|e]] eqn:G.
  - assert (X1 : extends h0 h1).
    { eapply extends_trans; [exact X|].
      pose proof (getitem_extends h self key) as E. now rewrite G in E. }
    destruct (aliases_of (load h1 res)) as [aliases|] eqn:A.
    + assert (Rec : forall h2 p alias,
                 extends h0 h2 -> In alias universe ->
                 mem alias prev = false ->
                 exists h' r,
                   extends h0 h'
                   /\ forall depth, m <= depth ->
                        get depth h2 p alias top_levels (prev ++ [alias])
                        = (h', Some r)).
      { intros h2 p alias X2 I Mem.
        pose proof (remaining_decreases universe prev alias I Mem) as D.
        rewrite M in D.
        destruct (IH _ D h2 p alias (prev ++ [alias]) X2
                     (universe_closed _ I) eq_refl)
          as (h' & r & X' & G').
        exists h', r. split; [exact X'|].
        intros depth Hd. apply G'. lia. }
      assert (Incl : incl aliases universe)
        by exact (getitem_aliases_universe h self key h1 res aliases
                    X K G A).
      destruct (try_aliases_settles m self key prev Rec aliases Incl h1 X1)
        as (h' & r & X' & T).
      exists h', r. split; [exact X'|].
      intros [|depth] Hd; [lia|]. simpl. rewrite G, A.
      apply T. lia.
    + exists h1, (Ok res). split; [exact X1|].
      intros [|depth] Hd; [lia|]. simpl. now rewrite G, A.
  - exists h1, (Raise e). split.
    + eapply extends_trans; [exact X|].
      pose proof (getitem_extends h self key) as E. now rewrite G in E.
    + intros [|depth] Hd; [lia|]. simpl. now rewrite G.
Qed.

End Termination.

Section Resolution.
Import Entity Store.
Local Open Scope list_scope.

Lemma split_on_no_sep_id c s :
  contains_char c s = false -> split_on c s = [s].
Proof.
  induction s as [|x s IH]; simpl; intros H; [reflexivity|].
  apply orb_false_iff in H as [Hx Hs]. now rewrite Hx, (IH Hs).
Qed.

(** Resolving either name of the cyclic pair raises the [KeyError] of
    the outermost call, "cannot be resolved in this package": the
    "cyclic reference" error of the innermost call is caught by the
    [except KeyError] of its caller. *)
Lemma get_cyclic_pair depth :
  3 <= depth ->
  get depth cyclic_pair 0 "P.A" [] []
  = (cyclic_pair, Some (Raise (KeyError (CannotBeResolved "P.A"))))
  /\ get depth cyclic_pair 0 "P.B" [] []
     = (cyclic_pair, Some (Raise (KeyError (CannotBeResolved "P.B")))).
Proof.
  intros H. destruct depth as [|[|[|depth]]]; try lia.
  split; reflexivity.
Qed.

(** With the wildcard target [P.x*] every name that is asked for leads
    to a longer one. *)
Lemma get_growing_diverges depth :
  forall h s prev,
    extends wildcard_growing h ->
    contains_char "." s = false ->
    s <> "*"%string ->
    (forall p, In p prev -> String.length p < String.length s + 3) ->
    snd (get depth h 0 ("P." ++ s) [] prev) = None.
Proof.
  induction depth as [|depth IH]; intros h s prev X Hdot Hstar Hprev;
    [reflexivity|].
  assert (L0 : load h 0 = Some (OPackage "P" None [] [("*"%string, 1)]))
    by (eapply extends_load; [exact X|reflexivity]).
  assert (L1 : load h 1 = Some (OWildcardAlias "*" ["P.x*"%string]))
    by (eapply extends_load; [exact X|reflexivity]).
  assert (Neq : String.eqb "*" s = false)
    by (apply String.eqb_neq; congruence).
  assert (G : __getitem__ h 0 ("P." ++ s)
              = (h ++ [OWildcardAlias s ["P.x" ++ s]%string], Ok (length h))).
  { unfold __getitem__. rewrite L0. simpl.
    rewrite (split_on_no_sep_id _ _ Hdot). cbn [walk_keys]. rewrite L0.
    cbn [dict_get]. rewrite Neq.
    change (String.eqb "*" "*") with true. cbv iota.
    destruct (expand_wildcard_spec h 1 s) as [E|(n & l & L & E)].
    - unfold expand_wildcard, alloc in E. rewrite L1 in E. discriminate E.
    - rewrite L1 in L. inversion L; subst. rewrite E. simpl.
      now rewrite !append_empty_r. }
  cbn [get]. rewrite G. rewrite load_fresh. cbn [aliases_of try_aliases].
  assert (M : mem ("P.x" ++ s) prev = false).
  { destruct (mem ("P.x" ++ s) prev) eqn:M; [|reflexivity].
    apply mem_In, Hprev in M. simpl in M. lia. }
  rewrite M.
  assert (X' : extends wildcard_growing
                 (h ++ [OWildcardAlias s ["P.x" ++ s]%string])).
  { eapply extends_trans; [exact X|].
    eexists. split; [reflexivity|]. repeat constructor. }
  assert (N : name_of (h ++ [OWildcardAlias s ["P.x" ++ s]%string]) 0
              = "P"%string).
  { unfold name_of.
    now rewrite (extends_load _ _ _ _ X' (eq_refl : load wildcard_growing 0 = _)). }
  assert (T : hd ""%string (split_on "." ("P.x" ++ s)) = "P"%string).
  { simpl. now destruct (split_on "." s). }
  rewrite T, N. cbn [String.eqb Ascii.eqb Bool.eqb].
  specialize (IH (h ++ [OWildcardAlias s ["P.x" ++ s]%string])
                 (String "x" s) (prev ++ ["P.x" ++ s]%string) X').
  change ("P." ++ String "x" s)%string with ("P.x" ++ s)%string in IH.
  destruct (get depth _ 0 ("P.x" ++ s) [] (prev ++ ["P.x" ++ s]%string))
    as [h' [r|]] eqn:R.
  - exfalso. simpl in IH. enough (Some r = None) by discriminate.
    apply IH.
    + simpl. exact Hdot.
    + discriminate.
    + intros p Hp. apply in_app_iff in Hp as [Hp|[<-|[]]].
      * apply Hprev in Hp. simpl. lia.
      * simpl. lia.
  - reflexivity.
Qed.

(** C3 (as the code has it). [Package.get] terminates on every store
    whose packages hold addresses of the store only and whose wildcard
    targets end in the segment [*], as [_resolve_import_from] builds
    them: the recursion is never deeper than the number of aliases not
    followed yet, plus one.  For the cyclic pair [A -> P.B], [B -> P.A],
    resolving either name fails with a [KeyError] and leaves the store as
    it was. *)
Theorem get_terminates (h : heap) (self : addr) (key : string)
        (top_levels : dict addr) (prev : list string) :
  (closed h = true -> wf_wildcards h = true ->
   exists h' r,
     forall depth,
       remaining (reachable_aliases h key) prev < depth ->
       get depth h self key top_levels prev = (h', Some r))
  /\ (forall depth, 3 <= depth ->
        exists e e',
          get depth cyclic_pair 0 "P.A" [] []
          = (cyclic_pair, Some (Raise (KeyError e)))
          /\ get depth cyclic_pair 0 "P.B" [] []
             = (cyclic_pair, Some (Raise (KeyError e')))).
Proof.
  split.
  - intros C W.
    destruct (get_settles h key top_levels C W _ h self key prev
                (extends_refl h) (or_introl eq_refl) eq_refl)
      as (h' & r & _ & G).
    exists h', r. exact G.
  - intros depth D. destruct (get_cyclic_pair depth D) as [A B].
    eauto.
Qed.

Lemma get_terminates_witness :
  exists h' r,
    forall depth,
      3 < depth ->
      get depth wildcard_P_Q 0 "P.foo" [("Q"%string, 2)] [] = (h', Some r).
Proof.
  destruct (get_terminates wildcard_P_Q 0 "P.foo" [("Q"%string, 2)] [])
    as [T _].
  apply (T eq_refl eq_refl).
Defined.

(** For the cyclic pair the error that reaches the caller is not the
    cyclic-reference error, and on a store with the wildcard target
    [P.x*] the resolution of [P.a] does not return, however deep the
    recursion is allowed to go. *)
Lemma get_cyclic_pair_unresolved_and_growing_wildcard :
  get 3 cyclic_pair 0 "P.A" [] []
  = (cyclic_pair, Some (Raise (KeyError (CannotBeResolved "P.A"))))
  /\ closed wildcard_growing = true
  /\ forall depth, snd (get depth wildcard_growing 0 "P.a" [] []) = None.
Proof.
  split; [reflexivity|]. split; [reflexivity|].
  intros depth.
  apply (get_growing_diverges depth wildcard_growing "a" []).
  - apply extends_refl.
  - reflexivity.
  - discriminate.
  - intros p [].
Qed.

End Resolution.


(** * Further properties of the diff engine *)

Section DiffMoreFacts.
Import Entity Diff DiffEntities.
Local Open Scope list_scope.

Local Abbreviation tables_good t :=
  ((forall p, mem p (opt t) = true -> exists v, dict_get (p2def t) p = Some v)
   /\ (forall p, mem p (p_all t) = true ->
                 exists i, dict_get (p2pos t) p = Some i)).

Lemma same_default_value_refl v : same_default_value v v = true.
Proof.
  unfold same_default_value.
  rewrite !String.eqb_refl, andb_diag.
  destruct (String.prefix "<" v); [reflexivity|].
  now rewrite andb_diag, andb_true_r; destruct (contains_char "(" v).
Qed.

(** X1. [same_default_value] is reflexive and symmetric, and it takes any
    two texts that start with [<] for the same default. *)
Theorem same_default_value_equivalence_like (v1 v2 : string) :
  same_default_value v1 v1 = true
  /\ same_default_value v1 v2 = same_default_value v2 v1
  /\ same_default_value (String "<" v1) (String "<" v2) = true.
Proof.
  split; [apply same_default_value_refl|]. split.
  - unfold same_default_value.
    rewrite (andb_comm (String.prefix "<" v1)).
    rewrite (andb_comm (contains_char "(" v1)).
    rewrite (String.eqb_sym (before_char "(" v1)).
    now rewrite (String.eqb_sym v1).
  - unfold same_default_value. cbn. now destruct v1, v2.
Qed.

Lemma set_diff_self s : set_diff s s = [].
Proof.
  unfold set_diff.
  assert (G : forall l, incl l s -> filter (fun x => negb (mem x s)) l = []).
  { induction l as [|x l IH]; intros I; simpl; [reflexivity|].
    assert (M : mem x s = true) by (apply mem_In, I; now left).
    rewrite M. simpl. apply IH. intros y Hy. apply I. now right. }
  apply G, incl_refl.
Qed.

Lemma common_param_self o full_name p :
  tables_good o -> mem p (p_all o) = true ->
  common_param o o full_name p = Ok [].
Proof.
  intros [D P] A. destruct (P p A) as [i Hi].
  unfold common_param, dict_item. rewrite Hi.
  destruct (mem p (opt o)) eqn:O; simpl.
  - destruct (D p O) as [v Hv]. rewrite Hv. simpl.
    rewrite same_default_value_refl. simpl. now rewrite Nat.eqb_refl.
  - now rewrite Nat.eqb_refl.
Qed.

Lemma common_params_self o full_name ps :
  tables_good o -> (forall p, In p ps -> mem p (p_all o) = true) ->
  common_params o o full_name ps = Ok [].
Proof.
  intros G. induction ps as [|p ps IH]; intros I; simpl; [reflexivity|].
  rewrite (common_param_self o full_name p G (I p (or_introl eq_refl))).
  simpl. rewrite IH; [reflexivity|]. intros q Hq. apply I. now right.
Qed.

Lemma diff_function_same (f : Function) (full_name : string) :
  diff_function f f full_name = Ok [].
Proof.
  unfold diff_function.
  rewrite common_params_self.
  - simpl. unfold added_params, removed_params.
    now rewrite set_diff_self.
  - apply index_function_ok.
  - intros p Hp. unfold set_inter in Hp. now apply filter_In in Hp.
Qed.

(** X2. Diffing a function against itself reports nothing, whatever its
    parameters are (names may even repeat). *)
Theorem diff_function_self (f : Function) (full_name : string) :
  diff_function f f full_name = Ok [].
Proof. apply diff_function_same. Qed.

Lemma index_params_names l :
  forall t pos p,
    mem p (p_all (index_params t pos l)) = true
    <-> (mem p (p_all t) = true \/ In p (map arg_name l)).
Proof.
  induction l as [|a l IH]; intros t pos p; simpl.
  - tauto.
  - rewrite IH. simpl. rewrite mem_set_add, orb_true_iff, String.eqb_eq.
    intuition congruence.
Qed.

Lemma index_params_opt l :
  forall t pos p,
    mem p (opt (index_params t pos l)) = true
    <-> (mem p (opt t) = true
         \/ exists a, In a l /\ arg_name a = p /\ default a <> None).
Proof.
  induction l as [|a l IH]; intros t pos p; simpl.
  - split; [tauto|]. intros [H|(a & [] & _)]. exact H.
  - rewrite IH. simpl. destruct (default a) as [d|] eqn:Da.
    + rewrite mem_set_add, orb_true_iff, String.eqb_eq. split.
      * intros [[H|H]|(b & Hb & E & N)].
        -- now left.
        -- right. exists a. rewrite Da. repeat split; auto. discriminate.
        -- right. exists b. auto.
      * intros [H|(b & [Hb|Hb] & E & N)].
        -- now left; left.
        -- subst b. left; right. now symmetry.
        -- right. exists b. auto.
    + split.
      * intros [H|(b & Hb & E & N)]; [now left|].
        right. exists b. auto.
      * intros [H|(b & [Hb|Hb] & E & N)]; [now left| |].
        -- subst b. now rewrite Da in N.
        -- right. exists b. auto.
Qed.

(** The names in [p_all] are the parameter names, and those in [opt] the
    names of the parameters that carry a default. *)
Lemma index_function_names f p :
  (mem p (p_all (index_function f)) = true
   <-> In p (map arg_name (args f)))
  /\ (mem p (opt (index_function f)) = true
      <-> exists a, In a (args f) /\ arg_name a = p /\ default a <> None).
Proof.
  unfold index_function. rewrite index_params_names, index_params_opt.
  simpl. split; split; auto; intros [H|H]; auto; discriminate.
Qed.

Lemma common_param_breaking o n full_name p ds :
  common_param o n full_name p = Ok ds ->
  forall d, In d ds -> is_breaking d = true /\ param d = Some p.
Proof.
  unfold common_param, dict_item. intros E.
  destruct (mem p (opt o)), (mem p (opt n)); simpl in E;
    destruct (dict_get (p2def o) p); simpl in E; try discriminate;
    destruct (dict_get (p2def n) p); simpl in E; try discriminate;
    try destruct (negb (same_default_value _ _)); simpl in E;
    destruct (dict_get (p2pos o) p); simpl in E; try discriminate;
    destruct (dict_get (p2pos n) p); simpl in E; try discriminate;
    destruct (negb (Nat.eqb _ _)); simpl in E; inversion E; subst;
    intros d H; simpl in H;
    repeat (destruct H as [<-|H]; [split; reflexivity|]); destruct H.
Qed.

Lemma common_params_breaking o n full_name ps :
  forall ds, common_params o n full_name ps = Ok ds ->
  forall d, In d ds -> is_breaking d = true.
Proof.
  induction ps as [|p ps IH]; intros ds E d Hd; simpl in E.
  - inversion E; subst. destruct Hd.
  - destruct (common_param o n full_name p) as [d1|] eqn:C1; simpl in E;
      [|discriminate].
    destruct (common_params o n full_name ps) as [d2|]; simpl in E;
      [|discriminate].
    inversion E; subst. apply in_app_iff in Hd as [Hd|Hd].
    + now apply (common_param_breaking _ _ _ _ _ C1).
    + now apply (IH d2).
Qed.

(** X3. [diff_function] never fails: every lookup in its tables is for a
    name that was entered, and every diff that it reports is a breaking
    one. *)
Theorem diff_function_total_and_breaking (old new : Function)
        (full_name : string) :
  exists ds,
    diff_function old new full_name = Ok ds
    /\ forall d, In d ds -> is_breaking d = true.
Proof.
  destruct (diff_function_dropped_default old new full_name) as (ds & E & _).
  exists ds. split; [exact E|].
  unfold diff_function in E.
  destruct (common_params _ _ _ _) as [cs|] eqn:C; simpl in E;
    [|discriminate].
  inversion E; subst. intros d Hd.
  apply in_app_iff in Hd as [Hd|Hd].
  { unfold added_params in Hd. apply in_map_iff in Hd as (p & <- & _).
    now destruct (mem p _). }
  apply in_app_iff in Hd as [Hd|Hd].
  { unfold removed_params in Hd. apply in_map_iff in Hd as (p & <- & _).
    now destruct (mem p _). }
  now apply (common_params_breaking _ _ _ _ _ C).
Qed.

(** X4. A parameter name of the new function that the old function does
    not have is reported as an added parameter: as an optional one
    when a parameter of that name carries a default in the new function,
    as a required one when none does. *)
Theorem diff_function_added_parameter (old new : Function)
        (full_name p : string) :
  In p (map arg_name (args new)) ->
  ~ In p (map arg_name (args old)) ->
  exists ds,
    diff_function old new full_name = Ok ds
    /\ ((exists a, In a (args new) /\ arg_name a = p /\ default a <> None) ->
        In (new_Diff OptParamAdd full_name (Some p) None None) ds)
    /\ ((forall a, In a (args new) -> arg_name a = p -> default a = None) ->
        In (new_Diff ReqParamAdd full_name (Some p) None None) ds).
Proof.
  intros Hn Ho.
  destruct (diff_function_dropped_default old new full_name) as (ds & E & _).
  exists ds. split; [exact E|].
  unfold diff_function in E.
  destruct (common_params _ _ _ _) as [cs|]; simpl in E; [|discriminate].
  inversion E; subst.
  destruct (index_function_names new p) as [An On].
  destruct (index_function_names old p) as [Ao _].
  assert (I : In p (set_diff (p_all (index_function new))
                             (p_all (index_function old)))).
  { unfold set_diff. apply filter_In. split.
    - apply mem_In, An, Hn.
    - apply negb_true_iff, not_true_is_false. intros M. apply Ho, Ao, M. }
  split; intros H; apply in_app_iff; left; unfold added_params;
    apply in_map_iff; exists p; (split; [|exact I]).
  - apply On in H. now rewrite H.
  - assert (M : mem p (opt (index_function new)) = false).
    { apply not_true_is_false. intros M.
      apply On in M as (a & Ha & Ea & Na). now rewrite (H a Ha Ea) in Na. }
    now rewrite M.
Qed.

Lemma diff_function_added_parameter_witness :
  exists ds,
    diff_function f_a_b (mkFunction "f"
                           (args f_a_b
                              ++ [mkArgument "c" None (Some "1"%string)
                                             false false false false])
                           None [] false) "f" = Ok ds
    /\ In (new_Diff OptParamAdd "f" (Some "c"%string) None None) ds.
Proof.
  destruct (diff_function_added_parameter f_a_b
              (mkFunction "f"
                 (args f_a_b
                    ++ [mkArgument "c" None (Some "1"%string)
                                   false false false false])
                 None [] false) "f" "c") as (ds & E & Hopt & _).
  - simpl. auto.
  - simpl. intros [H|[H|[]]]; discriminate.
  - exists ds. split; [exact E|]. apply Hopt.
    eexists. split; [right; right; left; reflexivity|].
    split; [reflexivity|discriminate].
Defined.

Lemma dict_get_keys {V} (d : dict V) k :
  In k (keys d) -> exists v, dict_get d k = Some v.
Proof.
  unfold keys. induction d as [|[k' v'] d IH]; simpl; [intros []|].
  intros [E|H].
  - subst. rewrite String.eqb_refl. eauto.
  - destruct (String.eqb k' k); eauto.
Qed.

Lemma diff_methods_self d full_name names :
  incl names (keys d) -> diff_methods d d full_name names = Ok [].
Proof.
  induction names as [|n names IH]; intros I; simpl; [reflexivity|].
  destruct (dict_get_keys d n (I n (or_introl eq_refl))) as [f Hf].
  unfold dict_item. rewrite Hf. simpl.
  rewrite diff_function_same. simpl.
  rewrite IH; [reflexivity|]. intros x Hx. apply I. now right.
Qed.

Lemma diff_class_self c full_name : diff_class c c full_name = Ok [].
Proof.
  unfold diff_class. rewrite diff_methods_self.
  - simpl. now rewrite !set_diff_self.
  - intros x Hx. unfold set_inter in Hx. apply filter_In in Hx as [Hx _].
    exact Hx.
Qed.

(** X5. Diffing an entity (or a package) against itself reports nothing
    and raises nothing. *)
Theorem diff_entity_self (e : entity + Package) (full_name : string) :
  diff_entity (Some e) (Some e) full_name = inl [].
Proof.
  unfold diff_entity.
  destruct e as [[f|c|v|n a|n l]|p]; simpl; try reflexivity.
  - now rewrite diff_function_same.
  - now rewrite diff_class_self.
Qed.

End DiffMoreFacts.


(** * Further properties of the static extractor *)

Section ArgumentFacts.
Import Entity Ast Static StaticShapes.
Local Open Scope list_scope.

Variable unparse : expr -> string.

(** The loop over the positional parameters never runs out of defaults:
    the index into [defaults] is below their number. *)
Lemma convert_positional_ok (a : arguments) (l : list arg) :
  forall i,
    i + length l = length (positional a) ->
    convert_positional unparse a
      (Z.of_nat (length (posonlyargs a)) + Z.of_nat (length (Ast.args a))
       - Z.of_nat (length (defaults a)))%Z i l
    = Ok (map (fun p => positional_entry unparse a (fst p) (snd p))
              (combine (seq i (length l)) l)).
Proof.
  unfold positional. rewrite length_app.
  induction l as [|x l IH]; intros i H; simpl in *; [reflexivity|].
  rewrite IH by lia. unfold positional_entry at 2. unfold positional.
  rewrite length_app.
  set (n := length (posonlyargs a) + length (Ast.args a)) in *.
  set (d := length (defaults a)) in *.
  destruct (Z.geb_spec (Z.of_nat i)
              (Z.of_nat (length (posonlyargs a))
               + Z.of_nat (length (Ast.args a)) - Z.of_nat d)) as [G|G].
  - replace (i + d <? n)%nat with false
      by (symmetry; apply Nat.ltb_ge; unfold n; lia).
    replace (Z.to_nat (Z.of_nat i
                       - (Z.of_nat (length (posonlyargs a))
                          + Z.of_nat (length (Ast.args a)) - Z.of_nat d)))
      with (i + d - n) by (unfold n; lia).
    destruct (nth_error (defaults a) (i + d - n)) as [e|] eqn:N.
    + reflexivity.
    + apply nth_error_None in N. fold d in N. unfold n in *. lia.
  - replace (i + d <? n)%nat with true
      by (symmetry; apply Nat.ltb_lt; unfold n; lia).
    reflexivity.
Qed.

Lemma convert_kwonly_ok (a : arguments) (l : list arg) :
  forall i,
    (i + length l <= length (kw_defaults a) ->
     exists r, convert_kwonly unparse a i l = Ok r
               /\ length r = length l
               /\ Forall (fun x => flags_set x = 1 /\ kw_only x = true) r)
    /\ (l <> [] -> length (kw_defaults a) < i + length l ->
        convert_kwonly unparse a i l = Raise IndexError).
Proof.
  induction l as [|x l IH]; intros i; simpl.
  - split; [|congruence]. intros _. exists []. repeat split. constructor.
  - destruct (nth_error (kw_defaults a) i) as [d|] eqn:N.
    + assert (i < length (kw_defaults a))
        by (apply nth_error_Some; congruence).
      destruct (IH (S i)) as [Hok Hbad]. split.
      * intros H'. destruct Hok as (r & E & L & F); [lia|].
        rewrite E. simpl. eexists. split; [reflexivity|].
        split; [simpl; now rewrite L|].
        constructor; [split; reflexivity|exact F].
      * intros _ H'. rewrite Hbad; [reflexivity| |lia].
        destruct l; [simpl in H'; lia|discriminate].
    + apply nth_error_None in N. split; [lia|reflexivity].
Qed.

Lemma convert_arguments_unfold (a : arguments) :
  _convert_arguments unparse a
  = (kwo <- convert_kwonly unparse a 0 (kwonlyargs a) ;;
     Ok (map (fun p => positional_entry unparse a (fst p) (snd p))
             (combine (seq 0 (length (positional a))) (positional a))
           ++ variadic unparse (Ast.vararg a) true
           ++ kwo ++ variadic unparse (Ast.kwarg a) false)).
Proof.
  unfold _convert_arguments.
  change (posonlyargs a ++ Ast.args a) with (positional a).
  now rewrite (convert_positional_ok a (positional a) 0 eq_refl).
Qed.

Lemma variadic_length (x : option arg) (b : bool) :
  length (variadic unparse x b) = match x with Some _ => 1 | None => 0 end.
Proof. now destruct x. Qed.

(** X6. [_convert_arguments] fails, with [IndexError], exactly when there
    are fewer entries in [kw_defaults] than keyword-only parameters; the
    defaults of the positional parameters never run out.  When it returns,
    it returns one [Argument] per parameter. *)
Theorem convert_arguments_fails_iff (a : arguments) :
  (length (kwonlyargs a) <= length (kw_defaults a) ->
   exists l,
     _convert_arguments unparse a = Ok l
     /\ length l
        = length (posonlyargs a) + length (Ast.args a)
          + match Ast.vararg a with Some _ => 1 | None => 0 end
          + length (kwonlyargs a)
          + match Ast.kwarg a with Some _ => 1 | None => 0 end)
  /\ (length (kw_defaults a) < length (kwonlyargs a) ->
      _convert_arguments unparse a = Raise IndexError).
Proof.
  rewrite convert_arguments_unfold.
  destruct (convert_kwonly_ok a (kwonlyargs a) 0) as [Hok Hbad]. split.
  - intros H. destruct (Hok H) as (r & E & L & _). rewrite E. simpl.
    eexists. split; [reflexivity|].
    rewrite !length_app, length_map, length_combine, length_seq, Nat.min_id.
    rewrite !variadic_length, L. unfold positional. rewrite length_app. lia.
  - intros H. rewrite Hbad; [reflexivity| |exact H].
    destruct (kwonlyargs a); [simpl in H; lia|discriminate].
Qed.

(** X7. The positional parameters come first in the result, in declared
    order; the one at index [k] is positional-only exactly when [k] is
    below the number of positional-only parameters, and, with [n]
    positional parameters and [d] defaults, it carries the default at
    index [k + d - n] when [n <= k + d] and none otherwise. *)
Theorem convert_arguments_positional (a : arguments) (l : list Argument) :
  _convert_arguments unparse a = Ok l ->
  firstn (length (positional a)) l
  = map (fun p => positional_entry unparse a (fst p) (snd p))
        (combine (seq 0 (length (positional a))) (positional a)).
Proof.
  rewrite convert_arguments_unfold. intros E.
  destruct (convert_kwonly unparse a 0 (kwonlyargs a)) as [kwo|];
    simpl in E; [|discriminate].
  inversion E; subst. rewrite firstn_app.
  match goal with |- firstn ?n ?x ++ firstn (?n - length ?x) _ = _ =>
    assert (L : length x = n)
      by (now rewrite length_map, length_combine, length_seq, Nat.min_id)
  end.
  rewrite L, Nat.sub_diag, firstn_O, app_nil_r.
  rewrite <- L at 1. apply firstn_all.
Qed.

(** X8. Every [Argument] that [_convert_arguments] returns has at most one
    of the four flags set, and a variadic one carries no default. *)
Theorem convert_arguments_flags (a : arguments) (l : list Argument) :
  _convert_arguments unparse a = Ok l ->
  Forall (fun x => flags_set x <= 1
                   /\ (Entity.vararg x || Entity.kwarg x = true ->
                       default x = None)) l.
Proof.
  rewrite convert_arguments_unfold. intros E.
  destruct (convert_kwonly_ok a (kwonlyargs a) 0) as [Hok Hbad].
  destruct (convert_kwonly unparse a 0 (kwonlyargs a)) as [kwo|] eqn:K;
    simpl in E; [|discriminate].
  inversion E; subst.
  assert (V : forall x b,
             Forall (fun x => flags_set x <= 1
                              /\ (Entity.vararg x || Entity.kwarg x = true ->
                                  default x = None))
                    (variadic unparse x b)).
  { intros [x|] b; simpl; constructor; [|constructor].
    split; [|reflexivity]. unfold flags_set. simpl. destruct b; simpl; lia. }
  apply Forall_app; split; [|apply Forall_app; split; [apply V|];
                             apply Forall_app; split; [|apply V]].
  - apply Forall_forall. intros x Hx.
    apply in_map_iff in Hx as ([k y] & <- & _). unfold flags_set. simpl.
    split; [destruct (k <? _)%nat; simpl; lia|discriminate].
  - destruct (Nat.le_gt_cases (length (kwonlyargs a))
                              (length (kw_defaults a))) as [Le|Gt].
    + destruct (Hok Le) as (r & E' & _ & F).
      inversion E'; subst. eapply Forall_impl; [|exact F].
      intros x [F1 F2]. split; [lia|].
      unfold flags_set in F1. rewrite F2 in F1. simpl in F1.
      destruct (Entity.vararg x), (Entity.kwarg x), (pos_only x);
        simpl in *; try lia; discriminate.
    + assert (N : kwonlyargs a <> [])
        by (destruct (kwonlyargs a); [simpl in Gt; lia|discriminate]).
      discriminate (Hbad N Gt).
Qed.

End ArgumentFacts.

Section ClassFacts.
Import Entity Ast Static StaticShapes DiffEntities.
Local Open Scope list_scope.

Variable unparse : expr -> string.

Lemma convert_class_unfold name bases body decorator_list :
  _convert_class unparse (ClassDef name bases body decorator_list)
  = (m <- class_members unparse body (mkMembers [] [] [] []) ;;
     Ok (mkClass name (map unparse bases) (m_fields m)
                 (m_static_fields m) (m_methods m) (m_classes m)
                 (map unparse decorator_list))).
Proof. reflexivity. Qed.

Lemma class_members_methods body :
  forall m m',
    class_members unparse body m = Ok m' ->
    map func_name (m_methods m')
    = map func_name (m_methods m) ++ def_names body
    /\ (Forall (fun f => is_async f = false) (m_methods m) ->
        Forall (fun f => is_async f = false) (m_methods m'))
    /\ (defines_init body = false -> m_fields m' = m_fields m).
Proof.
  induction body as [|node body IH]; intros m m' E; simpl in E.
  - inversion E; subst. rewrite app_nil_r. auto.
  - match type of E with bind ?c _ = _ => destruct c as [m1|] eqn:S end;
      simpl in E; [|discriminate].
    destruct (IH _ _ E) as (N & A & F). clear IH E.
    destruct node as [fname fargs fbody dl ret | fname fargs fbody dl ret
                     | cname bases cbody dl | targets value
                     | target ann value | names | module names level
                     | children]; cbv beta iota in S.
    + destruct (_convert_function unparse _) as [f|] eqn:Cf; simpl in S;
        [|discriminate].
      assert (Hf : func_name f = fname /\ is_async f = false).
      { simpl in Cf. destruct (_convert_arguments unparse fargs);
          simpl in Cf; [|discriminate]. now inversion Cf. }
      destruct Hf as [Hn Ha].
      match type of S with bind ?c _ = _ => destruct c as [fs|] eqn:W end;
        simpl in S; [|discriminate].
      inversion S; subst m1. simpl in *. clear S.
      rewrite N, map_app, <- app_assoc. simpl. rewrite Hn.
      split; [reflexivity|]. split.
      * intros H. apply A, Forall_app. split; [exact H|]. now constructor.
      * intros H. apply orb_false_iff in H as [H1 H2]. rewrite H1 in W.
        inversion W; subst. rewrite (F H2). apply app_nil_r.
    + inversion S; subst. simpl. auto.
    + destruct (_convert_class unparse _) as [c|]; simpl in S;
        [|discriminate].
      inversion S; subst. simpl in *. auto.
    + destruct (_convert_variables unparse _) as [vs|]; simpl in S;
        [|discriminate].
      inversion S; subst. simpl in *. auto.
    + destruct (_convert_variables unparse _) as [vs|]; simpl in S;
        [|discriminate].
      inversion S; subst. simpl in *. auto.
    + inversion S; subst. simpl. auto.
    + inversion S; subst. simpl. auto.
    + inversion S; subst. simpl. auto.
Qed.

(** X9. The methods of a converted class are the plain [def]s of the
    class body, in order: an [async def] in the body is never among
    them, so no method has the async flag.  Without a plain
    [def __init__] in the body the class has no instance fields. *)
Theorem convert_class_methods name bases body decorator_list (c : Class_) :
  _convert_class unparse (ClassDef name bases body decorator_list) = Ok c ->
  map func_name (class_methods c) = def_names body
  /\ Forall (fun f => is_async f = false) (class_methods c)
  /\ (defines_init body = false -> class_fields c = []).
Proof.
  rewrite convert_class_unfold. intros E.
  destruct (class_members unparse body _) as [m|] eqn:M; simpl in E;
    [|discriminate].
  inversion E; subst. simpl.
  destruct (class_members_methods _ _ _ M) as (N & A & F).
  split; [exact N|]. split; [apply A; constructor|exact F].
Qed.

End ClassFacts.

(** * Further properties of alias resolution *)

Section ResolveMoreFacts.
Import Entity Ast Static.
Local Open Scope list_scope.

Lemma dict_has_In {V} (d : dict V) k :
  dict_has d k = true <-> In k (map fst d).
Proof.
  unfold dict_has. induction d as [|[k' v] d IH]; simpl.
  - split; [discriminate|intros []].
  - destruct (String.eqb_spec k' k) as [->|N].
    + split; auto.
    + rewrite IH. split; [auto|]. intros [E|H]; [contradiction|exact H].
Qed.

Lemma dict_set_fresh {V} (d : dict V) k v :
  dict_has d k = false -> dict_set d k v = d ++ [(k, v)].
Proof.
  unfold dict_has. induction d as [|[k' v'] d IH]; simpl; [reflexivity|].
  destruct (String.eqb k' k); [discriminate|].
  intros H. now rewrite (IH H).
Qed.

Lemma dict_get_app {V} (d1 d2 : dict V) k :
  dict_get (d1 ++ d2) k
  = match dict_get d1 k with Some v => Some v | None => dict_get d2 k end.
Proof.
  induction d1 as [|[k' v] d1 IH]; simpl; [reflexivity|].
  now destruct (String.eqb k' k).
Qed.

(** The entity kept under a name is the first one of that name. *)
Lemma by_name_get l :
  forall d k,
    dict_get (by_name l d) k
    = match dict_get d k with
      | Some v => Some v
      | None => find (fun e => String.eqb (entity_name e) k) l
      end.
Proof.
  induction l as [|e l IH]; intros d k; simpl.
  - now destruct (dict_get d k).
  - rewrite IH. destruct (dict_has d (entity_name e)) eqn:H.
    + destruct (dict_get d k) eqn:G; [reflexivity|].
      destruct (String.eqb_spec (entity_name e) k) as [E|_]; [|reflexivity].
      unfold dict_has in H. rewrite E, G in H. discriminate.
    + rewrite (dict_set_fresh _ _ _ H), dict_get_app. simpl.
      destruct (dict_get d k); [reflexivity|].
      now destruct (String.eqb (entity_name e) k).
Qed.

Lemma by_name_NoDup l :
  forall d, NoDup (map fst d) -> NoDup (map fst (by_name l d)).
Proof.
  induction l as [|e l IH]; intros d N; simpl; [exact N|].
  apply IH. destruct (dict_has d (entity_name e)) eqn:H; [exact N|].
  rewrite (dict_set_fresh _ _ _ H), map_app. simpl.
  apply NoDup_app_remove_l with (l := []). simpl.
  apply Permutation_NoDup with (l := entity_name e :: map fst d).
  - apply Permutation_cons_append.
  - constructor; [|exact N]. intros I. apply dict_has_In in I. congruence.
Qed.

Lemma RawPackage_nested_ind (P : RawPackage -> Prop) :
  (forall name children entities,
      Forall (fun kv => P (snd kv)) children ->
      P (mkRawPackage name children entities)) ->
  forall p, P p.
Proof.
  intros H. fix IH 1. intros [name children entities]. apply H.
  induction children as [|[k c] l IHl]; constructor; [apply IH|exact IHl].
Qed.

Lemma resolve_children_In parent l l' k sub' :
  resolve_children parent l = Ok l' -> In (k, sub') l' ->
  exists sub, In (k, sub) l /\ _resolve_import_from parent sub = Ok sub'.
Proof.
  revert l'. induction l as [|[k0 sub0] l IH]; intros l' E I; simpl in E.
  - inversion E; subst. destruct I.
  - destruct (_resolve_import_from parent sub0) as [s0|] eqn:R; simpl in E;
      [|discriminate].
    destruct (resolve_children parent l) as [rest|]; simpl in E;
      [|discriminate].
    inversion E; subst. destruct I as [I|I].
    + inversion I; subst. exists sub0. split; [now left|exact R].
    + destruct (IH _ eq_refl I) as (sub & Hs & Rs).
      exists sub. split; [now right|exact Rs].
Qed.

Lemma dict_get_In {V} (d : dict V) k v :
  dict_get d k = Some v -> In (k, v) d.
Proof.
  induction d as [|[k' v'] d IH]; simpl; [discriminate|].
  destruct (String.eqb_spec k' k) as [->|_]; intros H.
  - inversion H; subst. now left.
  - right. auto.
Qed.

Lemma resolve_import_from_NoDup (package : RawPackage) :
  forall parent package',
    _resolve_import_from parent package = Ok package' ->
    NoDup (map fst (entities package')).
Proof.
  induction package as [name chs ents IH] using RawPackage_nested_ind.
  intros parent package'. rewrite resolve_import_from_unfold. intros E.
  destruct (resolve_children _ chs) as [chs'|] eqn:C; simpl in E;
    [|discriminate].
  destruct (resolve_entities parent ents _) as [st|]; simpl in E;
    [|discriminate].
  destruct (dict_get chs' "__init__") as [init|] eqn:G.
  - inversion E; subst. simpl.
    apply dict_get_In in G.
    destruct (resolve_children_In _ _ _ _ _ C G) as (sub & Hs & Rs).
    rewrite Forall_forall in IH. apply (IH _ Hs _ _ Rs).
  - inversion E; subst. simpl. apply by_name_NoDup. constructor.
Qed.

(** X10. After alias resolution no name occurs twice among the entities
    of a package, also when they were taken over from the [__init__]
    child. *)
Theorem resolve_import_from_unique_names (parent : option string)
        (package : RawPackage) (package' : Package) :
  _resolve_import_from parent package = Ok package' ->
  NoDup (map fst (entities package')).
Proof. apply resolve_import_from_NoDup. Qed.

Lemma resolve_children_get_none parent l l' k :
  resolve_children parent l = Ok l' ->
  dict_get l k = None -> dict_get l' k = None.
Proof.
  revert l'. induction l as [|[k0 sub0] l IH]; intros l' E G; simpl in E, G.
  - now inversion E.
  - destruct (_resolve_import_from parent sub0) as [s0|]; simpl in E;
      [|discriminate].
    destruct (resolve_children parent l) as [rest|]; simpl in E;
      [|discriminate].
    inversion E; subst. simpl.
    destruct (String.eqb k0 k); [discriminate|]. now apply IH.
Qed.

Lemma import_from_names_shape m names :
  forall st st',
    import_from_names m names st = Ok st' ->
    exists als ws,
      new_entities st' = new_entities st ++ als
      /\ Forall (fun e => exists n a, e = EAlias n a) als
      /\ wildcard_aliases st' = wildcard_aliases st ++ ws
      /\ Forall (fun w => exists x, w = (x ++ ".*")%string) ws.
Proof.
  induction names as [|n names IH]; intros st st' E; simpl in E.
  - inversion E; subst. exists [], []. now rewrite !app_nil_r.
  - destruct m as [m|]; [|discriminate].
    destruct (String.eqb_spec (Ast.name n) "*") as [S|_];
      destruct (IH _ _ E) as (als & ws & H1 & H2 & H3 & H4); simpl in *.
    + exists als, ((m ++ "." ++ Ast.name n)%string :: ws).
      rewrite H3, <- app_assoc. repeat split; auto.
      constructor; [|exact H4]. exists m. now rewrite S.
    + exists (Alias (bound_name n) (m ++ "." ++ Ast.name n)%string :: als), ws.
      rewrite H1, <- app_assoc. repeat split; auto.
      constructor; [|exact H2]. unfold Alias. eauto.
Qed.

(** The loop over the raw entities only appends: aliases to the new
    entities, targets of the form [MODULE.*] to the wildcard targets. *)
Lemma resolve_entities_shape parent l :
  forall st st',
    resolve_entities parent l st = Ok st' ->
    exists als ws,
      new_entities st' = new_entities st ++ als
      /\ Forall (fun e => exists n a, e = EAlias n a) als
      /\ wildcard_aliases st' = wildcard_aliases st ++ ws
      /\ Forall (fun w => exists x, w = (x ++ ".*")%string) ws.
Proof.
  induction l as [|r l IH]; intros st st' E; simpl in E.
  - inversion E; subst. exists [], []. now rewrite !app_nil_r.
  - destruct r as [e|names|m names level].
    + now apply IH.
    + destruct (IH _ _ E) as (als & ws & H1 & H2 & H3 & H4). simpl in *.
      exists (map (fun n => Alias (bound_name n) (Ast.name n)) names ++ als),
             ws.
      rewrite H1, <- app_assoc. repeat split; auto.
      apply Forall_app. split; [|exact H2].
      apply Forall_forall. intros x Hx.
      apply in_map_iff in Hx as (n & <- & _). unfold Alias. eauto.
    + destruct (full_module_name parent m level) as [fm|]; simpl in E;
        [|discriminate].
      destruct (import_from_names fm names st) as [st1|] eqn:I; simpl in E;
        [|discriminate].
      destruct (import_from_names_shape _ _ _ _ I)
        as (a1 & w1 & A1 & A2 & A3 & A4).
      destruct (IH _ _ E) as (a2 & w2 & B1 & B2 & B3 & B4).
      exists (a1 ++ a2), (w1 ++ w2).
      rewrite B1, A1, B3, A3, <- !app_assoc. repeat split; auto.
      * now apply Forall_app.
      * now apply Forall_app.
Qed.

Lemma find_app {A} (f : A -> bool) (l1 l2 : list A) :
  find f (l1 ++ l2)
  = match find f l1 with Some x => Some x | None => find f l2 end.
Proof.
  induction l1 as [|x l1 IH]; simpl; [reflexivity|].
  now destruct (f x).
Qed.

(** The entities of a package without [__init__] child: the extracted
    ones, then the aliases, then the package's [WildcardAlias] if it has
    targets, each name kept at its first occurrence. *)
Lemma resolve_import_from_entities parent package package' :
  _resolve_import_from parent package = Ok package' ->
  dict_get (raw_children package) "__init__" = None ->
  exists als ws,
    Forall (fun e => exists n a, e = EAlias n a) als
    /\ Forall (fun w => exists x, w = (x ++ ".*")%string) ws
    /\ forall k,
        dict_get (entities package') k
        = find (fun e => String.eqb (entity_name e) k)
               (extracted (raw_entities package) ++ als
                  ++ match ws with
                     | [] => []
                     | _ => [WildcardAlias ws]
                     end).
Proof.
  destruct package as [name chs ents]. rewrite resolve_import_from_unfold.
  simpl. intros E G.
  destruct (resolve_children _ chs) as [chs'|] eqn:C; simpl in E;
    [|discriminate].
  destruct (resolve_entities parent ents _) as [st|] eqn:R; simpl in E;
    [|discriminate].
  rewrite (resolve_children_get_none _ _ _ _ C G) in E.
  inversion E; subst. simpl.
  destruct (resolve_entities_shape _ _ _ _ R) as (als & ws & H1 & H2 & H3 & H4).
  simpl in H1, H3. exists als, ws. split; [exact H2|]. split; [exact H4|].
  intros k. rewrite by_name_get. simpl. rewrite H1, H3.
  destruct ws; [now rewrite app_nil_r|now rewrite <- app_assoc].
Qed.

(** X11. In a package that has no [__init__] child, a name that the unit
    defines itself always resolves to the first definition of that name:
    an import of the same name never takes its place, wherever it stands
    in the source. *)
Theorem resolve_import_from_definitions_first (parent : option string)
        (package : RawPackage) (package' : Package) (k : string)
        (e : entity) :
  _resolve_import_from parent package = Ok package' ->
  dict_get (raw_children package) "__init__" = None ->
  find (fun x => String.eqb (entity_name x) k)
       (extracted (raw_entities package)) = Some e ->
  dict_get (entities package') k = Some e.
Proof.
  intros E G F.
  destruct (resolve_import_from_entities _ _ _ E G) as (als & ws & _ & _ & H).
  now rewrite H, find_app, F.
Qed.

Lemma split_on_app_sep c s t :
  split_on c (s ++ String c t) = split_on c s ++ split_on c t.
Proof.
  induction s as [|x s IH]; simpl.
  - now rewrite Ascii.eqb_refl.
  - rewrite IH. destruct (Ascii.eqb x c); [reflexivity|].
    destruct (split_on c s) as [|seg segs] eqn:S;
      [now apply split_on_nonempty in S|reflexivity].
Qed.

Lemma last_app_nonempty {A} (l1 l2 : list A) (d : A) :
  l2 <> [] -> last (l1 ++ l2) d = last l2 d.
Proof.
  intros N. induction l1 as [|x l1 IH]; [reflexivity|].
  simpl app. rewrite last_cons; [exact IH|].
  destruct l1; [exact N|discriminate].
Qed.

Lemma last_segment_wildcard x : Store.last_segment (x ++ ".*") = "*"%string.
Proof.
  unfold Store.last_segment. rewrite split_on_app_sep.
  rewrite last_app_nonempty by apply split_on_nonempty. reflexivity.
Qed.

Lemma all_extracted_child name chs ents k sub x :
  In (k, sub) chs -> In x (all_extracted sub) ->
  In x (all_extracted (mkRawPackage name chs ents)).
Proof.
  intros I H. cbn [all_extracted]. apply in_app_iff. right.
  apply in_flat_map. exists (k, sub). auto.
Qed.

(** X12. When no unit of a package extracted a [WildcardAlias] itself
    (the extractor yields functions, classes and variables only), the
    only [WildcardAlias] among the resolved entities of the package is
    the one that resolution built: it is stored under [*], it has at
    least one target, and the last segment of each target is [*].  This
    holds for the entities of a unit and for those that a directory takes
    over from its [__init__] child alike. *)
Theorem resolve_import_from_wildcard_targets (package : RawPackage) :
  forall (parent : option string) (package' : Package) (k name : string)
         (full_aliases : list string),
    _resolve_import_from parent package = Ok package' ->
    Forall (fun x => match x with
                     | EWildcardAlias _ _ => False
                     | _ => True
                     end) (all_extracted package) ->
    dict_get (entities package') k = Some (EWildcardAlias name full_aliases) ->
    k = "*"%string /\ name = "*"%string /\ full_aliases <> []
    /\ Forall (fun w => Store.last_segment w = "*"%string) full_aliases.
Proof.
  induction package as [pname chs ents IH] using RawPackage_nested_ind.
  intros parent package' k name full_aliases E X D.
  rewrite resolve_import_from_unfold in E.
  destruct (resolve_children _ chs) as [chs'|] eqn:C; simpl in E;
    [|discriminate].
  destruct (resolve_entities parent ents _) as [st|] eqn:R; simpl in E;
    [|discriminate].
  destruct (dict_get chs' "__init__") as [init|] eqn:G.
  - inversion E; subst. simpl in D.
    apply dict_get_In in G.
    destruct (resolve_children_In _ _ _ _ _ C G) as (sub & Hs & Rs).
    rewrite Forall_forall in IH.
    apply (IH _ Hs _ _ _ _ _ Rs); [|exact D].
    apply Forall_forall. intros x Hx. rewrite Forall_forall in X.
    apply X. eapply all_extracted_child; eauto.
  - inversion E; subst. simpl in D.
    destruct (resolve_entities_shape _ _ _ _ R)
      as (als & ws & H1 & A & H3 & W).
    simpl in H1, H3. rewrite by_name_get in D. simpl in D.
    rewrite H1, H3 in D. apply find_some in D as [I N].
    apply String.eqb_eq in N. simpl in N.
    assert (I' : In (EWildcardAlias name full_aliases)
                    (extracted ents ++ als
                       ++ match ws with
                          | [] => []
                          | _ => [WildcardAlias ws]
                          end))
      by (destruct ws; [now rewrite app_nil_r in *
                       |now rewrite <- app_assoc in I]).
    clear I. apply in_app_iff in I' as [I|I].
    { rewrite Forall_forall in X.
      assert (Ix : In (EWildcardAlias name full_aliases)
                      (all_extracted (mkRawPackage pname chs ents)))
        by (cbn [all_extracted]; apply in_app_iff; now left).
      now apply X in Ix. }
    apply in_app_iff in I as [I|I].
    { rewrite Forall_forall in A. apply A in I as (n & a & I). discriminate. }
    destruct ws as [|w ws]; [destruct I|].
    destruct I as [I|[]]. unfold WildcardAlias in I. inversion I; subst.
    repeat split; [discriminate|].
    eapply Forall_impl; [|exact W].
    intros x (m & ->). apply last_segment_wildcard.
Qed.

Lemma full_module_name_root m level :
  level <> 0%Z -> full_module_name None m level = Raise AttributeError.
Proof.
  intros N. unfold full_module_name.
  now destruct (Z.eqb_spec level 0).
Qed.

Lemma import_from_names_named m names :
  forall st, exists st', import_from_names (Some m) names st = Ok st'.
Proof.
  induction names as [|n names IH]; intros st; simpl; [eauto|].
  destruct (String.eqb (Ast.name n) "*"); apply IH.
Qed.

(** The loop over the raw entities of a package without a parent stops
    at the first relative import. *)
Lemma resolve_entities_root_relative pre post m names level :
  Forall (fun r => match r with
                   | RawImportFrom None (_ :: _) Z0 => False
                   | _ => True
                   end) pre ->
  level <> 0%Z ->
  forall st,
    resolve_entities None (pre ++ RawImportFrom m names level :: post) st
    = Raise AttributeError.
Proof.
  intros P N. induction pre as [|r pre IH]; intros st; simpl.
  - now rewrite (full_module_name_root _ _ N).
  - inversion P as [|? ? Hr P']; subst. specialize (IH P').
    destruct r as [e|ns|m0 ns l0]; [apply IH|apply IH|].
    destruct (Z.eq_dec l0 0) as [->|N0];
      [|now rewrite (full_module_name_root _ _ N0)].
    cbn [full_module_name Z.eqb bind].
    destruct m0 as [m0|].
    + destruct (import_from_names_named m0 ns st) as (st' & ->).
      cbn [bind]. apply IH.
    + destruct ns as [|n ns]; [|contradiction]. cbn [import_from_names bind].
      apply IH.
Qed.

(** X13. A relative import in a package that has no parent makes
    [_resolve_import_from] fail with [AttributeError]
    ([package.parent] is [None]), whatever stands before it, imports
    included, and after it: this is the case of every single-file package
    that holds a [from . import ...].  The subpackages, which are
    resolved first, are taken to resolve, and an absolute [from] import
    before it to name its module, as the grammar requires. *)
Theorem resolve_import_from_root_relative (name : string)
        (children : dict RawPackage) (children' : dict Package)
        (pre post : list raw) (m : option string) (names : list alias)
        (level : Z) :
  resolve_children (Some name) children = Ok children' ->
  Forall (fun r => match r with
                   | RawImportFrom None (_ :: _) Z0 => False
                   | _ => True
                   end) pre ->
  level <> 0%Z ->
  _resolve_import_from None
    (mkRawPackage name children
                  (pre ++ RawImportFrom m names level :: post))
  = Raise AttributeError.
Proof.
  intros C P N. rewrite resolve_import_from_unfold.
  change (full_name None name) with name. rewrite C. cbn [bind].
  now rewrite (resolve_entities_root_relative _ _ _ _ _ P N).
Qed.

End ResolveMoreFacts.

(** * Further properties of the lookups *)

Section LookupFacts.
Import Entity Store StoreNames.
Local Open Scope list_scope.

Lemma expand_wildcard_result h star k h' res :
  expand_wildcard h star k = (h', Ok res) ->
  exists name l, load h' res = Some (OWildcardAlias name l).
Proof.
  intros E.
  destruct (expand_wildcard_spec h star k) as [Z|(n & l & _ & Z)];
    rewrite Z in E; [discriminate|].
  inversion E; subst. eexists _, _. apply load_fresh.
Qed.

(** What [__getitem__] raises. *)
Lemma walk_keys_raises h key res keys h' e :
  walk_keys h key res keys = (h', Raise e) ->
  e = AttributeError \/ e = KeyError (NotAnEntity key).
Proof.
  revert res. induction keys as [|k rest IH]; intros res E; simpl in E.
  - discriminate.
  - destruct (load h res) as [[n p ch en| | | | |]|];
      try (inversion E; subst; now right).
    destruct (dict_get ch k); [now apply IH in E|].
    destruct (dict_get en k); [now apply IH in E|].
    destruct (dict_get en "*") as [star|];
      [|inversion E; subst; now right].
    destruct rest; [|inversion E; subst; now right].
    destruct (expand_wildcard_spec h star k) as [Z|(n0 & l & _ & Z)];
      rewrite Z in E; inversion E; subst. now left.
Qed.

Lemma getitem_raises h self key h' e :
  __getitem__ h self key = (h', Raise e) ->
  e = AttributeError \/ e = KeyError (DoesNotBelong key)
  \/ e = KeyError (NotAnEntity key).
Proof.
  unfold __getitem__. intros E.
  destruct (load h self) as [[n p ch en| | | | |]|];
    try (inversion E; subst; now left).
  destruct (negb _); [inversion E; subst; auto|].
  apply walk_keys_raises in E. tauto.
Qed.

(** With no alias followed yet, the loop over the aliases raises no
    [KeyError] but its own, whatever the recursive calls do. *)
Lemma try_aliases_key_error rec self key top_levels aliases :
  forall h h' e,
    try_aliases rec self key top_levels [] h aliases
    = (h', Some (Raise (KeyError e))) ->
    e = CannotBeResolved key.
Proof.
  induction aliases as [|alias rest IH]; intros h h' e E; simpl in E.
  - now inversion E.
  - match type of E with context [match ?t with Some _ => _ | None => _ end] =>
      destruct t as [p|] end; [|now apply IH in E].
    destruct (rec h p alias [alias]) as [h1 [[r|[| | | |x]]|]];
      try (inversion E; fail).
    now apply IH in E.
Qed.

(** X14. A caller of [Package.get] that passes no [prev_aliases] can see
    three [KeyError]s only, all of them about the key it asked for: the
    key does not belong to the package, it does not correspond to an
    entity, or it cannot be resolved.  The "cyclic reference" error never
    reaches it. *)
Theorem get_key_errors (depth : nat) (h : heap) (self : addr)
        (key : string) (top_levels : dict addr) (h' : heap)
        (e : key_error) :
  get depth h self key top_levels [] = (h', Some (Raise (KeyError e))) ->
  e = DoesNotBelong key \/ e = NotAnEntity key \/ e = CannotBeResolved key.
Proof.
  destruct depth as [|depth]; simpl; [discriminate|]. intros E.
  destruct (__getitem__ h self key) as [h1 [res|x]] eqn:G.
  - destruct (aliases_of (load h1 res)); [|discriminate].
    apply try_aliases_key_error in E. auto.
  - inversion E; subst.
    destruct (getitem_raises _ _ _ _ _ G) as [D|[D|D]];
      inversion D; auto.
Qed.

Lemma try_aliases_returns rec self key top_levels prev aliases :
  (forall h p alias prev' h' res,
      rec h p alias prev' = (h', Some (Ok res)) ->
      aliases_of (load h' res) = None) ->
  forall h h' res,
    try_aliases rec self key top_levels prev h aliases
    = (h', Some (Ok res)) ->
    aliases_of (load h' res) = None.
Proof.
  intros R. induction aliases as [|alias rest IH]; intros h h' res E;
    simpl in E; [discriminate|].
  destruct (mem alias prev); [discriminate|].
  match type of E with context [match ?t with Some _ => _ | None => _ end] =>
    destruct t as [p|] end; [|now apply IH in E].
  destruct (rec h p alias (prev ++ [alias])) as [h1 [[r|[| | | |x]]|]] eqn:C;
    try discriminate.
  - inversion E; subst. eapply R, C.
  - now apply IH in E.
Qed.

Lemma get_returns depth :
  forall h self key top_levels prev h' res,
    get depth h self key top_levels prev = (h', Some (Ok res)) ->
    aliases_of (load h' res) = None.
Proof.
  induction depth as [|depth IH]; intros h self key top_levels prev h' res E;
    simpl in E; [discriminate|].
  destruct (__getitem__ h self key) as [h1 [r|x]]; [|discriminate].
  destruct (aliases_of (load h1 r)) eqn:A.
  - eapply try_aliases_returns; [|exact E].
    intros h2 p alias prev' h2' res2 H. exact (IH _ _ _ _ _ _ _ H).
  - inversion E; subst. exact A.
Qed.

(** X15. What [Package.get] returns is never an [Alias] nor a
    [WildcardAlias]; and where [__getitem__] finds an object that is
    neither, [get] returns that very object. *)
Theorem get_never_returns_alias (depth : nat) (h : heap) (self : addr)
        (key : string) (top_levels : dict addr) (prev : list string) :
  (forall h' res,
      get depth h self key top_levels prev = (h', Some (Ok res)) ->
      aliases_of (load h' res) = None)
  /\ (forall h' res,
        __getitem__ h self key = (h', Ok res) ->
        aliases_of (load h' res) = None ->
        get (S depth) h self key top_levels prev = (h', Some (Ok res))).
Proof.
  split.
  - intros h' res. apply get_returns.
  - intros h' res G A. simpl. now rewrite G, A.
Qed.

Lemma split_name_dot_name name k :
  contains_char "." name = false -> contains_char "." k = false ->
  split_on "." (name ++ "." ++ k) = [name; k].
Proof.
  intros Hn Hk. change (name ++ "." ++ k)%string with (name ++ String "." k)%string.
  now rewrite split_on_app_sep, !split_on_no_sep_id.
Qed.

(** X16. In a package that holds a [WildcardAlias] under [*], the
    membership test answers [True] for every name directly below the
    package, whether the name exists or not. *)
Theorem contains_with_wildcard (h : heap) (self star : addr)
        (name k wname : string) (parent : option addr)
        (children entities : dict addr) (targets : list string) :
  load h self = Some (OPackage name parent children entities) ->
  dict_get entities "*" = Some star ->
  load h star = Some (OWildcardAlias wname targets) ->
  contains_char "." name = false ->
  contains_char "." k = false ->
  snd (__contains__ h self (name ++ "." ++ k)) = Ok true.
Proof.
  intros L S W Hn Hk. unfold __contains__, __getitem__.
  rewrite L, (split_name_dot_name _ _ Hn Hk). simpl hd. simpl tl.
  rewrite String.eqb_refl. cbn [negb walk_keys]. rewrite L.
  destruct (dict_get children k); [reflexivity|].
  destruct (dict_get entities k); [reflexivity|].
  rewrite S.
  destruct (expand_wildcard_spec h star k) as [Z|(n & l & _ & Z)].
  - unfold expand_wildcard, alloc in Z. rewrite W in Z. discriminate Z.
  - now rewrite Z.
Qed.

Lemma string_app_assoc (a b c : string) :
  ((a ++ b) ++ c = a ++ (b ++ c))%string.
Proof. induction a as [|x a IH]; simpl; [reflexivity|now rewrite IH]. Qed.

Lemma concat_snoc names name :
  names <> [] ->
  String.concat "." (names ++ [name])
  = (String.concat "." names ++ "." ++ name)%string.
Proof.
  induction names as [|x names IH]; intros N; [contradiction|].
  destruct names as [|y names].
  - reflexivity.
  - change (String.concat "." ((x :: y :: names) ++ [name]))
      with (x ++ "." ++ String.concat "." ((y :: names) ++ [name]))%string.
    rewrite IH by discriminate.
    change (String.concat "." (x :: y :: names))
      with (x ++ "." ++ String.concat "." (y :: names))%string.
    now rewrite !string_app_assoc.
Qed.

Lemma ancestry_nonempty h a names : ancestry h a names -> names <> [].
Proof.
  intros A. destruct A as [|? ? ? ? ? names' ? ?]; [discriminate|].
  destruct names'; discriminate.
Qed.

Lemma full_name_loop_ancestry h c names :
  ancestry h c names ->
  forall steps suffix,
    length names <= steps ->
    full_name_loop steps h suffix (Some c)
    = Some (Ok (String.concat "." names ++ "." ++ suffix)%string).
Proof.
  induction 1 as [a name ch en L|a name parent ch en names L A IH];
    intros steps suffix S.
  - destruct steps as [|steps]; [simpl in S; lia|]. simpl. rewrite L.
    now destruct steps.
  - rewrite length_app in S. simpl in S.
    destruct steps as [|steps]; [lia|]. simpl. rewrite L.
    rewrite IH by lia.
    rewrite (concat_snoc _ _ (ancestry_nonempty _ _ _ A)).
    now rewrite !string_app_assoc.
Qed.

(** X17. The full name of a package is the names of its ancestors, from
    the root down to the package, joined by dots; the loop needs one
    iteration per proper ancestor. *)
Theorem full_name_joins_ancestors (h : heap) (self : addr)
        (names : list string) (steps : nat) :
  ancestry h self names ->
  length names <= S steps ->
  full_name steps h self = Some (Ok (String.concat "." names)).
Proof.
  intros A. destruct A as [a name ch en L|a name parent ch en names L A];
    intros S; unfold full_name; rewrite L.
  - now destruct steps.
  - rewrite length_app in S. simpl in S.
    rewrite (full_name_loop_ancestry _ _ _ A) by lia.
    now rewrite (concat_snoc _ _ (ancestry_nonempty _ _ _ A)).
Qed.

End LookupFacts.

(** * Properties of the signatures and of the members of a class *)

Section SignatureFacts.
Import Entity Ast Static DiffEntities Signatures.
Local Open Scope list_scope.

Lemma convert_elts_untyped unparse value elts :
  forall i vars,
    convert_elts unparse value i elts = Ok vars ->
    Forall (fun v => var_type v = None) vars.
Proof.
  induction elts as [|elt elts IH]; intros i vars E; simpl in E.
  - inversion E; subst. constructor.
  - destruct elt; try (now apply IH in E).
    destruct (element_value unparse value i); simpl in E; [|discriminate].
    destruct (convert_elts unparse value (S i) elts) as [vs|] eqn:C;
      simpl in E; [|discriminate].
    inversion E; subst. constructor; [reflexivity|]. now apply (IH (S i)).
Qed.

Lemma convert_targets_untyped unparse value targets :
  forall vars,
    convert_targets unparse None value targets = Ok vars ->
    Forall (fun v => var_type v = None) vars.
Proof.
  induction targets as [|target targets IH]; intros vars E; simpl in E.
  - inversion E; subst. constructor.
  - match type of E with bind ?c _ = _ => destruct c as [vs|] eqn:T end;
      simpl in E; [|discriminate].
    destruct (convert_targets unparse None value targets) as [vs'|];
      simpl in E; [|discriminate].
    inversion E; subst. apply Forall_app. split; [|now apply IH].
    destruct target; inversion T; subst; try constructor; auto.
    now apply convert_elts_untyped in T.
Qed.

(** X18. A variable that the extractor takes from a plain assignment has
    no type ([None], not the empty text), so that its signature reads
    [name : None = value]. *)
Theorem assigned_variable_signature (unparse : expr -> string)
        (targets : list expr) (value : expr) (vars : list Variable_) :
  _convert_variables unparse (Assign targets value) = Ok vars ->
  Forall (fun v => Variable_signature v
                   = (var_name v ++ " : None = " ++ Entity.value v)%string)
         vars.
Proof.
  intros E. simpl in E. apply convert_targets_untyped in E.
  eapply Forall_impl; [|exact E].
  intros v T. unfold Variable_signature. now rewrite T.
Qed.

Lemma concat_empty_cons x l :
  String.concat "" (x :: l) = (x ++ String.concat "" l)%string.
Proof. destruct l; simpl; [now rewrite append_empty_r|reflexivity]. Qed.

Lemma concat_empty_snoc l x :
  String.concat "" (l ++ [x]) = (String.concat "" l ++ x)%string.
Proof.
  induction l as [|y l IH]; [reflexivity|].
  change ((y :: l) ++ [x]) with (y :: (l ++ [x])).
  now rewrite !concat_empty_cons, IH, string_app_assoc.
Qed.

Lemma decorate_rev ds :
  forall s,
    decorate (rev ds) s
    = (String.concat "" (map (fun d => "@" ++ d ++ " ")%string ds) ++ s)%string.
Proof.
  induction ds as [|d ds IH] using rev_ind; intros s; [reflexivity|].
  rewrite rev_app_distr. simpl. rewrite IH, map_app. simpl.
  rewrite concat_empty_snoc, string_app_assoc. simpl.
  now rewrite string_app_assoc.
Qed.

Lemma signature_items_rest prev rest :
  Forall (fun a => pos_only a = false) rest ->
  signature_items prev rest
  = match rest with
    | [] => []
    | _ :: _ => if prev then ["/"%string] else []
    end ++ map render_argument rest.
Proof.
  intros F. revert prev. induction F as [|a rest Ha F IH]; intros prev.
  - reflexivity.
  - simpl. rewrite Ha, (IH false). simpl.
    rewrite andb_true_r. now destruct rest.
Qed.

Lemma signature_items_pos prev pos rest :
  Forall (fun a => pos_only a = true) pos ->
  signature_items prev (pos ++ rest)
  = map render_argument pos
      ++ signature_items match pos with [] => prev | _ :: _ => true end rest.
Proof.
  intros F. revert prev. induction F as [|a pos Ha F IH]; intros prev.
  - reflexivity.
  - simpl. rewrite Ha, (IH true). rewrite andb_false_r. simpl.
    now destruct pos.
Qed.

(** X19. The text of [Function.signature]: [async] comes first, before
    the decorators, which follow in the order in which they are stored,
    each as [@name] and a blank.  Between the positional-only parameters
    and the parameters after them stands one [/]; when no parameter
    follows the positional-only ones, there is no [/]. *)
Theorem function_signature_shape (f : Function) (pos rest : list Argument) :
  Entity.args f = pos ++ rest ->
  Forall (fun a => pos_only a = true) pos ->
  Forall (fun a => pos_only a = false) rest ->
  Function_signature f
  = (let s :=
       String.concat "" (map (fun d => "@" ++ d ++ " ") (decorators f))
         ++ "def " ++ func_name f ++ "("
         ++ String.concat ", "
              (map render_argument pos
                 ++ match pos, rest with
                    | _ :: _, _ :: _ => ["/"]
                    | _, _ => []
                    end
                 ++ map render_argument rest)%list
         ++ ")" in
     let s := if is_async f then "async " ++ s else s in
     match returns f with
     | Some r => s ++ " -> " ++ r
     | None => s
     end)%string.
Proof.
  intros A P R. unfold Function_signature.
  rewrite decorate_rev, A, (signature_items_pos _ _ _ P),
    (signature_items_rest _ _ R).
  now destruct pos, rest.
Qed.

Lemma find_member_name (l : list (Function + Variable_)) name :
  In name (map member_name l) ->
  exists m, find (fun m => String.eqb (member_name m) name) l = Some m
            /\ member_name m = name.
Proof.
  induction l as [|x l IH]; simpl; [intros []|].
  destruct (String.eqb_spec (member_name x) name) as [E|N].
  - intros _. eauto.
  - intros [E|H]; [contradiction|auto].
Qed.

(** X20. Every name that [Class.get_names] lists for a method or a field
    of the class itself is found by [Class.get_entity], as a member of
    that name, provided the name holds no dot. *)
Theorem get_entity_finds_direct_names (c : Class_) (name : string) :
  In name (map func_name (class_methods c) ++ map var_name (class_fields c)
             ++ map var_name (class_static_fields c)) ->
  contains_char "." name = false ->
  In name (get_names c)
  /\ exists m, get_entity c name = Some m /\ member_name m = name.
Proof.
  destruct c as [cn bases fields statics methods classes decs]. simpl.
  intros I D. split.
  - rewrite !in_app_iff in *. tauto.
  - rewrite D. simpl. apply find_member_name.
    rewrite map_app, !map_map, map_app. simpl.
    rewrite !in_app_iff in *.
    rewrite (map_ext _ func_name), !(map_ext _ var_name) by reflexivity.
    tauto.
Qed.

End SignatureFacts.

(** * The text of a call and its parsing *)

Section CallTextFacts.
Import Entity Analyzer CallText.
Local Open Scope list_scope.

Lemma contains_char_app c a b :
  contains_char c (a ++ b) = contains_char c a || contains_char c b.
Proof.
  induction a as [|x a IH]; simpl; [reflexivity|].
  now rewrite IH, orb_assoc.
Qed.

Lemma contains_char_concat c sep l :
  contains_char c sep = false ->
  Forall (fun x => contains_char c x = false) l ->
  contains_char c (String.concat sep l) = false.
Proof.
  intros S F. induction F as [|x l Hx F IH]; [reflexivity|].
  destruct l as [|y l]; [exact Hx|].
  change (String.concat sep (x :: y :: l))
    with (x ++ sep ++ String.concat sep (y :: l))%string.
  now rewrite !contains_char_app, Hx, S, IH.
Qed.

Lemma ends_with_char_app c a :
  ends_with_char c (a ++ String c "") = true.
Proof.
  induction a as [|x a IH]; simpl; [apply Ascii.eqb_refl|].
  destruct (a ++ String c "")%string eqn:E; [now destruct a|exact IH].
Qed.

Lemma drop_last_app a x : drop_last (a ++ String x "") = a.
Proof.
  induction a as [|y a IH]; simpl; [reflexivity|].
  destruct (a ++ String x "")%string eqn:E; [now destruct a|].
  now rewrite IH.
Qed.

Lemma split_on_concat c l :
  l <> [] ->
  Forall (fun x => contains_char c x = false) l ->
  split_on c (String.concat (String c "") l) = l.
Proof.
  intros N F. induction F as [|x l Hx F IH]; [contradiction|].
  destruct l as [|y l]; [now apply split_on_no_sep_id|].
  change (String.concat (String c "") (x :: y :: l))
    with (x ++ String c (String.concat (String c "") (y :: l)))%string.
  rewrite split_on_app_sep, (split_on_no_sep_id _ _ Hx), IH by discriminate.
  reflexivity.
Qed.



Lemma parse_stars n :
  forall st,
    fold_left parse_arg (repeat "*"%string n) st
    = mkParsed (p_args st + Z.of_nat n) (p_kwargs st)
               (p_additional_kwargs st) (p_starargs st).
Proof.
  induction n as [|n IH]; intros [a k ad sa].
  - simpl. now rewrite Z.add_0_r.
  - cbn [repeat fold_left]. rewrite IH.
    change (parse_arg (mkParsed a k ad sa) "*")
      with (mkParsed (a + 1) k ad sa).
    cbn [p_args p_kwargs p_additional_kwargs p_starargs]. f_equal. lia.
Qed.

Lemma parse_keyword st k :
  contains_char "=" k = false ->
  parse_arg st (k ++ "=*")
  = mkParsed (p_args st) (set_add (p_kwargs st) k)
             (p_additional_kwargs st) (p_starargs st).
Proof.
  intros H. unfold parse_arg.
  replace (String.eqb (k ++ "=*") "") with false by now destruct k.
  rewrite contains_char_app. simpl. rewrite orb_true_r.
  replace (before_char "=" (k ++ "=*")) with k; [reflexivity|].
  induction k as [|x k IH]; simpl in *; [reflexivity|].
  apply orb_false_iff in H as [Hx Hk]. now rewrite Hx, <- (IH Hk).
Qed.


Lemma plain_name_spec s :
  plain_name s = true ->
  contains_char "." s = false /\ contains_char "(" s = false
  /\ contains_char "," s = false /\ contains_char "=" s = false.
Proof.
  unfold plain_name. rewrite !andb_true_iff, !negb_true_iff. tauto.
Qed.



Lemma parse_joined items st :
  Forall (fun x => contains_char "," x = false) items ->
  fold_left parse_arg (split_on "," (String.concat "," items)) st
  = fold_left parse_arg items st.
Proof.
  intros F. destruct items as [|x l]; [now destruct st|].
  now rewrite split_on_concat.
Qed.


Lemma split_on_two c s :
  contains_char c s = true -> exists a b r, split_on c s = a :: b :: r.
Proof.
  induction s as [|x s IH]; simpl; [discriminate|].
  destruct (Ascii.eqb x c); simpl.
  - intros _. destruct (split_on c s) as [|b r] eqn:E.
    + now destruct (split_on_nonempty c s).
    + now exists ""%string, b, r.
  - intros H. destruct (IH H) as (a & b & r & ->). now exists (String x a), b, r.
Qed.

Lemma parse_item_raise_iff item e :
  parse_item item = Raise e
  <-> e = IndexError
      /\ ends_with_char ")" item = true /\ contains_char "(" item = false.
Proof.
  unfold parse_item. destruct (ends_with_char ")" item).
  - destruct (contains_char "(" item) eqn:C.
    + destruct (split_on_two _ _ C) as (a & b & r & ->).
      split; [discriminate|]. now intros (_ & _ & ?).
    + rewrite (split_on_no_sep_id _ _ C). split.
      * intros H. now inversion H.
      * now intros (-> & _).
  - split; [discriminate|]. now intros (_ & ? & _).
Qed.

Lemma parse_items_spec items :
  (parse_items items = Raise IndexError
   /\ Exists (fun item => ends_with_char ")" item = true
                          /\ contains_char "(" item = false) items)
  \/ (exists chain, parse_items items = Ok chain
                    /\ length chain = length items
                    /\ Forall (fun item => ends_with_char ")" item = false
                                           \/ contains_char "(" item = true)
                              items).
Proof.
  induction items as [|item items IH]; [right; now exists []|].
  cbn [parse_items].
  destruct (parse_item item) as [x|e] eqn:E.
  - assert (Hi : ends_with_char ")" item = false
                 \/ contains_char "(" item = true).
    { destruct (ends_with_char ")" item) eqn:W; [|now left].
      destruct (contains_char "(" item) eqn:C; [now right|].
      assert (R : parse_item item = Raise IndexError)
        by (now apply parse_item_raise_iff).
      congruence. }
    destruct IH as [[R X]|(chain & R & L & F)].
    + left. simpl. rewrite R. split; [reflexivity|now apply Exists_cons_tl].
    + right. exists (x :: chain). simpl. rewrite R.
      repeat split; [now rewrite L|now constructor].
  - apply parse_item_raise_iff in E as (-> & W & C).
    left. split; [reflexivity|]. now apply Exists_cons_hd.
Qed.

(** X22 (src/py4a/client/analyzer.py, [AccessChain._from_str]): the
    parser fails on exactly the texts with a dot-separated item that ends
    in [)] and holds no [(], and then with an IndexError; on every other
    text it returns a chain with one element for each dot-separated
    item. *)
Theorem from_str_fails_iff (chain_str : string) :
  let bad item :=
    ends_with_char ")" item = true /\ contains_char "(" item = false in
  (Exists bad (split_on "." chain_str)
   <-> _from_str chain_str = Raise IndexError)
  /\ (forall e, _from_str chain_str = Raise e -> e = IndexError)
  /\ (~ Exists bad (split_on "." chain_str)
      -> exists chain,
           _from_str chain_str = Ok chain
           /\ length chain = length (split_on "." chain_str)).
Proof.
  intros bad. unfold _from_str.
  destruct (parse_items_spec (split_on "." chain_str))
    as [[R X]|(chain & R & L & F)]; rewrite R.
  - repeat split; auto.
    + intros e H. now inversion H.
    + intros N. now destruct N.
  - assert (N : ~ Exists bad (split_on "." chain_str)).
    { intros X. apply Exists_exists in X as (item & Hi & W & C).
      rewrite Forall_forall in F. destruct (F item Hi); congruence. }
    repeat split.
    + intros X. now destruct N.
    + discriminate.
    + discriminate.
    + intros _. now exists chain.
Qed.




End CallTextFacts.

(** * From a call node to its chain *)

Section ParseCallFacts.
Import Entity Analyzer CallText ClientVisitor.
Local Open Scope list_scope.
Variable unparse : node -> string.

Lemma parse_dotted n0 ns :
  _parse unparse (fold_left Attribute ns (Name n0))
  = String.concat "." (n0 :: ns).
Proof.
  induction ns as [|n ns IH] using rev_ind; [reflexivity|].
  rewrite fold_left_app. cbn [fold_left _parse]. rewrite IH.
  change (n0 :: ns ++ [n]) with ((n0 :: ns) ++ [n]).
  now rewrite concat_snoc by discriminate.
Qed.

Lemma concat_last_suffix init l suffix :
  (String.concat "." (init ++ [l]) ++ suffix)%string
  = String.concat "." (init ++ [(l ++ suffix)%string]).
Proof.
  destruct init as [|x init]; [reflexivity|].
  rewrite !concat_snoc by discriminate. now rewrite !string_app_assoc.
Qed.

Lemma contains_not_ends c s :
  contains_char c s = false -> ends_with_char c s = false.
Proof.
  induction s as [|x s IH]; [reflexivity|]. cbn [contains_char].
  intros H. apply orb_false_iff in H as [Hx Hs]. cbn [ends_with_char].
  destruct s; [exact Hx|exact (IH Hs)].
Qed.

Lemma parse_items_names init x item :
  Forall (fun s => contains_char ")" s = false) init ->
  parse_item item = Ok x ->
  parse_items (init ++ [item]) = Ok (map inl init ++ [x]).
Proof.
  intros F E. induction F as [|s init Hs F IH]; simpl.
  - now rewrite E.
  - unfold parse_item at 1. rewrite (contains_not_ends _ _ Hs). simpl.
    now rewrite IH.
Qed.

Lemma parse_item_call name J :
  contains_char "(" name = false ->
  contains_char "(" J = false ->
  parse_item (name ++ "(" ++ J ++ ")")
  = Ok (inr (let st := fold_left parse_arg (split_on "," J)
                                 (mkParsed 0 [] false false) in
             mkCall name (p_args st) (p_kwargs st) (p_starargs st)
                    (p_additional_kwargs st))).
Proof.
  intros Np Jp. unfold parse_item.
  replace (name ++ "(" ++ J ++ ")")%string
    with ((name ++ "(" ++ J) ++ ")")%string
    by (now rewrite !string_app_assoc).
  rewrite ends_with_char_app.
  replace ((name ++ "(" ++ J) ++ ")")%string
    with (name ++ String "(" (J ++ ")"))%string
    by (now rewrite !string_app_assoc).
  rewrite split_on_app_sep, (split_on_no_sep_id _ _ Np).
  rewrite split_on_no_sep_id
    by (rewrite contains_char_app, Jp; reflexivity).
  cbn [app]. now rewrite drop_last_app.
Qed.

Lemma parse_keywords_any ks :
  Forall (fun k => contains_char "=" k = false) ks ->
  forall st,
    fold_left parse_arg (map (fun k => (k ++ "=*")%string) ks) st
    = mkParsed (p_args st) (fold_left set_add ks (p_kwargs st))
               (p_additional_kwargs st) (p_starargs st).
Proof.
  induction 1 as [|k ks Hk F IH]; intros [a acc ad sa]; [reflexivity|].
  cbn [map fold_left]. rewrite (parse_keyword _ _ Hk), IH. reflexivity.
Qed.

Lemma call_items_free ch args keywords :
  Ascii.eqb "*" ch = false -> Ascii.eqb "=" ch = false ->
  Ascii.eqb "^" ch = false ->
  Forall (fun k => contains_char ch k = false) (keyword_args keywords) ->
  Forall (fun x => contains_char ch x = false) (call_items args keywords).
Proof.
  intros A E C F. unfold call_items.
  apply Forall_app; split; [|apply Forall_app; split; [|apply Forall_app; split]].
  - apply Forall_forall. intros x Hx. apply repeat_spec in Hx. subst x.
    cbn [contains_char]. now rewrite A.
  - destruct (existsb is_starred args); [|constructor].
    constructor; [|constructor]. cbn [contains_char]. now rewrite C.
  - apply Forall_forall. intros x Hx. apply in_map_iff in Hx as [k [<- Hk]].
    rewrite contains_char_app. cbn [contains_char]. rewrite A, E.
    cbn [orb]. rewrite orb_false_r. rewrite Forall_forall in F. now apply F.
  - destruct (existsb spreads keywords); [|constructor].
    constructor; [|constructor]. cbn [contains_char]. now rewrite A.
Qed.

Lemma parse_call_items args keywords :
  Forall (fun k => contains_char "=" k = false) (keyword_args keywords) ->
  fold_left parse_arg (call_items args keywords) (mkParsed 0 [] false false)
  = mkParsed (Z.of_nat (length (filter (fun n => negb (is_starred n)) args)))
             (fold_left set_add (keyword_args keywords) [])
             (existsb spreads keywords) (existsb is_starred args).
Proof.
  intros F. unfold call_items.
  rewrite !fold_left_app, parse_stars. cbn [p_args p_kwargs
    p_additional_kwargs p_starargs]. rewrite Z.add_0_l.
  destruct (existsb is_starred args), (existsb spreads keywords);
    cbn [fold_left]; rewrite ?parse_keywords_any by exact F;
    try (change (parse_arg ?s "^^^")
           with (mkParsed (p_args s) (p_kwargs s) (p_additional_kwargs s) true));
    reflexivity.
Qed.

Lemma segment_spec s :
  segment s = true ->
  contains_char "." s = false /\ contains_char "(" s = false
  /\ contains_char ")" s = false.
Proof.
  unfold segment. rewrite !andb_true_iff, !negb_true_iff. tauto.
Qed.

(** X24 (src/py4a/client/analyzer.py, [_SourceVisitor._parse_call],
    [_parse] and [AccessChain._from_str]): the text the visitor writes
    for a call of a dotted name parses to the chain of that call.  When
    the segments of the name hold none of [.], [(] and [)] and the
    keyword names none of [.], [(], [,] and [=], the chain is the
    segments before the last one followed by one call: its name is the
    last segment, its number of positional arguments the number of
    arguments that are not starred, its keywords the keyword names, with
    [starargs] set when an argument is starred and [additional_kwargs]
    when a keyword has no name. *)
Theorem from_str_of_parse_call (n0 : string) (ns : list string)
  (args : list node) (keywords : list (option string * node)) :
  Forall (fun s => segment s = true) (n0 :: ns) ->
  Forall (fun k => plain_name k = true) (keyword_args keywords) ->
  _from_str (_parse_call unparse (fold_left Attribute ns (Name n0))
                         args keywords)
  = Ok (map inl (removelast (n0 :: ns))
        ++ [inr (mkCall (last (n0 :: ns) ""%string)
                   (Z.of_nat
                      (length (filter (fun n => negb (is_starred n)) args)))
                   (fold_left set_add (keyword_args keywords) [])
                   (existsb is_starred args)
                   (existsb spreads keywords))]).
Proof.
  intros Fs Fk.
  assert (Kd : Forall (fun k => contains_char "." k = false)
                      (keyword_args keywords))
    by (eapply Forall_impl; [|exact Fk]; intros k H;
        now apply plain_name_spec in H).
  assert (Kp : Forall (fun k => contains_char "(" k = false)
                      (keyword_args keywords))
    by (eapply Forall_impl; [|exact Fk]; intros k H;
        now apply plain_name_spec in H).
  assert (Kc : Forall (fun k => contains_char "," k = false)
                      (keyword_args keywords))
    by (eapply Forall_impl; [|exact Fk]; intros k H;
        now apply plain_name_spec in H).
  assert (Ke : Forall (fun k => contains_char "=" k = false)
                      (keyword_args keywords))
    by (eapply Forall_impl; [|exact Fk]; intros k H;
        now apply plain_name_spec in H).
  pose proof (call_items_free "." args keywords eq_refl eq_refl eq_refl Kd)
    as Id.
  pose proof (call_items_free "(" args keywords eq_refl eq_refl eq_refl Kp)
    as Ip.
  pose proof (call_items_free "," args keywords eq_refl eq_refl eq_refl Kc)
    as Ic.
  set (J := String.concat "," (call_items args keywords)).
  assert (Jd : contains_char "." J = false)
    by (now apply contains_char_concat).
  assert (Jp : contains_char "(" J = false)
    by (now apply contains_char_concat).
  unfold _from_str, _parse_call. fold J. rewrite parse_dotted.
  assert (N : n0 :: ns <> []) by discriminate.
  rewrite (app_removelast_last ""%string N) at 1.
  rewrite (app_removelast_last ""%string N) in Fs.
  set (init := removelast (n0 :: ns)) in *.
  set (l := last (n0 :: ns) ""%string) in *.
  apply Forall_app in Fs as [Fi Fl]. inversion Fl as [|? ? Hl _]; subst.
  apply segment_spec in Hl as (Ld & Lp & _).
  rewrite concat_last_suffix.
  rewrite split_on_concat.
  - apply parse_items_names.
    + eapply Forall_impl; [|exact Fi]. intros s H.
      now apply segment_spec in H.
    + rewrite (parse_item_call _ _ Lp Jp). cbv zeta. unfold J.
      rewrite (parse_joined _ _ Ic), (parse_call_items _ _ Ke). reflexivity.
  - now destruct init.
  - apply Forall_app; split.
    + eapply Forall_impl; [|exact Fi]. intros s H.
      now apply segment_spec in H.
    + constructor; [|constructor].
      rewrite !contains_char_app, Ld, Jd. reflexivity.
Qed.

End ParseCallFacts.

(** * Matching an access chain *)

Section ChainFacts.
Import Entity Store Analyzer ChainMatch.
Local Open Scope list_scope.

Lemma app_nonempty_l (s t : string) : s <> ""%string -> (s ++ t)%string <> ""%string.
Proof. destruct s; [contradiction|discriminate]. Qed.

Lemma app_nonempty_r (s t : string) : t <> ""%string -> (s ++ t)%string <> ""%string.
Proof. destruct s; [now rewrite ?append_empty_l|discriminate]. Qed.

Lemma resolve_extends depth h top key :
  extends h (fst (resolve depth h top key)).
Proof.
  unfold resolve. pose proof (get_extends depth h top key [] []) as G.
  destruct (get depth h top key [] []) as [h1 [[e|[| | | |ke]]|]];
    simpl in *; auto.
  pose proof (getitem_extends h1 top key) as G'.
  destruct (__getitem__ h1 top key) as [h2 [e|[| | | |ke']]];
    simpl in *; eapply extends_trans; eauto.
Qed.

Lemma loop_extends depth top :
  forall items h ck cc ce,
    extends h (fst (loop depth top h ck cc ce items)).
Proof.
  induction items as [|it rest IH]; intros h ck cc ce; cbn [loop].
  - apply extends_refl.
  - cbv zeta.
    pose proof (resolve_extends depth h top
                  (String.concat "." (ck ++ [item_name it]))) as R.
    destruct (resolve depth h top (String.concat "." (ck ++ [item_name it])))
      as [h1 [[[e|]|ex]|]]; simpl in *; auto.
    unfold step. destruct it as [s|c]; [|exact R].
    destruct (load h1 e) as [[n p ch en| | | | |]|]; simpl; auto.
    eapply extends_trans; [exact R|apply IH].
Qed.

(** X25 (src/py4a/client/analyzer.py, [AccessChain.match]): matching a
    chain leaves every stored object as it was, whatever the outcome: the
    store after the match is the store before it followed by fresh
    [WildcardAlias] objects, the copies that the lookups made. *)
Theorem match_extends_store (depth : nat) (h : heap) (apis : dict addr)
  (chain : list item) :
  extends h (fst (AccessChain_match depth h apis chain))
  /\ forall a o,
       load h a = Some o ->
       load (fst (AccessChain_match depth h apis chain)) a = Some o.
Proof.
  assert (E : extends h (fst (AccessChain_match depth h apis chain))).
  { unfold AccessChain_match. destruct chain as [|top_level rest].
    - apply extends_refl.
    - destruct (dict_get apis (item_str top_level)); [apply loop_extends|].
      apply extends_refl. }
  split; [exact E|]. intros a o L. eapply extends_load; eauto.
Qed.

Lemma Ok_inj {A} (a b : A) : Ok a = Ok b -> a = b.
Proof. intros E. now inversion E. Qed.

Lemma match_method_shape chain key c rest break r :
  result_shape break ->
  match_method chain key c rest break = Ok r -> result_shape r.
Proof.
  intros B. unfold match_method.
  assert (K : Ok break = Ok r -> result_shape r)
    by (intros E; apply Ok_inj in E; now subst).
  destruct rest as [|[s|next] rest]; auto.
  destruct (Signatures.get_method c (name next)) as [method|]; auto.
  destruct (match_ next method (negb (static_method method)))
    as [[[|] msg]|ex]; cbn [bind]; intros E;
    [apply Ok_inj in E; subst r..|discriminate].
  - left. now repeat split.
  - right. repeat split; try discriminate.
    cbn [message]. apply app_nonempty_r, app_nonempty_l. discriminate.
Qed.

Lemma match_call_shape h call chain key e rest r :
  match_call h call chain key e rest = Ok r -> result_shape r.
Proof.
  assert (B : result_shape (mkMatchResult MATCH "" key (Some (inl e))))
    by (left; now repeat split).
  assert (K : Ok (mkMatchResult MATCH "" key (Some (inl e))) = Ok r ->
              result_shape r)
    by (intros E; apply Ok_inj in E; now subst).
  unfold match_call.
  destruct (load h e) as [[n p ch en| | |f|c|]|]; auto.
  - intros E; apply Ok_inj in E; subst r.
    right. repeat split; try discriminate.
    cbn [message]. apply app_nonempty_r. discriminate.
  - destruct (match_ call f false) as [[[|] msg]|ex]; cbn [bind]; auto;
      intros E; [apply Ok_inj in E; subst r|discriminate].
    right. repeat split; try discriminate.
    cbn [message]. apply app_nonempty_r, app_nonempty_l. discriminate.
  - destruct (Signatures.constructor c) as [ctor|];
      [|now apply match_method_shape].
    destruct (match_ call ctor true) as [[[|] msg]|ex]; cbn [bind];
      [now apply match_method_shape| |discriminate].
    intros E; apply Ok_inj in E; subst r.
    right. repeat split; try discriminate.
    cbn [message]. apply app_nonempty_r, app_nonempty_l. discriminate.
Qed.

Lemma loop_shape depth top :
  forall items h ck cc ce h' r,
    loop depth top h ck cc ce items = (h', Some (Ok r)) -> result_shape r.
Proof.
  induction items as [|it rest IH]; intros h ck cc ce h' r; cbn [loop].
  - intros E. inversion E; subst. left. now repeat split.
  - cbv zeta.
    destruct (resolve depth h top (String.concat "." (ck ++ [item_name it])))
      as [h1 [[[e|]|ex]|]]; try discriminate.
    + unfold step. destruct it as [s|c].
      * destruct (load h1 e) as [[n p ch en| | | | |]|];
          try (intros E; inversion E; subst; left; now repeat split).
        apply IH.
      * intros E. inversion E as [[E1 E2]]. eapply match_call_shape, E2.
    + intros E. inversion E; subst. right. repeat split; try discriminate.
      cbn [message]. apply app_nonempty_r. discriminate.
Qed.

(** X26 (src/py4a/client/analyzer.py, [AccessChain.match] and
    [MatchResult]): a result that [match] returns has one of two shapes.
    With the status MATCH it names the matched entity and its message is
    empty; with the status MISMATCH or MISSING it has a message that is
    not empty, no matched name and no matched entity. *)
Theorem match_result_shape (depth : nat) (h : heap) (apis : dict addr)
  (chain : list item) (h' : heap) (r : MatchResult) :
  AccessChain_match depth h apis chain = (h', Some (Ok r)) ->
  (status r = MATCH /\ message r = ""%string /\ matched_api r <> None)
  \/ (status r <> MATCH /\ message r <> ""%string
      /\ matched_name r = ""%string /\ matched_api r = None).
Proof.
  unfold AccessChain_match. destruct chain as [|top_level rest];
    [discriminate|].
  destruct (dict_get apis (item_str top_level)) as [top|].
  - apply loop_shape.
  - intros E. inversion E; subst. right. repeat split; try discriminate.
    cbn [message]. apply app_nonempty_r. discriminate.
Qed.

Lemma loop_names depth top :
  forall items h ck cc ce h' r,
    forallb is_name items = true ->
    loop depth top h ck cc ce items = (h', Some (Ok r)) ->
    status r <> MISMATCH /\ forall f, matched_api r <> Some (inr f).
Proof.
  induction items as [|it rest IH]; intros h ck cc ce h' r N; cbn [loop].
  - intros E. inversion E; subst. split; discriminate.
  - cbv zeta. destruct it as [s|c]; [|discriminate]. simpl in N.
    destruct (resolve depth h top (String.concat "." (ck ++ [item_name (inl s)])))
      as [h1 [[[e|]|ex]|]]; try discriminate.
    + unfold step.
      destruct (load h1 e) as [[n p ch en| | | | |]|];
        try (intros E; inversion E; subst; split; discriminate).
      now apply IH.
    + intros E. inversion E; subst. split; discriminate.
Qed.

(** X27 (src/py4a/client/analyzer.py, [AccessChain.match]): a chain
    without a call is never reported as a mismatch, and what it matches
    is never a method: its result is MISSING, or MATCH with an entity of
    the store. *)
Theorem match_names_never_mismatch (depth : nat) (h : heap)
  (apis : dict addr) (chain : list item) (h' : heap) (r : MatchResult) :
  forallb is_name chain = true ->
  AccessChain_match depth h apis chain = (h', Some (Ok r)) ->
  status r <> MISMATCH /\ forall f, matched_api r <> Some (inr f).
Proof.
  intros N. unfold AccessChain_match. destruct chain as [|top_level rest];
    [discriminate|].
  destruct (dict_get apis (item_str top_level)) as [top|].
  - now apply loop_names.
  - intros E. inversion E; subst. split; discriminate.
Qed.

Lemma loop_names_suffix depth top suffix :
  forall items h ck cc ce h' r e,
    forallb is_name items = true ->
    (items = [] -> is_package (load h ce) = true) ->
    loop depth top h ck cc ce items = (h', Some (Ok r)) ->
    matched_api r = Some (inl e) ->
    is_package (load h' e) = false ->
    loop depth top h ck cc ce (items ++ suffix) = (h', Some (Ok r)).
Proof.
  induction items as [|it rest IH]; intros h ck cc ce h' r e N P E A Q.
  - cbn [loop] in E. inversion E; subst. cbn [matched_api] in A.
    inversion A; subst. rewrite (P eq_refl) in Q. discriminate.
  - destruct it as [s|c]; [|discriminate]. simpl in N.
    cbn [loop app] in *. cbv zeta in *.
    destruct (resolve depth h top (String.concat "." (ck ++ [item_name (inl s)])))
      as [h1 [[[e1|]|ex]|]]; try exact E.
    unfold step in *.
    destruct (load h1 e1) as [[n p ch en| | | | |]|] eqn:L; try exact E.
    apply (IH h1 _ _ e1 h' r e N); auto.
    intros _. now rewrite L.
Qed.

(** X28 (src/py4a/client/analyzer.py, [AccessChain.match]): what follows
    an entity that is no package is not looked at.  When a chain of names
    matches an entity of the store that is not a package, the chain
    followed by any further items, calls included, has the same result
    and leaves the same store. *)
Theorem match_ignores_what_follows_an_entity (depth : nat) (h : heap)
  (apis : dict addr) (chain suffix : list item) (h' : heap)
  (r : MatchResult) (e : addr) :
  forallb is_name chain = true ->
  AccessChain_match depth h apis chain = (h', Some (Ok r)) ->
  matched_api r = Some (inl e) ->
  is_package (load h' e) = false ->
  AccessChain_match depth h apis (chain ++ suffix) = (h', Some (Ok r)).
Proof.
  intros N E A Q. unfold AccessChain_match in *.
  destruct chain as [|top_level rest]; [discriminate|].
  cbn [app].
  destruct (dict_get apis (item_str top_level)) as [top|]; [|exact E].
  apply (loop_names_suffix depth top suffix (top_level :: rest)
           h [] [] top h' r e N); auto.
  discriminate.
Qed.

End ChainFacts.

(** * The names in a package *)

Section KeysFacts.
Import Entity PackageKeys.
Local Open Scope list_scope.

Lemma Permutation_app_cross (A : Type) (a b c d : list A) :
  Permutation ((a ++ b) ++ (c ++ d)) ((a ++ c) ++ (b ++ d)).
Proof.
  rewrite <- !app_assoc. apply Permutation_app_head.
  rewrite !app_assoc. apply Permutation_app_tail, Permutation_app_comm.
Qed.

Lemma keys_modules_Permutation :
  forall p full,
    Permutation (keys false full p) (modules full p ++ keys true full p).
Proof.
  fix IH 1. intros [name children entities] full. cbn [keys modules].
  cbn [app]. apply perm_skip.
  match goal with
  | |- Permutation (?E ++ flat_map ?kf children)
                   (flat_map ?m children ++ ?E ++ flat_map ?kt children) =>
      assert (C : Permutation (flat_map kf children)
                              (flat_map m children ++ flat_map kt children))
  end.
  { induction children as [|[k child] rest IHc]; [constructor|].
    cbn [flat_map].
    eapply Permutation_trans;
      [apply Permutation_app; [apply IH|exact IHc]|].
    apply Permutation_app_cross. }
  eapply Permutation_trans; [apply Permutation_app_head, C|].
  rewrite !app_assoc. apply Permutation_app_tail, Permutation_app_comm.
Qed.

Lemma keys_prefixed :
  forall p full k,
    In k (keys true full p) ->
    exists rest, k = (full ++ "." ++ rest)%string.
Proof.
  fix IH 1. intros [name children entities] full k. cbn [keys app].
  rewrite in_app_iff. intros [H|H].
  - apply in_map_iff in H as (kv & <- & _). now exists (fst kv).
  - induction children as [|[c child] rest IHc]; [contradiction|].
    cbn [flat_map] in H. apply in_app_iff in H as [H|H]; [|exact (IHc H)].
    apply IH in H as (r & ->).
    exists (package_name child ++ "." ++ r)%string.
    now rewrite !string_app_assoc.
Qed.

Lemma modules_prefixed :
  forall p full m,
    In m (modules full p) -> exists rest, m = (full ++ rest)%string.
Proof.
  fix IH 1. intros [name children entities] full m. cbn [modules].
  intros [<-|H].
  - exists ""%string. now rewrite append_empty_r.
  - induction children as [|[c child] rest IHc]; [contradiction|].
    cbn [flat_map] in H. apply in_app_iff in H as [H|H]; [|exact (IHc H)].
    apply IH in H as (r & ->).
    exists ("." ++ package_name child ++ r)%string.
    now rewrite !string_app_assoc.
Qed.

(** X29 (src/py4a/api/entity.py, [Package.keys] and
    [Package.modules]): [keys(leaf_only=False)] lists the names of
    [modules()] and of [keys()], each as often as these do, and nothing
    else.  Every name of [keys()] is the full name of the package, a dot
    and more, and every name of [modules()] starts with the full name of
    the package. *)
Theorem keys_are_modules_and_leaves (p : Package) (full : string) :
  Permutation (keys false full p) (modules full p ++ keys true full p)
  /\ (forall k, In k (keys true full p) ->
                exists rest, k = (full ++ "." ++ rest)%string)
  /\ (forall m, In m (modules full p) ->
                exists rest, m = (full ++ rest)%string).
Proof.
  split; [apply keys_modules_Permutation|].
  split; [apply keys_prefixed|apply modules_prefixed].
Qed.

End KeysFacts.

Lemma convert_arguments_fails_iff_witness :
  exists l,
    Static._convert_arguments Static.unparse_text
      (Ast.mkArguments [Ast.mkArg "a" None] [Ast.mkArg "b" None] None
                   [Ast.mkArg "e" None] [None] (Some (Ast.mkArg "g" None))
                   [Ast.OtherExpr "1"]) = Ok l
    /\ length l = 4.
Proof.
  destruct (convert_arguments_fails_iff Static.unparse_text
              (Ast.mkArguments [Ast.mkArg "a" None] [Ast.mkArg "b" None] None
                           [Ast.mkArg "e" None] [None] (Some (Ast.mkArg "g" None))
                           [Ast.OtherExpr "1"])) as [H _].
  apply H. simpl. lia.
Defined.

Lemma convert_arguments_positional_witness :
  firstn 3
    match Static._convert_arguments Static.unparse_text
            (Ast.mkArguments [Ast.mkArg "a" None] [Ast.mkArg "b" None; Ast.mkArg "c" None]
                         (Some (Ast.mkArg "d" None)) [] [] None
                         [Ast.OtherExpr "1"; Ast.OtherExpr "2"]) with
    | Ok l => l
    | Raise _ => []
    end
  = [Entity.mkArgument "a" None None true false false false;
     Entity.mkArgument "b" None (Some (Static.unparse_text (Ast.OtherExpr "1"))) false false false
                false;
     Entity.mkArgument "c" None (Some (Static.unparse_text (Ast.OtherExpr "2"))) false false false
                false].
Proof.
  destruct (Static._convert_arguments Static.unparse_text
              (Ast.mkArguments [Ast.mkArg "a" None] [Ast.mkArg "b" None; Ast.mkArg "c" None]
                           (Some (Ast.mkArg "d" None)) [] [] None
                           [Ast.OtherExpr "1"; Ast.OtherExpr "2"])) as [l|] eqn:E;
    [|discriminate E].
  apply (convert_arguments_positional _ _ _ E).
Defined.

Lemma convert_arguments_flags_witness :
  Forall (fun x => StaticShapes.flags_set x <= 1
                   /\ (Entity.vararg x || Entity.kwarg x = true ->
                       Entity.default x = None))
         match Static._convert_arguments Static.unparse_text
                 (Ast.mkArguments [Ast.mkArg "a" None] [] (Some (Ast.mkArg "d" None))
                              [Ast.mkArg "e" None] [None]
                              (Some (Ast.mkArg "g" None)) []) with
         | Ok l => l
         | Raise _ => []
         end.
Proof.
  destruct (Static._convert_arguments Static.unparse_text
              (Ast.mkArguments [Ast.mkArg "a" None] [] (Some (Ast.mkArg "d" None))
                           [Ast.mkArg "e" None] [None]
                           (Some (Ast.mkArg "g" None)) [])) as [l|] eqn:E;
    [|discriminate E].
  apply (convert_arguments_flags _ _ _ E).
Defined.

Lemma convert_class_methods_witness :
  exists c,
    Static._convert_class Static.unparse_text
      (Ast.ClassDef "A" [] [Static.async_def_f; Static.def_f] []) = Ok c
    /\ map Entity.func_name (DiffEntities.class_methods c) = ["f"]
    /\ DiffEntities.class_fields c = [].
Proof.
  destruct (Static._convert_class Static.unparse_text
              (Ast.ClassDef "A" [] [Static.async_def_f; Static.def_f] []))
    as [c|] eqn:E; [|discriminate E].
  exists c. split; [reflexivity|].
  destruct (convert_class_methods Static.unparse_text _ _ _ _ c E)
    as (N & _ & F).
  split; [exact N|apply F; reflexivity].
Defined.

Lemma resolve_import_from_unique_names_witness :
  exists package',
    Static._resolve_import_from None Static.simple = Ok package'
    /\ NoDup (map fst (Entity.entities package')).
Proof.
  destruct (Static._resolve_import_from None Static.simple)
    as [package'|] eqn:E; [|discriminate E].
  exists package'. split; [reflexivity|].
  apply (resolve_import_from_unique_names None Static.simple package' E).
Defined.

Lemma resolve_import_from_definitions_first_witness :
  exists package',
    Static._resolve_import_from (Some "simple") Static.simple_init
    = Ok package'
    /\ dict_get (Entity.entities package') "VERSION"
       = Some (Entity.EVariable (Entity.mkVariable "VERSION" None "'1'")).
Proof.
  destruct (Static._resolve_import_from (Some "simple") Static.simple_init)
    as [package'|] eqn:E; [|discriminate E].
  exists package'. split; [reflexivity|].
  apply (resolve_import_from_definitions_first _ _ _ _ _ E); reflexivity.
Defined.

Lemma resolve_import_from_wildcard_targets_witness :
  exists package',
    Static._resolve_import_from None Static.simple_star = Ok package'
    /\ dict_get (Entity.entities package') "*"
       = Some (Entity.EWildcardAlias "*" ["simple.lib.*"])
    /\ Forall (fun w => Store.last_segment w = "*") ["simple.lib.*"].
Proof.
  destruct (Static._resolve_import_from None Static.simple_star)
    as [package'|] eqn:E; [|discriminate E].
  exists package'. split; [reflexivity|].
  assert (D : dict_get (Entity.entities package') "*"
              = Some (Entity.EWildcardAlias "*" ["simple.lib.*"]))
    by (inversion E; reflexivity).
  split; [exact D|].
  apply (resolve_import_from_wildcard_targets Static.simple_star None
           package' "*" "*" ["simple.lib.*"] E); [|exact D].
  repeat constructor.
Defined.

Lemma resolve_import_from_root_relative_witness :
  Static._resolve_import_from None
    (Static.mkRawPackage "single" []
       ([Static.RawImport [Ast.mkAlias "os" None];
         Static.RawImportFrom (Some "os") [Ast.mkAlias "path" None] 0]
          ++ Static.RawImportFrom None [Ast.mkAlias "x" None] 1 :: []))
  = Raise AttributeError.
Proof.
  apply (resolve_import_from_root_relative "single" [] []).
  - reflexivity.
  - repeat constructor.
  - discriminate.
Defined.

Lemma get_key_errors_witness :
  Store.get 3 Store.cyclic_pair 0 "P.A" [] []
  = (Store.cyclic_pair, Some (Raise (KeyError (CannotBeResolved "P.A"))))
  /\ (CannotBeResolved "P.A" = DoesNotBelong "P.A"
      \/ CannotBeResolved "P.A" = NotAnEntity "P.A"
      \/ CannotBeResolved "P.A" = CannotBeResolved "P.A").
Proof.
  split; [reflexivity|].
  apply (get_key_errors 3 Store.cyclic_pair 0 "P.A" [] Store.cyclic_pair).
  reflexivity.
Defined.

Lemma get_never_returns_alias_witness :
  Store.aliases_of (Store.load
                      (fst (Store.get 3 Store.wildcard_P_Q 0 "P.foo"
                              [("Q", 2)] [])) 3) = None.
Proof.
  destruct (get_never_returns_alias 3 Store.wildcard_P_Q 0 "P.foo"
              [("Q", 2)] []) as [H _].
  apply H. reflexivity.
Defined.

Lemma contains_with_wildcard_witness :
  snd (StoreNames.__contains__ Store.wildcard_P_Q 0 "P.anything") = Ok true.
Proof.
  apply (contains_with_wildcard Store.wildcard_P_Q 0 1 "P" "anything" "*"
           None [] [("*", 1)] ["Q.*"]); reflexivity.
Defined.

Lemma full_name_joins_ancestors_witness :
  StoreNames.full_name 2 StoreNames.nested_a_b_c 2 = Some (Ok "a.b.c").
Proof.
  apply (full_name_joins_ancestors StoreNames.nested_a_b_c 2
           (["a"; "b"] ++ ["c"]) 2)%list.
  - eapply StoreNames.ancestry_child; [reflexivity|].
    apply (StoreNames.ancestry_child _ 1 "b" 0 [("c", 2)] [] ["a"]);
      [reflexivity|].
    eapply StoreNames.ancestry_root. reflexivity.
  - simpl. lia.
Defined.

Lemma assigned_variable_signature_witness :
  Forall (fun v => Signatures.Variable_signature v
                   = (Entity.var_name v ++ " : None = " ++ Entity.value v))
         [Entity.mkVariable "a" None "1"; Entity.mkVariable "b" None "2"].
Proof.
  apply (assigned_variable_signature Static.unparse_text
           [Ast.Tuple [Ast.Name "a"; Ast.Name "b"]]
           (Ast.Tuple [Ast.OtherExpr "1"; Ast.OtherExpr "2"])).
  reflexivity.
Defined.

Lemma function_signature_shape_witness :
  Signatures.Function_signature
    (Entity.mkFunction "f"
       [Entity.mkArgument "a" (Some "int") None true false false false;
        Entity.mkArgument "b" None (Some "1") false false false false;
        Entity.mkArgument "g" None None false false false true]
       (Some "str") ["decorator1"; "decorator2"] true)
  = "async @decorator1 @decorator2 def f(a: int, /, b = 1, **g) -> str".
Proof.
  apply (function_signature_shape
           (Entity.mkFunction "f"
              [Entity.mkArgument "a" (Some "int") None true false false false;
               Entity.mkArgument "b" None (Some "1") false false false false;
               Entity.mkArgument "g" None None false false false true]
              (Some "str") ["decorator1"; "decorator2"] true)
           [Entity.mkArgument "a" (Some "int") None true false false false]
           [Entity.mkArgument "b" None (Some "1") false false false false;
            Entity.mkArgument "g" None None false false false true]).
  - reflexivity.
  - repeat constructor.
  - repeat constructor.
Defined.

Lemma get_entity_finds_direct_names_witness :
  In "m" (Signatures.get_names
            (Entity.mkClass "A" [] [Entity.mkVariable "x" None "1"] []
               [Entity.mkFunction "m" [] None [] false] [] []))
  /\ exists m,
      Signatures.get_entity
        (Entity.mkClass "A" [] [Entity.mkVariable "x" None "1"] []
           [Entity.mkFunction "m" [] None [] false] [] []) "m" = Some m
      /\ Signatures.member_name m = "m".
Proof.
  apply get_entity_finds_direct_names.
  - simpl. auto.
  - reflexivity.
Defined.


Lemma from_str_fails_iff_witness :
  CallText._from_str "a.)" = Raise IndexError
  /\ exists chain,
       CallText._from_str "pandas.read_csv(*).head()" = Ok chain
       /\ length chain = 3%nat.
Proof.
  split.
  - destruct (from_str_fails_iff "a.)") as [[H _] _].
    apply H. simpl. apply Exists_cons_tl, Exists_cons_hd. now split.
  - destruct (from_str_fails_iff "pandas.read_csv(*).head()") as (_ & _ & H).
    apply H. simpl. intros X.
    repeat (apply Exists_cons in X as [[E C]|X];
            [discriminate E || discriminate C|]).
    inversion X.
Defined.


Lemma from_str_of_parse_call_witness :
  CallText._from_str
    (ClientVisitor._parse_call ClientVisitor.unparse_text
       (fold_left ClientVisitor.Attribute ["d2"; "d2"] (ClientVisitor.Name "d1"))
       [ClientVisitor.Starred (ClientVisitor.Name "a")]
       [(None, ClientVisitor.Name "b")])
  = Ok [inl "d1"; inl "d2"; inr (Analyzer.mkCall "d2" 0 [] true true)].
Proof.
  apply (from_str_of_parse_call ClientVisitor.unparse_text "d1" ["d2"; "d2"]
           [ClientVisitor.Starred (ClientVisitor.Name "a")]
           [(None, ClientVisitor.Name "b")]).
  - repeat constructor.
  - constructor.
Defined.

Lemma match_names_never_mismatch_witness :
  ChainMatch.AccessChain_match 5 ChainMatch.pkg_store [("pkg", 0)]
    [inl "pkg"; inl "np"; inl "mean"]
  = (ChainMatch.pkg_store,
     Some (Ok (ChainMatch.mkMatchResult ChainMatch.MATCH "" "pkg.np"
                 (Some (inl 3)))))
  /\ ChainMatch.status
       (ChainMatch.mkMatchResult ChainMatch.MATCH "" "pkg.np" (Some (inl 3)))
     <> ChainMatch.MISMATCH.
Proof.
  split; [reflexivity|].
  apply (match_names_never_mismatch 5 ChainMatch.pkg_store [("pkg", 0)]
           [inl "pkg"; inl "np"; inl "mean"] ChainMatch.pkg_store);
    reflexivity.
Defined.

Lemma match_result_shape_witness :
  ChainMatch.result_shape
    (ChainMatch.mkMatchResult ChainMatch.MISMATCH
       "pkg.f(*,*,*,*) does not match function def f(a, b, c = 1): f() takes up to 3 positional arguments but 4 are given"
       "" None).
Proof.
  apply (match_result_shape 5 ChainMatch.pkg_store [("pkg", 0)]
           [inl "pkg"; inr (Analyzer.mkCall "f" 4 [] false false)]
           ChainMatch.pkg_store).
  reflexivity.
Defined.

Lemma match_ignores_what_follows_an_entity_witness :
  ChainMatch.AccessChain_match 5 ChainMatch.pkg_store [("pkg", 0)]
    ([inl "pkg"; inl "A"] ++ [inr (Analyzer.mkCall "make" 2 [] false false)])
  = (ChainMatch.pkg_store,
     Some (Ok (ChainMatch.mkMatchResult ChainMatch.MATCH "" "pkg.A"
                 (Some (inl 2))))).
Proof.
  apply (match_ignores_what_follows_an_entity 5 ChainMatch.pkg_store
           [("pkg", 0)] [inl "pkg"; inl "A"]
           [inr (Analyzer.mkCall "make" 2 [] false false)]
           ChainMatch.pkg_store _ 2); reflexivity.
Defined.

Lemma match_extends_store_witness :
  Store.load
    (fst (ChainMatch.AccessChain_match 5 Store.wildcard_P_Q [("P", 0)]
            [inl "P"; inl "foo"])) 1
  = Some (Store.OWildcardAlias "*" ["Q.*"]).
Proof.
  destruct (match_extends_store 5 Store.wildcard_P_Q [("P", 0)]
              [inl "P"; inl "foo"]) as [_ H].
  apply H. reflexivity.
Defined.

Lemma keys_are_modules_and_leaves_witness :
  Permutation ["a"; "a.f"; "a.b"; "a.b.x"] (["a"; "a.b"] ++ ["a.f"; "a.b.x"])
  /\ exists rest, "a.b.x" = ("a" ++ "." ++ rest)%string.
Proof.
  destruct (keys_are_modules_and_leaves PackageKeys.a_with_b "a")
    as (P & K & _).
  split; [exact P|]. apply K. simpl. auto.
Defined.
